(** * Multi-precision integers of code/crypto/bignum.c

    A shallow embedding of the MPI library (limb arrays, carry and borrow
    chains, shifts, long division, Montgomery exponentiation, binary GCD and
    modular inverse) together with the properties stated for it.

    Conventions of the embedding:
    - a limb ([t_uint]) is a [Z] in [0, Radix); every operation of the source
      on limbs is written with its wrap-around ([to_uint]);
    - sizes and indices ([size_t]) are [nat];
    - an MPI is its sign [s] and its limb buffer [p] (least significant limb
      first); the field [n] of the source is the length of the buffer, and
      [p = NULL] is the empty buffer;
    - a function of the source that returns a status code returns a [res]:
      [Ok] for 0, [Err] for a POLARSSL_ERR_MPI code, [Fault] where the source
      would read or write outside a limb buffer, [OutOfFuel] where a
      [while] loop of the source was cut by the bound of the model;
    - [memory_alloc] is taken to succeed, so that [mpi_grow] only fails on its
      own limit POLARSSL_MPI_MAX_LIMBS. *)

From Stdlib Require Import ZArith List Lia Bool Arith.
From Stdlib Require Import Strings.Byte.
Import ListNotations.
Local Open Scope Z_scope.

#[local] Set Warnings "-abstract-large-number".

(** ** Platform configuration (bignum.h and config.h are not part of the
    sources at hand: the limb width and the limits are parameters) *)

Inductive limb_width := W32 | W64.

Class config := {
  width : limb_width;
  POLARSSL_MPI_MAX_LIMBS : nat;
  POLARSSL_MPI_WINDOW_SIZE : nat;
  POLARSSL_HAVE_UDBL : bool
}.

Inductive mpi_err :=
| ERR_MPI_BAD_INPUT_DATA
| ERR_MPI_INVALID_CHARACTER
| ERR_MPI_BUFFER_TOO_SMALL
| ERR_MPI_NEGATIVE_VALUE
| ERR_MPI_DIVISION_BY_ZERO
| ERR_MPI_NOT_ACCEPTABLE
| ERR_MPI_MALLOC_FAILED.

Inductive res (A : Type) : Type :=
| Ok (a : A)
| Err (e : mpi_err)
| Fault
| OutOfFuel.

Arguments Ok {A} a.
Arguments Err {A} e.
Arguments Fault {A}.
Arguments OutOfFuel {A}.

Definition bind {A B : Type} (m : res A) (k : A -> res B) : res B :=
  match m with
  | Ok a => k a
  | Err e => Err e
  | Fault => Fault
  | OutOfFuel => OutOfFuel
  end.

Notation "x <- m ;; k" := (bind m (fun x => k))
  (at level 61, m at next level, right associativity).
Notation "' pat <- m ;; k" := (bind m (fun x => match x with pat => k end))
  (at level 61, pat pattern, m at next level, right associativity).

(** A [while] loop of the source, cut after [fuel] iterations. *)
Fixpoint while {St : Type} (fuel : nat) (cond : St -> bool)
  (body : St -> res St) (st : St) : res St :=
  match fuel with
  | O => OutOfFuel
  | S fuel' =>
      if cond st then st' <- body st ;; while fuel' cond body st'
      else Ok st
  end.

(** A [do ... while] loop of the source. *)
Definition do_while {St : Type} (fuel : nat) (cond : St -> bool)
  (body : St -> res St) (st : St) : res St :=
  st' <- body st ;; while fuel cond body st'.

Definition b2z (b : bool) : Z := if b then 1 else 0.

Record mpi_t := mk_mpi { s : Z; p : list Z }.

Definition n (X : mpi_t) : nat := length (p X).

(** Destination of an operation [f(X, A, B)]: the source tests [X == A] and
    [X == B] on pointers, so the embedding says whether the destination is
    one of the operands or a third object, given by its content. *)
Inductive dst :=
| DstA
| DstB
| Dst (X : mpi_t).

Definition dst_swap (d : dst) : dst :=
  match d with
  | DstA => DstB
  | DstB => DstA
  | Dst X => Dst X
  end.

Section Embedding.
Context {cfg : config}.

Definition ciL : nat := match width with W32 => 4 | W64 => 8 end.
Definition biL : nat := ciL * 8.
Definition biH : nat := ciL * 4.

Definition Radix : Z := 2 ^ Z.of_nat biL.

Definition BITS_TO_LIMBS (i : nat) : nat := ((i + biL - 1) / biL)%nat.
Definition CHARS_TO_LIMBS (i : nat) : nat := ((i + ciL - 1) / ciL)%nat.

(** Conversion to [t_uint]. *)
Definition to_uint (z : Z) : Z := z mod Radix.

(** Reading and writing one limb of a buffer. *)
Definition rd (l : list Z) (i : nat) : res Z :=
  match nth_error l i with
  | Some x => Ok x
  | None => Fault
  end.

Fixpoint upd (l : list Z) (i : nat) (v : Z) : list Z :=
  match l, i with
  | [], _ => []
  | _ :: l', O => v :: l'
  | x :: l', S i' => x :: upd l' i' v
  end.

Definition wr (l : list Z) (i : nat) (v : Z) : res (list Z) :=
  if (i <? length l)%nat then Ok (upd l i v) else Fault.

(** *** mpi_init, mpi_free, mpi_grow *)

Definition mpi_init : mpi_t := {| s := 1; p := [] |}.

Definition mpi_free (X : mpi_t) : mpi_t := {| s := 1; p := [] |}.

Definition mpi_grow (X : mpi_t) (nblimbs : nat) : res mpi_t :=
  if (POLARSSL_MPI_MAX_LIMBS <? nblimbs)%nat then Err ERR_MPI_MALLOC_FAILED
  else if (n X <? nblimbs)%nat
       then Ok {| s := s X; p := p X ++ repeat 0 (nblimbs - n X) |}
       else Ok X.

(** [for( i = n; i > 0; i-- ) if( p[i - 1] != 0 ) break;] gives [i]. *)
Fixpoint scan_hi (l : list Z) (i : nat) : nat :=
  match i with
  | O => O
  | S j => if nth j l 0 =? 0 then scan_hi l j else S j
  end.

(** [for( i = n - 1; i > 0; i-- ) if( p[i] != 0 ) break;] gives [i]. *)
Fixpoint scan_top (l : list Z) (i : nat) : nat :=
  match i with
  | O => O
  | S j =>
      if nth (S j) l 0 =? 0 then scan_top l j else S j
  end.

(** *** mpi_copy (X and Y distinct objects; [X == Y] returns at once) *)

Definition mpi_copy (X Y : mpi_t) : res mpi_t :=
  match p Y with
  | [] => Ok (mpi_free X)
  | _ :: _ =>
      let i := S (scan_top (p Y) (n Y - 1)) in
      X1 <- mpi_grow {| s := s Y; p := p X |} i ;;
      Ok {| s := s X1; p := firstn i (p Y) ++ repeat 0 (n X1 - i) |}
  end.

(** *** mpi_safe_cond_assign *)

Fixpoint cond_assign_limbs (assign : Z) (xs ys : list Z) : list Z :=
  match xs with
  | [] => []
  | x :: xs' =>
      match ys with
      | y :: ys' =>
          to_uint (x * (1 - assign) + y * assign)
            :: cond_assign_limbs assign xs' ys'
      | [] => to_uint (x * (1 - assign)) :: cond_assign_limbs assign xs' []
      end
  end.

Definition mpi_safe_cond_assign (X Y : mpi_t) (assign : Z) : res mpi_t :=
  let assign := b2z (negb (assign =? 0)) in
  X1 <- mpi_grow X (n Y) ;;
  Ok {| s := s X1 * (1 - assign) + s Y * assign;
        p := cond_assign_limbs assign (p X1) (p Y) |}.

(** *** mpi_lset *)

Definition mpi_lset (X : mpi_t) (z : Z) : res mpi_t :=
  X1 <- mpi_grow X 1 ;;
  Ok {| s := if z <? 0 then -1 else 1;
        p := upd (repeat 0 (n X1)) 0 (to_uint (if z <? 0 then - z else z)) |}.

(** *** mpi_get_bit *)

Definition mpi_get_bit (X : mpi_t) (pos : nat) : res Z :=
  if (n X * biL <=? pos)%nat then Ok 0
  else
    x <- rd (p X) (pos / biL) ;;
    Ok (Z.land (Z.shiftr x (Z.of_nat (pos mod biL))) 1).

(** *** mpi_lsb *)

Fixpoint lsb_bits (x : Z) (j k : nat) : option nat :=
  match k with
  | O => None
  | S k' =>
      if Z.land (Z.shiftr x (Z.of_nat j)) 1 =? 0
      then lsb_bits x (S j) k'
      else Some j
  end.

Fixpoint lsb_limbs (l : list Z) (count : nat) : nat :=
  match l with
  | [] => O
  | x :: l' =>
      match lsb_bits x 0 biL with
      | Some j => (count + j)%nat
      | None => lsb_limbs l' (count + biL)%nat
      end
  end.

Definition mpi_lsb (X : mpi_t) : nat := lsb_limbs (p X) 0.

(** *** mpi_msb, mpi_size

    With [n = 0] the source starts its scan at index [n - 1] of an unsigned
    type, that is outside the (absent) buffer. *)

Fixpoint msb_bits (x : Z) (j : nat) : nat :=
  match j with
  | O => O
  | S j' =>
      if Z.land (Z.shiftr x (Z.of_nat j')) 1 =? 0
      then msb_bits x j'
      else S j'
  end.

Definition mpi_msb (X : mpi_t) : res nat :=
  match p X with
  | [] => Fault
  | _ :: _ =>
      let i := scan_top (p X) (n X - 1) in
      x <- rd (p X) i ;;
      Ok (i * biL + msb_bits x biL)%nat
  end.

Definition mpi_size (X : mpi_t) : res nat :=
  m <- mpi_msb X ;;
  Ok ((m + 7) / 8)%nat.

(** *** mpi_read_binary, mpi_write_binary *)

Definition byte_val (b : byte) : Z := Z.of_N (Byte.to_N b).

Definition to_uint8 (z : Z) : byte :=
  match Byte.of_N (Z.to_N (z mod 256)) with
  | Some b => b
  | None => x00
  end.

(** [for( n = 0; n < buflen; n++ ) if( buf[n] != 0 ) break;] *)
Fixpoint skip_zero_bytes (buf : list byte) : nat :=
  match buf with
  | [] => O
  | b :: buf' =>
      if byte_val b =? 0 then S (skip_zero_bytes buf') else O
  end.

(** The loop [for( i = buflen, j = 0; i > n; i--, j++ )] of mpi_read_binary:
    [bs] holds [buf[i - 1]], [buf[i - 2]], ..., [buf[n]]. *)
Fixpoint read_bytes (bs : list byte) (j : nat) (l : list Z) : res (list Z) :=
  match bs with
  | [] => Ok l
  | b :: bs' =>
      x <- rd l (j / ciL) ;;
      l' <- wr l (j / ciL)
               (Z.lor x (to_uint (Z.shiftl (byte_val b)
                                           (Z.of_nat ((j mod ciL) * 8))))) ;;
      read_bytes bs' (S j) l'
  end.

Definition mpi_read_binary (X : mpi_t) (buf : list byte) : res mpi_t :=
  let buflen := length buf in
  let n0 := skip_zero_bytes buf in
  X1 <- mpi_grow X (CHARS_TO_LIMBS (buflen - n0)) ;;
  X2 <- mpi_lset X1 0 ;;
  l <- read_bytes (rev (skipn n0 buf)) 0 (p X2) ;;
  Ok {| s := s X2; p := l |}.

(** The loop [for( i = buflen - 1, j = 0; n > 0; --i, ++j, --n )] of
    mpi_write_binary; [i1] is [i + 1]. *)
Fixpoint write_bytes (l : list Z) (cnt i1 j : nat) (buf : list byte)
  : res (list byte) :=
  match cnt with
  | O => Ok buf
  | S cnt' =>
      x <- rd l (j / ciL) ;;
      match i1 with
      | O => Fault
      | S i =>
          if (i <? length buf)%nat then
            write_bytes l cnt' i (S j)
              (firstn i buf
                 ++ to_uint8 (Z.shiftr x (Z.of_nat ((j mod ciL) * 8)))
                 :: skipn (S i) buf)
          else Fault
      end
  end.

Definition mpi_write_binary (X : mpi_t) (buflen : nat) : res (list byte) :=
  sz <- mpi_size X ;;
  if (buflen <? sz)%nat then Err ERR_MPI_BUFFER_TOO_SMALL
  else write_bytes (p X) sz buflen 0 (repeat x00 buflen).

(** *** mpi_shift_l *)

(** [for( i = v0; i < X->n; i++ )]: the bits pushed out of a limb enter the
    next one through [r0]. *)
Fixpoint shl_bits (t1 : nat) (l : list Z) (r0 : Z) : list Z :=
  match l with
  | [] => []
  | x :: l' =>
      let r1 := Z.shiftr x (Z.of_nat (biL - t1)) in
      Z.lor (to_uint (Z.shiftl x (Z.of_nat t1))) r0 :: shl_bits t1 l' r1
  end.

Definition mpi_shift_l (X : mpi_t) (count : nat) : res mpi_t :=
  let v0 := (count / biL)%nat in
  let t1 := (count mod biL)%nat in
  m <- mpi_msb X ;;
  let i := (m + count)%nat in
  X1 <- (if (n X * biL <? i)%nat then mpi_grow X (BITS_TO_LIMBS i)
         else Ok X) ;;
  let l1 := if (0 <? v0)%nat then firstn (n X1) (repeat 0 v0 ++ p X1)
            else p X1 in
  let l2 := if (0 <? t1)%nat
            then firstn v0 l1 ++ shl_bits t1 (skipn v0 l1) 0
            else l1 in
  Ok {| s := s X1; p := l2 |}.

(** *** mpi_shift_r *)

(** [for( i = X->n; i > 0; i-- )]: the limbs are visited from the top, the
    bits pushed out of a limb enter the one below through [r0]. *)
Fixpoint shr_bits (v1 : nat) (l : list Z) : list Z * Z :=
  match l with
  | [] => ([], 0)
  | x :: l' =>
      let '(l'', r0) := shr_bits v1 l' in
      (Z.lor (Z.shiftr x (Z.of_nat v1)) r0 :: l'',
       to_uint (Z.shiftl x (Z.of_nat (biL - v1))))
  end.

Definition mpi_shift_r (X : mpi_t) (count : nat) : res mpi_t :=
  let v0 := (count / biL)%nat in
  let v1 := (count mod biL)%nat in
  if (n X <? v0)%nat || ((v0 =? n X)%nat && (0 <? v1)%nat) then mpi_lset X 0
  else
    let l1 := if (0 <? v0)%nat then skipn v0 (p X) ++ repeat 0 v0
              else p X in
    let l2 := if (0 <? v1)%nat then fst (shr_bits v1 l1) else l1 in
    Ok {| s := s X; p := l2 |}.

(** *** mpi_cmp_abs, mpi_cmp_mpi, mpi_cmp_int *)

(** [for( ; i > 0; i-- )] comparing limbs from the top; [sx] is what the
    source returns when the limb of X is the larger one. *)
Fixpoint cmp_limbs (sx : Z) (lx ly : list Z) (i : nat) : Z :=
  match i with
  | O => 0
  | S k =>
      if nth k ly 0 <? nth k lx 0 then sx
      else if nth k lx 0 <? nth k ly 0 then - sx
      else cmp_limbs sx lx ly k
  end.

Definition mpi_cmp_abs (X Y : mpi_t) : Z :=
  let i := scan_hi (p X) (n X) in
  let j := scan_hi (p Y) (n Y) in
  if (i =? 0)%nat && (j =? 0)%nat then 0
  else if (j <? i)%nat then 1
  else if (i <? j)%nat then -1
  else cmp_limbs 1 (p X) (p Y) i.

Definition mpi_cmp_mpi (X Y : mpi_t) : Z :=
  let i := scan_hi (p X) (n X) in
  let j := scan_hi (p Y) (n Y) in
  if (i =? 0)%nat && (j =? 0)%nat then 0
  else if (j <? i)%nat then s X
  else if (i <? j)%nat then - s Y
  else if (0 <? s X) && (s Y <? 0) then 1
  else if (0 <? s Y) && (s X <? 0) then -1
  else cmp_limbs (s X) (p X) (p Y) i.

(** The one-limb MPI that the source builds on the stack around a [t_sint]. *)
Definition mpi_of_sint (z : Z) : mpi_t :=
  {| s := if z <? 0 then -1 else 1;
     p := [to_uint (if z <? 0 then - z else z)] |}.

Definition mpi_cmp_int (X : mpi_t) (z : Z) : Z :=
  mpi_cmp_mpi X (mpi_of_sint z).

(** *** mpi_add_abs *)

(** [while( c != 0 )] of mpi_add_abs, from index [i] on; [pl] is the buffer
    from [i] on.  At the end of the buffer the source grows X by one limb.
    The carry is consumed at the latest there, [k] bounds the iterations. *)
Fixpoint add_ripple (k i : nat) (pl : list Z) (c : Z) : res (list Z) :=
  if c =? 0 then Ok pl
  else
    match k with
    | O => OutOfFuel
    | S k' =>
        match pl with
        | [] =>
            if (POLARSSL_MPI_MAX_LIMBS <? S i)%nat
            then Err ERR_MPI_MALLOC_FAILED
            else
              let y := to_uint (0 + c) in
              rest <- add_ripple k' (S i) [] (b2z (y <? c)) ;;
              Ok (y :: rest)
        | x :: pl' =>
            let y := to_uint (x + c) in
            rest <- add_ripple k' (S i) pl' (b2z (y <? c)) ;;
            Ok (y :: rest)
        end
    end.

(** [for( i = 0; i < j; i++, o++, p++ )] of mpi_add_abs. *)
Fixpoint add_loop (o pl : list Z) (c : Z) (i : nat) : res (list Z) :=
  match o with
  | [] => add_ripple (S (S (length pl))) i pl c
  | b :: o' =>
      match pl with
      | [] => Fault
      | x :: pl' =>
          let x1 := to_uint (x + c) in
          let c1 := b2z (x1 <? c) in
          let x2 := to_uint (x1 + b) in
          let c2 := c1 + b2z (x2 <? b) in
          rest <- add_loop o' pl' c2 (S i) ;;
          Ok (x2 :: rest)
      end
  end.

Definition mpi_add_abs (d : dst) (A B : mpi_t) : res mpi_t :=
  '(X0, B') <- match d with
               | DstB => Ok (B, A)
               | DstA => Ok (A, B)
               | Dst X => X1 <- mpi_copy X A ;; Ok (X1, B)
               end ;;
  let j := scan_hi (p B') (n B') in
  X2 <- mpi_grow {| s := 1; p := p X0 |} j ;;
  l <- add_loop (firstn j (p B')) (p X2) 0 0 ;;
  Ok {| s := 1; p := l |}.

(** *** mpi_sub_hlp, mpi_sub_abs *)

Fixpoint sub_ripple (dl : list Z) (c : Z) : res (list Z) :=
  match dl with
  | [] => if c =? 0 then Ok [] else Fault
  | y :: dl' =>
      if c =? 0 then Ok dl
      else
        let z := b2z (y <? c) in
        rest <- sub_ripple dl' z ;;
        Ok (to_uint (y - c) :: rest)
  end.

Fixpoint sub_loop (sl dl : list Z) (c : Z) : res (list Z) :=
  match sl with
  | [] => sub_ripple dl c
  | x :: sl' =>
      match dl with
      | [] => Fault
      | y :: dl' =>
          let z := b2z (y <? c) in
          let y1 := to_uint (y - c) in
          let c' := b2z (y1 <? x) + z in
          let y2 := to_uint (y1 - x) in
          rest <- sub_loop sl' dl' c' ;;
          Ok (y2 :: rest)
      end
  end.

Definition mpi_sub_hlp (cnt : nat) (sl dl : list Z) : res (list Z) :=
  if (length sl <? cnt)%nat then Fault
  else sub_loop (firstn cnt sl) dl 0.

Definition mpi_sub_abs (d : dst) (A B : mpi_t) : res mpi_t :=
  if mpi_cmp_abs A B <? 0 then Err ERR_MPI_NEGATIVE_VALUE
  else
    B' <- match d with
          | DstB => mpi_copy mpi_init B
          | _ => Ok B
          end ;;
    X0 <- match d with
          | DstA => Ok A
          | DstB => mpi_copy B A
          | Dst X => mpi_copy X A
          end ;;
    l <- mpi_sub_hlp (scan_hi (p B') (n B')) (p B') (p X0) ;;
    Ok {| s := 1; p := l |}.

(** *** mpi_add_mpi, mpi_sub_mpi, mpi_add_int, mpi_sub_int *)

Definition set_sign (X : mpi_t) (sg : Z) : mpi_t := {| s := sg; p := p X |}.

Definition mpi_add_mpi (d : dst) (A B : mpi_t) : res mpi_t :=
  let s0 := s A in
  if s A * s B <? 0 then
    if 0 <=? mpi_cmp_abs A B
    then X <- mpi_sub_abs d A B ;; Ok (set_sign X s0)
    else X <- mpi_sub_abs (dst_swap d) B A ;; Ok (set_sign X (- s0))
  else X <- mpi_add_abs d A B ;; Ok (set_sign X s0).

Definition mpi_sub_mpi (d : dst) (A B : mpi_t) : res mpi_t :=
  let s0 := s A in
  if 0 <? s A * s B then
    if 0 <=? mpi_cmp_abs A B
    then X <- mpi_sub_abs d A B ;; Ok (set_sign X s0)
    else X <- mpi_sub_abs (dst_swap d) B A ;; Ok (set_sign X (- s0))
  else X <- mpi_add_abs d A B ;; Ok (set_sign X s0).

Definition mpi_add_int (d : dst) (A : mpi_t) (b : Z) : res mpi_t :=
  mpi_add_mpi d A (mpi_of_sint b).

Definition mpi_sub_int (d : dst) (A : mpi_t) (b : Z) : res mpi_t :=
  mpi_sub_mpi d A (mpi_of_sint b).

(** *** mpi_mul_hlp, mpi_mul_mpi, mpi_mul_int *)

(** Modelled from the spec: bn_mul.h, which defines the macros MULADDC_INIT,
    MULADDC_CORE and MULADDC_STOP, is not part of the sources.  The spec
    gives mul_hlp as the schoolbook multiply-accumulate
    [D[0..n+1] += S[0..n] * b + carry]; one MULADDC_CORE adds the double-limb
    product [*s * b], the carry [c] and [*d], stores the low limb in [*d] and
    keeps the high limb as the next carry. *)
Definition MULADDC_CORE (x y b c : Z) : Z * Z :=
  let r := x * b in
  let r0 := to_uint r in
  let r1 := to_uint (r / Radix) in
  let r0 := to_uint (r0 + c) in
  let r1 := to_uint (r1 + b2z (r0 <? c)) in
  let r0 := to_uint (r0 + y) in
  let r1 := to_uint (r1 + b2z (r0 <? y)) in
  (r0, r1).

(** [do { *d += c; c = ( *d < c ); d++; } while( c != 0 );] *)
Fixpoint mul_ripple (dl : list Z) (c : Z) : res (list Z) :=
  match dl with
  | [] => Fault
  | y :: dl' =>
      let y' := to_uint (y + c) in
      let c' := b2z (y' <? c) in
      if c' =? 0 then Ok (y' :: dl')
      else rest <- mul_ripple dl' c' ;; Ok (y' :: rest)
  end.

Fixpoint muladdc (sl dl : list Z) (b c : Z) : res (list Z) :=
  match sl with
  | [] => mul_ripple dl c
  | x :: sl' =>
      match dl with
      | [] => Fault
      | y :: dl' =>
          let '(r0, c') := MULADDC_CORE x y b c in
          rest <- muladdc sl' dl' b c' ;;
          Ok (r0 :: rest)
      end
  end.

Definition mpi_mul_hlp (i : nat) (sl dl : list Z) (b : Z) : res (list Z) :=
  if (length sl <? i)%nat then Fault
  else muladdc (firstn i sl) dl b 0.

(** [for( i++; j > 0; j-- ) mpi_mul_hlp( i - 1, A->p, X->p + j - 1, B->p[j - 1] );] *)
Fixpoint mul_loop (Ap : list Z) (i : nat) (Bp : list Z) (j : nat)
  (Xp : list Z) : res (list Z) :=
  match j with
  | O => Ok Xp
  | S j' =>
      b <- rd Bp j' ;;
      dl <- mpi_mul_hlp i Ap (skipn j' Xp) b ;;
      mul_loop Ap i Bp j' (firstn j' Xp ++ dl)
  end.

Definition mpi_mul_mpi (d : dst) (A B : mpi_t) : res mpi_t :=
  TA <- match d with
        | DstA => mpi_copy mpi_init A
        | _ => Ok A
        end ;;
  TB <- match d with
        | DstB => mpi_copy mpi_init B
        | _ => Ok B
        end ;;
  let X0 := match d with
            | DstA => A
            | DstB => B
            | Dst X => X
            end in
  let i := scan_hi (p TA) (n TA) in
  let j := scan_hi (p TB) (n TB) in
  X1 <- mpi_grow X0 (i + j) ;;
  X2 <- mpi_lset X1 0 ;;
  l <- mul_loop (p TA) i (p TB) j (p X2) ;;
  Ok {| s := s TA * s TB; p := l |}.

(** [b] is a [t_sint] stored as it is into the one limb of [_B]. *)
Definition mpi_mul_int (d : dst) (A : mpi_t) (b : Z) : res mpi_t :=
  mpi_mul_mpi d A {| s := 1; p := [to_uint b] |}.

(** *** mpi_div_mpi *)

(** The quotient digit estimate with a double-limb division
    (POLARSSL_HAVE_UDBL). *)
Definition div_estimate_udbl (x1 x0 y : Z) : Z :=
  let r := Z.lor (Z.shiftl x1 (Z.of_nat biL)) x0 in
  let r := r / y in
  if Radix - 1 <? r then Radix - 1 else r.

(** [if( r < m ) { q--, r += d; while( r >= d && r < m ) q--, r += d; }] *)
Definition qrnnd_adjust (fuel : nat) (q r d m : Z) : res (Z * Z) :=
  if r <? m then
    while fuel (fun '(q, r) => (d <=? r) && (r <? m))
      (fun '(q, r) => Ok (to_uint (q - 1), to_uint (r + d)))
      (to_uint (q - 1), to_uint (r + d))
  else Ok (q, r).

(** The quotient digit estimate by half limbs ([__udiv_qrnnd_c]). *)
Definition div_estimate_qrnnd (fuel : nat) (x1 x0 d : Z) : res Z :=
  let hb := Z.of_nat biH in
  let d0 := Z.shiftr (to_uint (Z.shiftl d hb)) hb in
  let d1 := Z.shiftr d hb in
  if d1 =? 0 then Fault
  else
    let q1 := x1 / d1 in
    let r1 := to_uint (x1 - to_uint (d1 * q1)) in
    let r1 := to_uint (Z.shiftl r1 hb) in
    let r1 := Z.lor r1 (Z.shiftr x0 hb) in
    let m := to_uint (q1 * d0) in
    '(q1, r1) <- qrnnd_adjust fuel q1 r1 d m ;;
    let r1 := to_uint (r1 - m) in
    let q0 := r1 / d1 in
    let r0 := to_uint (r1 - to_uint (d1 * q0)) in
    let r0 := to_uint (Z.shiftl r0 hb) in
    let r0 := Z.lor r0 (Z.shiftr (to_uint (Z.shiftl x0 hb)) hb) in
    let m := to_uint (q0 * d0) in
    '(q0, r0) <- qrnnd_adjust fuel q0 r0 d m ;;
    Ok (Z.lor (to_uint (Z.shiftl q1 hb)) q0).

Definition set_limb (X : mpi_t) (i : nat) (v : Z) : res mpi_t :=
  l <- wr (p X) i v ;; Ok {| s := s X; p := l |}.

(** The body of the [do ... while( mpi_cmp_mpi( &T1, &T2 ) > 0 )] loop that
    lowers the digit [Z.p[i - t - 1]]; the state is [(Z, T1, T2)]. *)
Definition div_refine_body (X Y : mpi_t) (i t : nat)
  (st : mpi_t * mpi_t * mpi_t) : res (mpi_t * mpi_t * mpi_t) :=
  let '(Zq, T1, T2) := st in
  q <- rd (p Zq) (i - t - 1) ;;
  Z1 <- set_limb Zq (i - t - 1) (to_uint (q - 1)) ;;
  T1 <- mpi_lset T1 0 ;;
  y1 <- (if (t <? 1)%nat then Ok 0 else rd (p Y) (t - 1)) ;;
  T1 <- set_limb T1 0 y1 ;;
  y2 <- rd (p Y) t ;;
  T1 <- set_limb T1 1 y2 ;;
  q <- rd (p Z1) (i - t - 1) ;;
  T1 <- mpi_mul_int DstA T1 q ;;
  T2 <- mpi_lset T2 0 ;;
  x0 <- (if (i <? 2)%nat then Ok 0 else rd (p X) (i - 2)) ;;
  T2 <- set_limb T2 0 x0 ;;
  x1 <- (if (i <? 1)%nat then Ok 0 else rd (p X) (i - 1)) ;;
  T2 <- set_limb T2 1 x1 ;;
  x2 <- rd (p X) i ;;
  T2 <- set_limb T2 2 x2 ;;
  Ok (Z1, T1, T2).

(** One turn of [for( i = n; i > t ; i-- )]; the state is [(X, Z, T1, T2)]. *)
Definition div_step (fuel : nat) (Y : mpi_t) (i t : nat)
  (st : mpi_t * mpi_t * mpi_t * mpi_t)
  : res (mpi_t * mpi_t * mpi_t * mpi_t) :=
  let '(X, Zq, T1, T2) := st in
  xi <- rd (p X) i ;;
  yt <- rd (p Y) t ;;
  q <- (if yt <=? xi then Ok (to_uint (Z.lnot 0))
        else
          x0 <- rd (p X) (i - 1) ;;
          if POLARSSL_HAVE_UDBL then Ok (to_uint (div_estimate_udbl xi x0 yt))
          else div_estimate_qrnnd fuel xi x0 yt) ;;
  Zq <- set_limb Zq (i - t - 1) (to_uint (q + 1)) ;;
  '(Zq, T1, T2) <- do_while fuel
                     (fun '(_, T1, T2) => 0 <? mpi_cmp_mpi T1 T2)
                     (div_refine_body X Y i t) (Zq, T1, T2) ;;
  q <- rd (p Zq) (i - t - 1) ;;
  T1 <- mpi_mul_int (Dst T1) Y q ;;
  T1 <- mpi_shift_l T1 (biL * (i - t - 1)) ;;
  X <- mpi_sub_mpi DstA X T1 ;;
  if mpi_cmp_int X 0 <? 0 then
    T1 <- mpi_copy T1 Y ;;
    T1 <- mpi_shift_l T1 (biL * (i - t - 1)) ;;
    X <- mpi_add_mpi DstA X T1 ;;
    q <- rd (p Zq) (i - t - 1) ;;
    Zq <- set_limb Zq (i - t - 1) (to_uint (q - 1)) ;;
    Ok (X, Zq, T1, T2)
  else Ok (X, Zq, T1, T2).

(** [for( i = n; i > t ; i-- )], with [k = i - t]. *)
Fixpoint div_loop (fuel : nat) (Y : mpi_t) (t k : nat)
  (st : mpi_t * mpi_t * mpi_t * mpi_t)
  : res (mpi_t * mpi_t * mpi_t * mpi_t) :=
  match k with
  | O => Ok st
  | S k' =>
      st' <- div_step fuel Y (t + S k') t st ;;
      div_loop fuel Y t k' st'
  end.

(** [Q] and [R] are [None] for a NULL pointer, else the content of the
    destination, which is an object distinct from [A] and [B] (a destination
    [R] that is the object [A] behaves as a distinct one with the content of
    [A], as [A] is copied into [X] before [R] is written). *)
Definition mpi_div_mpi (fuel : nat) (Q R : option mpi_t) (A B : mpi_t)
  : res (option mpi_t * option mpi_t) :=
  if mpi_cmp_int B 0 =? 0 then Err ERR_MPI_DIVISION_BY_ZERO
  else if mpi_cmp_abs A B <? 0 then
    Q' <- match Q with
          | Some Q0 => Q1 <- mpi_lset Q0 0 ;; Ok (Some Q1)
          | None => Ok None
          end ;;
    R' <- match R with
          | Some R0 => R1 <- mpi_copy R0 A ;; Ok (Some R1)
          | None => Ok None
          end ;;
    Ok (Q', R')
  else
    X <- mpi_copy mpi_init A ;;
    Y <- mpi_copy mpi_init B ;;
    let X := set_sign X 1 in
    let Y := set_sign Y 1 in
    Zq <- mpi_grow mpi_init (n A + 2) ;;
    Zq <- mpi_lset Zq 0 ;;
    T1 <- mpi_grow mpi_init 2 ;;
    T2 <- mpi_grow mpi_init 3 ;;
    m <- mpi_msb Y ;;
    let k := (m mod biL)%nat in
    '(X, Y, k) <- (if (k <? biL - 1)%nat then
                     let k := (biL - 1 - k)%nat in
                     X <- mpi_shift_l X k ;;
                     Y <- mpi_shift_l Y k ;;
                     Ok (X, Y, k)
                   else Ok (X, Y, O)) ;;
    if (n X <? n Y)%nat || (n Y =? 0)%nat then Fault
    else
      let nn := (n X - 1)%nat in
      let t := (n Y - 1)%nat in
      Y <- mpi_shift_l Y (biL * (nn - t)) ;;
      '(X, Zq) <- while fuel
                    (fun '(X, _) => 0 <=? mpi_cmp_mpi X Y)
                    (fun '(X, Zq) =>
                       q <- rd (p Zq) (nn - t) ;;
                       Zq <- set_limb Zq (nn - t) (to_uint (q + 1)) ;;
                       X <- mpi_sub_mpi DstA X Y ;;
                       Ok (X, Zq))
                    (X, Zq) ;;
      Y <- mpi_shift_r Y (biL * (nn - t)) ;;
      '(X, Zq, T1, T2) <- div_loop fuel Y t (nn - t) (X, Zq, T1, T2) ;;
      Q' <- match Q with
            | Some Q0 =>
                Q1 <- mpi_copy Q0 Zq ;; Ok (Some (set_sign Q1 (s A * s B)))
            | None => Ok None
            end ;;
      R' <- match R with
            | Some R0 =>
                X <- mpi_shift_r X k ;;
                R1 <- mpi_copy R0 (set_sign X (s A)) ;;
                if mpi_cmp_int R1 0 =? 0 then Ok (Some (set_sign R1 1))
                else Ok (Some R1)
            | None => Ok None
            end ;;
      Ok (Q', R').

Definition mpi_div_int (fuel : nat) (Q R : option mpi_t) (A : mpi_t) (b : Z)
  : res (option mpi_t * option mpi_t) :=
  mpi_div_mpi fuel Q R A (mpi_of_sint b).

(** *** mpi_mod_mpi *)

Definition mpi_mod_mpi (fuel : nat) (R A B : mpi_t) : res mpi_t :=
  if mpi_cmp_int B 0 <? 0 then Err ERR_MPI_NEGATIVE_VALUE
  else
    '(_, R') <- mpi_div_mpi fuel None (Some R) A B ;;
    match R' with
    | None => Fault
    | Some R1 =>
        R2 <- while fuel (fun R => mpi_cmp_int R 0 <? 0)
                (fun R => mpi_add_mpi DstA R B) R1 ;;
        while fuel (fun R => 0 <=? mpi_cmp_mpi R B)
          (fun R => mpi_sub_mpi DstA R B) R2
    end.

(** *** mpi_mod_int *)

(** One turn of [for( i = A->n, y = 0; i > 0; i-- )] on the limb [x]. *)
Definition mod_int_step (b x y : Z) : Z :=
  let hb := Z.of_nat biH in
  let y := Z.lor (to_uint (Z.shiftl y hb)) (Z.shiftr x hb) in
  let z := y / b in
  let y := to_uint (y - to_uint (z * b)) in
  let x := to_uint (Z.shiftl x hb) in
  let y := Z.lor (to_uint (Z.shiftl y hb)) (Z.shiftr x hb) in
  let z := y / b in
  to_uint (y - to_uint (z * b)).

(** The limbs are visited from the top one down. *)
Fixpoint mod_int_loop (b : Z) (l : list Z) : Z :=
  match l with
  | [] => 0
  | x :: l' => mod_int_step b x (mod_int_loop b l')
  end.

Definition mpi_mod_int (A : mpi_t) (b : Z) : res Z :=
  if b =? 0 then Err ERR_MPI_DIVISION_BY_ZERO
  else if b <? 0 then Err ERR_MPI_NEGATIVE_VALUE
  else if b =? 1 then Ok 0
  else if b =? 2 then x <- rd (p A) 0 ;; Ok (Z.land x 1)
  else
    let y := mod_int_loop b (p A) in
    if (s A <? 0) && negb (y =? 0) then Ok (to_uint (b - y)) else Ok y.

(** *** mpi_montg_init, mpi_montmul, mpi_montred *)

(** [for( i = biL; i >= 8; i /= 2 ) x *= ( 2 - ( m0 * x ) );] *)
Fixpoint montg_loop (fuel i : nat) (m0 x : Z) : Z :=
  match fuel with
  | O => x
  | S fuel' =>
      if (8 <=? i)%nat
      then montg_loop fuel' (i / 2) m0
             (to_uint (x * to_uint (2 - to_uint (m0 * x))))
      else x
  end.

Definition mpi_montg_init (N : mpi_t) : res Z :=
  m0 <- rd (p N) 0 ;;
  let x := m0 in
  let x := to_uint (x + to_uint (Z.shiftl (Z.land (to_uint (m0 + 2)) 4) 1)) in
  let x := montg_loop biL biL m0 x in
  Ok (to_uint (to_uint (Z.lnot x) + 1)).

(** [for( i = 0; i < n; i++ )] of mpi_montmul; [d] is [T->p + i]. *)
Fixpoint montmul_loop (cnt i : nat) (Ap Bp Np : list Z) (m nn : nat)
  (mm : Z) (Tp : list Z) : res (list Z) :=
  match cnt with
  | O => Ok Tp
  | S cnt' =>
      u0 <- rd Ap i ;;
      d0 <- rd Tp i ;;
      b0 <- rd Bp 0 ;;
      let u1 := to_uint (to_uint (d0 + to_uint (u0 * b0)) * mm) in
      d1 <- mpi_mul_hlp m Bp (skipn i Tp) u0 ;;
      d2 <- mpi_mul_hlp nn Np d1 u1 ;;
      Tp <- wr (firstn i Tp ++ d2) i u0 ;;
      Tp <- wr Tp (i + 1 + (nn + 1)) 0 ;;
      montmul_loop cnt' (S i) Ap Bp Np m nn mm Tp
  end.

(** The scratch MPI [T] is written through its [const] pointer: it is passed
    and returned. *)
Definition mpi_montmul (A B N : mpi_t) (mm : Z) (T : mpi_t)
  : res (mpi_t * mpi_t) :=
  let nn := n N in
  let m := if (n B <? nn)%nat then n B else nn in
  Tp <- montmul_loop nn 0 (p A) (p B) (p N) m nn mm (repeat 0 (n T)) ;;
  if (length Tp <? nn + (nn + 1))%nat || (n A <? nn + 1)%nat then Fault
  else
    let A1 := {| s := s A;
                 p := firstn (nn + 1) (skipn nn Tp) ++ skipn (nn + 1) (p A) |} in
    if 0 <=? mpi_cmp_abs A1 N then
      l <- mpi_sub_hlp nn (p N) (p A1) ;;
      Ok ({| s := s A1; p := l |}, {| s := s T; p := Tp |})
    else
      l <- mpi_sub_hlp nn (p A1) Tp ;;
      Ok (A1, {| s := s T; p := l |}).

Definition mpi_montred (A N : mpi_t) (mm : Z) (T : mpi_t)
  : res (mpi_t * mpi_t) :=
  mpi_montmul A {| s := 1; p := [1] |} N mm T.

(** *** mpi_exp_mod *)

(** The array [W] of the source, zeroed by [__stosb]. *)
Definition W_zero : mpi_t := {| s := 0; p := [] |}.

Definition W_get (W : list mpi_t) (i : nat) : mpi_t := nth i W W_zero.

Fixpoint W_set (W : list mpi_t) (i : nat) (X : mpi_t) : list mpi_t :=
  match W, i with
  | [], _ => []
  | _ :: W', O => X :: W'
  | Y :: W', S i' => Y :: W_set W' i' X
  end.

(** [cnt] times [mpi_montmul( X, X, N, mm, &T )]. *)
Fixpoint mont_square (cnt : nat) (X N : mpi_t) (mm : Z) (T : mpi_t)
  : res (mpi_t * mpi_t) :=
  match cnt with
  | O => Ok (X, T)
  | S cnt' =>
      '(X, T) <- mpi_montmul X X N mm T ;;
      mont_square cnt' X N mm T
  end.

(** [for( i = j + 1; i < (one << wsize); i++ )] filling the window table,
    [cnt] entries from index [i] on. *)
Fixpoint exp_table (cnt i : nat) (W : list mpi_t) (N : mpi_t) (mm : Z)
  (T : mpi_t) : res (list mpi_t * mpi_t) :=
  match cnt with
  | O => Ok (W, T)
  | S cnt' =>
      Wi <- mpi_grow (W_get W i) (n N + 1) ;;
      Wi <- mpi_copy Wi (W_get W (i - 1)) ;;
      '(Wi, T) <- mpi_montmul Wi (W_get W 1) N mm T ;;
      exp_table cnt' (S i) (W_set W i Wi) N mm T
  end.

Record exp_state := mk_exp_state {
  eX : mpi_t; eT : mpi_t; e_nbits : nat; e_wbits : Z; e_state : Z
}.

(** The [while( 1 )] loop over the bits of [E], from bit [k - 1] down to
    bit 0 ([k = nblimbs * biL + bufsize]). *)
Fixpoint exp_loop (k : nat) (E N : mpi_t) (mm : Z) (W : list mpi_t)
  (wsize : nat) (st : exp_state) : res exp_state :=
  match k with
  | O => Ok st
  | S k' =>
      x <- rd (p E) (k' / biL) ;;
      let ei := Z.land (Z.shiftr x (Z.of_nat (k' mod biL))) 1 in
      if (ei =? 0) && (e_state st =? 0) then exp_loop k' E N mm W wsize st
      else if (ei =? 0) && (e_state st =? 1) then
        '(X, T) <- mpi_montmul (eX st) (eX st) N mm (eT st) ;;
        exp_loop k' E N mm W wsize
          (mk_exp_state X T (e_nbits st) (e_wbits st) (e_state st))
      else
        let nbits := S (e_nbits st) in
        let wbits := Z.lor (e_wbits st)
                       (Z.shiftl ei (Z.of_nat (wsize - nbits))) in
        if (nbits =? wsize)%nat then
          '(X, T) <- mont_square wsize (eX st) N mm (eT st) ;;
          '(X, T) <- mpi_montmul X (W_get W (Z.to_nat wbits)) N mm T ;;
          exp_loop k' E N mm W wsize (mk_exp_state X T 0 0 (2 - 1))
        else
          exp_loop k' E N mm W wsize
            (mk_exp_state (eX st) (eT st) nbits wbits 2)
  end.

(** [for( i = 0; i < nbits; i++ )] processing the remaining bits. *)
Fixpoint exp_tail (cnt : nat) (N : mpi_t) (mm : Z) (W : list mpi_t)
  (wsize : nat) (X T : mpi_t) (wbits : Z) : res (mpi_t * mpi_t) :=
  match cnt with
  | O => Ok (X, T)
  | S cnt' =>
      '(X, T) <- mpi_montmul X X N mm T ;;
      let wbits := Z.shiftl wbits 1 in
      if negb (Z.land wbits (Z.shiftl 1 (Z.of_nat wsize)) =? 0) then
        '(X, T) <- mpi_montmul X (W_get W 1) N mm T ;;
        exp_tail cnt' N mm W wsize X T wbits
      else exp_tail cnt' N mm W wsize X T wbits
  end.

(** [RR_in] is [None] for [_RR == NULL], else the content of [*_RR]; the
    result is [X] with the content of [*_RR] on return. *)
Definition mpi_exp_mod (fuel : nat) (X A E N : mpi_t) (RR_in : option mpi_t)
  : res (mpi_t * option mpi_t) :=
  if mpi_cmp_int N 0 <? 0 then Err ERR_MPI_BAD_INPUT_DATA
  else
    n0 <- rd (p N) 0 ;;
    if Z.land n0 1 =? 0 then Err ERR_MPI_BAD_INPUT_DATA
    else if mpi_cmp_int E 0 <? 0 then Err ERR_MPI_BAD_INPUT_DATA
    else
      mm <- mpi_montg_init N ;;
      let W := repeat W_zero (2 * 2 ^ POLARSSL_MPI_WINDOW_SIZE)%nat in
      i <- mpi_msb E ;;
      let wsize := if (671 <? i)%nat then 6%nat
                   else if (239 <? i)%nat then 5%nat
                   else if (79 <? i)%nat then 4%nat
                   else if (23 <? i)%nat then 3%nat else 1%nat in
      let wsize := if (POLARSSL_MPI_WINDOW_SIZE <? wsize)%nat
                   then POLARSSL_MPI_WINDOW_SIZE else wsize in
      let j := (n N + 1)%nat in
      X <- mpi_grow X j ;;
      W1 <- mpi_grow (W_get W 1) j ;;
      T <- mpi_grow mpi_init (j * 2) ;;
      let neg := s A =? -1 in
      A <- (if neg then Apos <- mpi_copy mpi_init A ;; Ok (set_sign Apos 1)
            else Ok A) ;;
      let fresh := match RR_in with
                   | None => true
                   | Some RR0 => match p RR0 with [] => true | _ => false end
                   end in
      RR <- (if fresh then
               RR <- mpi_lset mpi_init 1 ;;
               RR <- mpi_shift_l RR (n N * 2 * biL) ;;
               mpi_mod_mpi fuel RR RR N
             else match RR_in with
                  | Some RR0 => Ok RR0
                  | None => Fault
                  end) ;;
      let RR_out := match RR_in with
                    | None => None
                    | Some _ => Some RR
                    end in
      W1 <- (if 0 <=? mpi_cmp_mpi A N then mpi_mod_mpi fuel W1 A N
             else mpi_copy W1 A) ;;
      '(W1, T) <- mpi_montmul W1 RR N mm T ;;
      let W := W_set W 1 W1 in
      X <- mpi_copy X RR ;;
      '(X, T) <- mpi_montred X N mm T ;;
      '(W, T) <- (if (1 <? wsize)%nat then
                    let j := (2 ^ (wsize - 1))%nat in
                    Wj <- mpi_grow (W_get W j) (n N + 1) ;;
                    Wj <- mpi_copy Wj (W_get W 1) ;;
                    '(Wj, T) <- mont_square (wsize - 1) Wj N mm T ;;
                    exp_table (2 ^ wsize - (j + 1)) (j + 1) (W_set W j Wj)
                      N mm T
                  else Ok (W, T)) ;;
      st <- exp_loop (n E * biL) E N mm W wsize (mk_exp_state X T 0 0 0) ;;
      '(X, T) <- exp_tail (e_nbits st) N mm W wsize (eX st) (eT st)
                   (e_wbits st) ;;
      '(X, T) <- mpi_montred X N mm T ;;
      X <- (if neg then mpi_add_mpi DstB N (set_sign X (-1)) else Ok X) ;;
      Ok (X, RR_out).

(** *** mpi_gcd *)

Definition mpi_gcd (fuel : nat) (G A B : mpi_t) : res mpi_t :=
  TA <- mpi_copy mpi_init A ;;
  TB <- mpi_copy mpi_init B ;;
  let lz := mpi_lsb TA in
  let lzt := mpi_lsb TB in
  let lz := if (lzt <? lz)%nat then lzt else lz in
  TA <- mpi_shift_r TA lz ;;
  TB <- mpi_shift_r TB lz ;;
  let TA := set_sign TA 1 in
  let TB := set_sign TB 1 in
  '(TA, TB) <- while fuel
                 (fun '(TA, _) => negb (mpi_cmp_int TA 0 =? 0))
                 (fun '(TA, TB) =>
                    TA <- mpi_shift_r TA (mpi_lsb TA) ;;
                    TB <- mpi_shift_r TB (mpi_lsb TB) ;;
                    if 0 <=? mpi_cmp_mpi TA TB then
                      TA <- mpi_sub_abs DstA TA TB ;;
                      TA <- mpi_shift_r TA 1 ;;
                      Ok (TA, TB)
                    else
                      TB <- mpi_sub_abs DstA TB TA ;;
                      TB <- mpi_shift_r TB 1 ;;
                      Ok (TA, TB))
                 (TA, TB) ;;
  TB <- mpi_shift_l TB lz ;;
  mpi_copy G TB.

(** *** mpi_inv_mod *)




(** *** mpi_shrink

    The buffer is reallocated with [i] limbs and the first [i] limbs of the
    old one are copied; [X->n > nblimbs] on this path, so X has limbs. *)

Definition mpi_shrink (X : mpi_t) (nblimbs : nat) : res mpi_t :=
  if (n X <=? nblimbs)%nat then mpi_grow X nblimbs
  else
    let i := S (scan_top (p X) (n X - 1)) in
    let i := if (i <? nblimbs)%nat then nblimbs else i in
    Ok {| s := s X; p := firstn i (p X) |}.

(** *** mpi_swap *)

Definition mpi_swap (X Y : mpi_t) : mpi_t * mpi_t := (Y, X).

(** *** mpi_safe_cond_swap (X and Y distinct objects; [X == Y] returns at
    once) *)

(** [for( i = 0; i < X->n; i++ )] exchanging the limbs under the mask. *)
Fixpoint cond_swap_limbs (swap : Z) (xs ys : list Z)
  : res (list Z * list Z) :=
  match xs with
  | [] => Ok ([], ys)
  | x :: xs' =>
      match ys with
      | [] => Fault
      | y :: ys' =>
          '(xs1, ys1) <- cond_swap_limbs swap xs' ys' ;;
          Ok (to_uint (x * (1 - swap) + y * swap) :: xs1,
              to_uint (y * (1 - swap) + x * swap) :: ys1)
      end
  end.

Definition mpi_safe_cond_swap (X Y : mpi_t) (swap : Z)
  : res (mpi_t * mpi_t) :=
  let swap := b2z (negb (swap =? 0)) in
  X1 <- mpi_grow X (n Y) ;;
  Y1 <- mpi_grow Y (n X1) ;;
  let s0 := s X1 in
  let sx := s X1 * (1 - swap) + s Y1 * swap in
  let sy := s Y1 * (1 - swap) + s0 * swap in
  '(lx, ly) <- cond_swap_limbs swap (p X1) (p Y1) ;;
  Ok ({| s := sx; p := lx |}, {| s := sy; p := ly |}).

(** *** mpi_set_bit *)

Definition mpi_set_bit (X : mpi_t) (pos : nat) (val : Z) : res mpi_t :=
  let off := (pos / biL)%nat in
  let idx := (pos mod biL)%nat in
  if negb (val =? 0) && negb (val =? 1) then Err ERR_MPI_BAD_INPUT_DATA
  else if (n X * biL <=? pos)%nat && (val =? 0) then Ok X
  else
    X1 <- (if (n X * biL <=? pos)%nat then mpi_grow X (off + 1)
           else Ok X) ;;
    x <- rd (p X1) off ;;
    let x1 := Z.land x (to_uint (Z.lnot (to_uint (Z.shiftl 1 (Z.of_nat idx))))) in
    let x2 := Z.lor x1 (to_uint (Z.shiftl val (Z.of_nat idx))) in
    l <- wr (p X1) off x2 ;;
    Ok {| s := s X1; p := l |}.

(** *** mpi_get_digit ([c] is the character code, [radix] an [int] that is
    compared as a [t_uint]) *)

Definition mpi_get_digit (radix c : Z) : res Z :=
  let d := 255 in
  let d := if (48 <=? c) && (c <=? 57) then to_uint (c - 48) else d in
  let d := if (65 <=? c) && (c <=? 70) then to_uint (c - 55) else d in
  let d := if (97 <=? c) && (c <=? 102) then to_uint (c - 87) else d in
  if to_uint radix <=? d then Err ERR_MPI_INVALID_CHARACTER else Ok d.

(** ** The integer denoted by an MPI *)

Fixpoint limbs_val (l : list Z) : Z :=
  match l with
  | [] => 0
  | x :: l' => x + Radix * limbs_val l'
  end.

(** The magnitude and the value of an MPI. *)
Definition mag (X : mpi_t) : Z := limbs_val (p X).
Definition mpi_val (X : mpi_t) : Z := s X * mag X.

Definition limbs_ok (l : list Z) : Prop := Forall (fun x => 0 <= x < Radix) l.

(** A well-formed MPI: limbs in range, sign -1 or +1, at most
    POLARSSL_MPI_MAX_LIMBS limbs. *)
Definition wf (X : mpi_t) : Prop :=
  limbs_ok (p X) /\ (s X = 1 \/ s X = -1) /\ (n X <= POLARSSL_MPI_MAX_LIMBS)%nat.

(** An MPI with limbs in range, sign -1 or +1 and at most [K] limbs. *)
Definition wfk (K : nat) (X : mpi_t) : Prop :=
  limbs_ok (p X) /\ (s X = 1 \/ s X = -1) /\ (n X <= K)%nat.

(** The content of the destination of [f(X, A, B)] before the call. *)
Definition dst_val (d : dst) (A B : mpi_t) : mpi_t :=
  match d with
  | DstA => A
  | DstB => B
  | Dst X => X
  end.

(** The destination fits into [K] limbs; an operation that copies [A]
    into it keeps its size when [A] has limbs. *)
Definition dst_fits (K : nat) (d : dst) : Prop :=
  match d with
  | Dst X => (n X <= K)%nat
  | _ => True
  end.

Definition dst_keeps (d : dst) (A : mpi_t) : Prop :=
  match d with
  | Dst _ => p A <> []
  | _ => True
  end.

(** A computation with a loop bound that gives [a] for every bound that is
    large enough. *)
Definition runs_to {A : Type} (f : nat -> res A) (a : A) : Prop :=
  exists f0, forall fuel, (f0 <= fuel)%nat -> f fuel = Ok a.





(** The state [(TA, TB)] of the loop of mpi_gcd: both positive in sign,
    [TB] not zero, and [g] their greatest common divisor, which is odd while
    [TA] is not zero. *)
Definition gcd_inv (K : nat) (g : Z) (st : mpi_t * mpi_t) : Prop :=
  wfk K (fst st) /\ wfk K (snd st) /\ s (fst st) = 1 /\ s (snd st) = 1
  /\ 0 < mag (snd st)
  /\ Z.gcd (mag (fst st)) (mag (snd st)) = g
  /\ (mag (fst st) <> 0 -> Z.odd g = true).

(** The number of significant limbs of a buffer. *)
Definition eff (l : list Z) : nat := scan_hi l (length l).

(** The big-endian value of a byte buffer. *)
Definition bytes_val (buf : list byte) : Z :=
  fold_left (fun acc b => acc * 256 + byte_val b) buf 0.

End Embedding.

(** ** Concrete platforms: 32-bit limbs with a double-limb type, and 64-bit
    limbs without one; the limits are those of the PolarSSL defaults. *)

Definition cfg32 : config :=
  {| width := W32; POLARSSL_MPI_MAX_LIMBS := 10000;
     POLARSSL_MPI_WINDOW_SIZE := 6; POLARSSL_HAVE_UDBL := true |}.

Definition cfg64 : config :=
  {| width := W64; POLARSSL_MPI_MAX_LIMBS := 10000;
     POLARSSL_MPI_WINDOW_SIZE := 6; POLARSSL_HAVE_UDBL := false |}.

Definition cfg32_no_udbl : config :=
  {| width := W32; POLARSSL_MPI_MAX_LIMBS := 10000;
     POLARSSL_MPI_WINDOW_SIZE := 6; POLARSSL_HAVE_UDBL := false |}.

Definition cfg64_udbl : config :=
  {| width := W64; POLARSSL_MPI_MAX_LIMBS := 10000;
     POLARSSL_MPI_WINDOW_SIZE := 6; POLARSSL_HAVE_UDBL := true |}.

(** An MPI given by sign and limbs. *)
Definition mpi_of (sg : Z) (l : list Z) : mpi_t := {| s := sg; p := l |}.

(** * Properties *)

(** ** Limbs and values *)

Section Basics.
Context {cfg : config}.

Lemma ciL_pos : (0 < ciL)%nat.
Proof. unfold ciL; destruct width; lia. Qed.

Lemma biL_eq : biL = (ciL * 8)%nat.
Proof. reflexivity. Qed.

Lemma biL_pos : (0 < biL)%nat.
Proof. unfold biL; pose proof ciL_pos; lia. Qed.

Lemma biL_biH : biL = (2 * biH)%nat.
Proof. unfold biL, biH; lia. Qed.

Lemma Radix_pos : 0 < Radix.
Proof. unfold Radix; apply Z.pow_pos_nonneg; lia. Qed.

Lemma Radix_gt_1 : 1 < Radix.
Proof.
  unfold Radix. pose proof biL_pos.
  apply Z.pow_gt_1; lia.
Qed.

Lemma Radix_ge_256 : 256 <= Radix.
Proof.
  unfold Radix. change 256 with (2 ^ 8).
  apply Z.pow_le_mono_r; [lia|].
  unfold biL; pose proof ciL_pos; lia.
Qed.

Lemma to_uint_small x : 0 <= x < Radix -> to_uint x = x.
Proof. intros; unfold to_uint; apply Z.mod_small; lia. Qed.

Lemma to_uint_range x : 0 <= to_uint x < Radix.
Proof. unfold to_uint; apply Z.mod_pos_bound, Radix_pos. Qed.

Lemma limbs_ok_nil : limbs_ok [].
Proof. constructor. Qed.

Lemma limbs_ok_cons x l :
  limbs_ok (x :: l) <-> 0 <= x < Radix /\ limbs_ok l.
Proof.
  unfold limbs_ok; split; intros H.
  - inversion H; subst; auto.
  - constructor; tauto.
Qed.

Lemma limbs_ok_app l1 l2 :
  limbs_ok (l1 ++ l2) <-> limbs_ok l1 /\ limbs_ok l2.
Proof. unfold limbs_ok; apply Forall_app. Qed.

Lemma limbs_ok_repeat0 k : limbs_ok (repeat 0 k).
Proof.
  induction k; simpl; [constructor|].
  apply limbs_ok_cons; split; auto. pose proof Radix_pos; lia.
Qed.

Lemma limbs_val_app l1 l2 :
  limbs_val (l1 ++ l2)
  = limbs_val l1 + Radix ^ Z.of_nat (length l1) * limbs_val l2.
Proof.
  induction l1 as [|x l1 IH]; simpl length; simpl app; simpl limbs_val.
  - change (Z.of_nat 0) with 0. rewrite Z.pow_0_r. lia.
  - rewrite IH, Nat2Z.inj_succ, Z.pow_succ_r by lia. ring.
Qed.

Lemma limbs_val_repeat0 k : limbs_val (repeat 0 k) = 0.
Proof. induction k; simpl; [reflexivity | rewrite IHk; lia]. Qed.

Lemma limbs_val_app_repeat0 l k : limbs_val (l ++ repeat 0 k) = limbs_val l.
Proof. rewrite limbs_val_app, limbs_val_repeat0; lia. Qed.

Lemma limbs_val_bound l :
  limbs_ok l -> 0 <= limbs_val l < Radix ^ Z.of_nat (length l).
Proof.
  induction l as [|x l IH]; intros H; simpl length; simpl limbs_val.
  - change (Z.of_nat 0) with 0. rewrite Z.pow_0_r. lia.
  - apply limbs_ok_cons in H as [Hx Hl]. specialize (IH Hl).
    rewrite Nat2Z.inj_succ, Z.pow_succ_r by lia.
    pose proof Radix_pos. nia.
Qed.

(** ** mpi_grow *)

Lemma mpi_grow_ok X k :
  (k <= POLARSSL_MPI_MAX_LIMBS)%nat ->
  mpi_grow X k = Ok {| s := s X; p := p X ++ repeat 0 (k - n X) |}.
Proof.
  intros Hk. unfold mpi_grow.
  destruct (Nat.ltb_spec POLARSSL_MPI_MAX_LIMBS k); [lia|].
  destruct (Nat.ltb_spec (n X) k); [reflexivity|].
  replace (k - n X)%nat with 0%nat by lia. simpl. rewrite app_nil_r.
  destruct X; reflexivity.
Qed.

(** ** mpi_safe_cond_assign *)

Lemma cond_assign_limbs_keep xs ys :
  limbs_ok xs -> cond_assign_limbs 0 xs ys = xs.
Proof.
  revert ys; induction xs as [|x xs IH]; intros ys H; simpl; [reflexivity|].
  apply limbs_ok_cons in H as [Hx Hxs].
  destruct ys as [|y ys]; rewrite IH by assumption; f_equal.
  - transitivity (to_uint x); [f_equal; ring | now apply to_uint_small].
  - transitivity (to_uint x); [f_equal; ring | now apply to_uint_small].
Qed.

Lemma cond_assign_limbs_take xs ys :
  limbs_ok ys -> (length ys <= length xs)%nat ->
  cond_assign_limbs 1 xs ys = ys ++ repeat 0 (length xs - length ys).
Proof.
  revert ys; induction xs as [|x xs IH]; intros ys H Hlen.
  - destruct ys; simpl in *; [reflexivity | lia].
  - destruct ys as [|y ys]; simpl.
    + rewrite (IH []) by (simpl; (constructor || lia)). simpl.
      rewrite Nat.sub_0_r. f_equal.
      transitivity (to_uint 0); [f_equal; ring|].
      apply to_uint_small. pose proof Radix_pos; lia.
    + apply limbs_ok_cons in H as [Hy Hys]. simpl in Hlen.
      rewrite IH by (assumption || lia). f_equal.
      transitivity (to_uint y); [f_equal; ring | now apply to_uint_small].
Qed.

End Basics.

Section Claims_simple.
Context {cfg : config}.

(** C10: for every MPI X, also one with no limb allocated, and every
    position pos at or beyond X.n * biL, mpi_get_bit returns 0; it is a
    function of X alone, nothing of X is written. *)
Theorem mpi_get_bit_beyond_limbs (X : mpi_t) (pos : nat) :
  (n X * biL <= pos)%nat -> mpi_get_bit X pos = Ok 0.
Proof.
  intros H. unfold mpi_get_bit.
  destruct (Nat.leb_spec (n X * biL) pos); [reflexivity | lia].
Qed.

(** C8: mpi_safe_cond_assign with flag 0 leaves the sign and every limb of X
    as they were (the buffer of X is only extended with zero limbs up to the
    size of Y, and X is returned as it was when it is already that large);
    with a nonzero flag, in particular 1, X takes the sign and the limbs of
    Y, hence its value. *)
Theorem mpi_safe_cond_assign_spec (X Y : mpi_t) :
  limbs_ok (p X) -> limbs_ok (p Y) ->
  (n Y <= POLARSSL_MPI_MAX_LIMBS)%nat ->
  (exists X0,
      mpi_safe_cond_assign X Y 0 = Ok X0
      /\ s X0 = s X
      /\ p X0 = p X ++ repeat 0 (n Y - n X)
      /\ ((n Y <= n X)%nat -> X0 = X)
      /\ mpi_val X0 = mpi_val X)
  /\ (forall assign, assign <> 0 ->
      exists X1,
        mpi_safe_cond_assign X Y assign = Ok X1
        /\ s X1 = s Y
        /\ p X1 = p Y ++ repeat 0 (n X - n Y)
        /\ mpi_val X1 = mpi_val Y).
Proof.
  intros HX HY Hcap. split.
  - unfold mpi_safe_cond_assign.
    rewrite mpi_grow_ok by assumption. cbn [bind s p].
    rewrite Z.eqb_refl. cbn [negb b2z].
    rewrite cond_assign_limbs_keep
      by (apply limbs_ok_app; split; [assumption | apply limbs_ok_repeat0]).
    eexists; split; [reflexivity|]. cbn [s p].
    split; [ring|]. split; [reflexivity|]. split.
    + intros Hle. replace (n Y - n X)%nat with 0%nat by lia.
      simpl. rewrite app_nil_r. destruct X; simpl. f_equal. ring.
    + unfold mpi_val, mag; cbn [s p]. rewrite limbs_val_app_repeat0. ring.
  - intros a Ha. unfold mpi_safe_cond_assign.
    rewrite mpi_grow_ok by assumption. cbn [bind s p].
    destruct (Z.eqb_spec a 0) as [|_]; [contradiction|]. cbn [negb b2z].
    rewrite cond_assign_limbs_take; [|assumption|].
    2:{ rewrite length_app, repeat_length. unfold n. lia. }
    eexists; split; [reflexivity|]. cbn [s p].
    split; [ring|]. split.
    + f_equal. f_equal. rewrite length_app, repeat_length. unfold n. lia.
    + unfold mpi_val, mag; cbn [s p]. rewrite limbs_val_app_repeat0. ring.
Qed.

End Claims_simple.

(** The two theorems at concrete MPIs of a 32-bit platform. *)
Lemma mpi_get_bit_beyond_limbs_witness :
  @mpi_get_bit cfg32 mpi_init 5 = Ok 0.
Proof. apply (@mpi_get_bit_beyond_limbs cfg32 mpi_init 5). simpl. lia. Defined.

Lemma mpi_safe_cond_assign_spec_witness :
  (exists X0,
      @mpi_safe_cond_assign cfg32 (mpi_of (-1) [7; 9]) (mpi_of 1 [5]) 0 = Ok X0
      /\ s X0 = -1
      /\ p X0 = [7; 9] ++ repeat 0 (1 - 2)
      /\ ((1 <= 2)%nat -> X0 = mpi_of (-1) [7; 9])
      /\ @mpi_val cfg32 X0 = @mpi_val cfg32 (mpi_of (-1) [7; 9]))
  /\ (forall assign, assign <> 0 ->
      exists X1,
        @mpi_safe_cond_assign cfg32 (mpi_of (-1) [7; 9]) (mpi_of 1 [5]) assign
        = Ok X1
        /\ s X1 = 1
        /\ p X1 = [5] ++ repeat 0 (2 - 1)
        /\ @mpi_val cfg32 X1 = @mpi_val cfg32 (mpi_of 1 [5])).
Proof.
  apply (@mpi_safe_cond_assign_spec cfg32 (mpi_of (-1) [7; 9]) (mpi_of 1 [5])).
  - repeat constructor; vm_compute; congruence.
  - repeat constructor; vm_compute; congruence.
  - vm_compute. lia.
Defined.

(** ** Runs of the code on concrete inputs *)

(** C1, where the code departs from it: for the negative base -2 and the
    even exponent 2 modulo 7, mpi_exp_mod returns 3 = 7 - 4, while
    (-2)^2 mod 7 = 4, and for the exponent 0 it returns 6, while
    (-2)^0 mod 7 = 1; for the base -7 and the exponent 1 it returns 7, which
    is not below the modulus.  The final correction [N + X] with [sign = -1]
    is applied whatever the parity of E and the value of X. *)
Theorem mpi_exp_mod_negative_base_runs :
  @mpi_exp_mod cfg32 100 mpi_init (mpi_of (-1) [2]) (mpi_of 1 [2])
    (mpi_of 1 [7]) None = Ok (mpi_of 1 [3; 0], None)
  /\ @mpi_exp_mod cfg64 100 mpi_init (mpi_of (-1) [2]) (mpi_of 1 [2])
       (mpi_of 1 [7]) None = Ok (mpi_of 1 [3; 0], None)
  /\ (-2) ^ 2 mod 7 = 4
  /\ @mpi_exp_mod cfg32 100 mpi_init (mpi_of (-1) [2]) (mpi_of 1 [0])
       (mpi_of 1 [7]) None = Ok (mpi_of 1 [6; 0], None)
  /\ (-2) ^ 0 mod 7 = 1
  /\ @mpi_exp_mod cfg32 100 mpi_init (mpi_of (-1) [7]) (mpi_of 1 [1])
       (mpi_of 1 [7]) None = Ok (mpi_of 1 [7; 0], None)
  /\ @mpi_exp_mod cfg32 100 mpi_init (mpi_of 1 [2]) (mpi_of 1 [2])
       (mpi_of 1 [7]) None = Ok (mpi_of 1 [4; 0], None).
Proof. repeat split; vm_compute; reflexivity. Qed.

(** C2, where the code departs from it: without a double-limb type
    (POLARSSL_HAVE_UDBL undefined) the quotient digit is estimated by half
    limbs; the divisor is normalised to have bit [biL - 2] as its top bit, so
    the half-limb quotient [q1] can exceed a half limb and [q1 << biH] loses
    it.  With 64-bit limbs, B = 2^62 + 2^32 - 1 and A = (B - 1) * 2^64 the
    code returns the quotient 17179869164 and a remainder of two limbs,
    larger than B; with the double-limb division the same input gives
    A = Q * B + R with R < B. *)
Theorem mpi_div_mpi_half_limb_estimate_run :
  let B := 2 ^ 62 + 2 ^ 32 - 1 in
  @mpi_div_mpi cfg64 100 (Some mpi_init) (Some mpi_init)
    (mpi_of 1 [0; B - 1]) (mpi_of 1 [B])
  = Ok (Some (mpi_of 1 [17179869164]),
        Some (mpi_of 1 [103079215084; 4611686018427387903]))
  /\ B < @mag cfg64 (mpi_of 1 [103079215084; 4611686018427387903])
  /\ @mpi_div_mpi cfg64_udbl 100 (Some mpi_init) (Some mpi_init)
       (mpi_of 1 [0; B - 1]) (mpi_of 1 [B])
     = Ok (Some (mpi_of 1 [18446744073709551612]),
           Some (mpi_of 1 [17179869180]))
  /\ (B - 1) * 2 ^ 64 = 18446744073709551612 * B + 17179869180
  /\ @mpi_div_mpi cfg32_no_udbl 100 (Some mpi_init) (Some mpi_init)
       (mpi_of 1 [0; 2 ^ 30 + 2 ^ 16 - 2]) (mpi_of 1 [2 ^ 30 + 2 ^ 16 - 1])
     = Ok (Some (mpi_of 1 [262124]),
           Some (mpi_of 1 [1572844; 1073741823])).
Proof. repeat split; vm_compute; reflexivity. Qed.

(** C5, where the code departs from it: the running residue [y] is shifted
    left by half a limb before each division, which overflows the limb as
    soon as [b] exceeds [2^biH].  With 32-bit limbs, A = 2^48 and b = 65537
    give 0 where A mod b = 65536; with 64-bit limbs, A = 2^96 and
    b = 2^32 + 1 give 0 where A mod b = 2^32.  The fast path for b = 2 reads
    the limb 0 of A, which an MPI without limbs does not have.  For b = 2
    and a negative odd A the fast path agrees with the general rule
    (b - y = 1). *)
Theorem mpi_mod_int_runs :
  @mpi_mod_int cfg32 (mpi_of 1 [0; 65536]) 65537 = Ok 0
  /\ @mpi_val cfg32 (mpi_of 1 [0; 65536]) mod 65537 = 65536
  /\ @mpi_mod_int cfg64 (mpi_of 1 [0; 2 ^ 32]) (2 ^ 32 + 1) = Ok 0
  /\ @mpi_val cfg64 (mpi_of 1 [0; 2 ^ 32]) mod (2 ^ 32 + 1) = 2 ^ 32
  /\ @mpi_mod_int cfg32 mpi_init 2 = Fault
  /\ @mpi_mod_int cfg32 (mpi_of (-1) [3]) 2 = Ok 1
  /\ @mpi_mod_int cfg32 (mpi_of (-1) [7]) 5 = Ok 3.
Proof. repeat split; vm_compute; reflexivity. Qed.

(** C6, where the code departs from it: mpi_gcd(G, 6, 0) sets G to 0, while
    gcd(6, 0) = 6: with B = 0 the loop runs A down to 0 and the result is
    read from B.  The two examples of the claim hold: gcd(693, 609) = 21 and
    gcd(1764, 868) = 28, and gcd(0, 6) = 6. *)
Theorem mpi_gcd_runs :
  @mpi_gcd cfg32 100 mpi_init (mpi_of 1 [6]) (mpi_of 1 [0])
  = Ok (mpi_of 1 [0])
  /\ @mpi_gcd cfg64 100 mpi_init (mpi_of 1 [6]) (mpi_of 1 [0])
     = Ok (mpi_of 1 [0])
  /\ Z.gcd 6 0 = 6
  /\ @mpi_gcd cfg32 100 mpi_init (mpi_of 1 [0]) (mpi_of 1 [6])
     = Ok (mpi_of 1 [6])
  /\ @mpi_gcd cfg32 100 mpi_init (mpi_of 1 [693]) (mpi_of 1 [609])
     = Ok (mpi_of 1 [21])
  /\ @mpi_gcd cfg32 100 mpi_init (mpi_of 1 [1764]) (mpi_of 1 [868])
     = Ok (mpi_of 1 [28]).
Proof. repeat split; vm_compute; reflexivity. Qed.

(** C7, where the code departs from it: (-5) + 5 and (-5) - (-5) give a zero
    with sign -1 (the sign of A is kept when the magnitudes are equal), and
    so does a right shift of -1 by one bit or by a whole limb; only a shift
    by more than the size of X goes through mpi_lset and gives sign +1. *)
Theorem mpi_negative_zero_runs :
  @mpi_add_mpi cfg32 (Dst mpi_init) (mpi_of (-1) [5]) (mpi_of 1 [5])
  = Ok (mpi_of (-1) [0])
  /\ @mpi_add_mpi cfg32 (Dst mpi_init) (mpi_of 1 [5]) (mpi_of (-1) [5])
     = Ok (mpi_of 1 [0])
  /\ @mpi_sub_mpi cfg32 (Dst mpi_init) (mpi_of (-1) [5]) (mpi_of (-1) [5])
     = Ok (mpi_of (-1) [0])
  /\ @mpi_shift_r cfg32 (mpi_of (-1) [1]) 1 = Ok (mpi_of (-1) [0])
  /\ @mpi_shift_r cfg32 (mpi_of (-1) [1]) 32 = Ok (mpi_of (-1) [0])
  /\ @mpi_shift_r cfg32 (mpi_of (-1) [1]) 33 = Ok (mpi_of 1 [0])
  /\ @mpi_shift_r cfg64 (mpi_of (-1) [1]) 1 = Ok (mpi_of (-1) [0]).
Proof. repeat split; vm_compute; reflexivity. Qed.

(** ** Limb buffers: reads, writes and the value they denote *)

Section Limbs.
Context {cfg : config}.

Lemma Radix_pow_pos k : 0 < Radix ^ Z.of_nat k.
Proof. apply Z.pow_pos_nonneg; [apply Radix_pos | lia]. Qed.

Lemma Radix_pow_succ k : Radix ^ Z.of_nat (S k) = Radix * Radix ^ Z.of_nat k.
Proof. rewrite Nat2Z.inj_succ, Z.pow_succ_r by lia. reflexivity. Qed.

Lemma Radix_pow_add a b :
  Radix ^ Z.of_nat (a + b) = Radix ^ Z.of_nat a * Radix ^ Z.of_nat b.
Proof. rewrite Nat2Z.inj_add, Z.pow_add_r by lia. reflexivity. Qed.

Lemma Radix_pow_le a b :
  (a <= b)%nat -> Radix ^ Z.of_nat a <= Radix ^ Z.of_nat b.
Proof. intros; apply Z.pow_le_mono_r; [apply Radix_pos | lia]. Qed.

Lemma Radix_pow_2exp k : Radix ^ Z.of_nat k = 2 ^ Z.of_nat (biL * k).
Proof.
  unfold Radix. rewrite <- Z.pow_mul_r by lia. f_equal. lia.
Qed.

Lemma rd_ok l i : (i < length l)%nat -> rd l i = Ok (nth i l 0).
Proof.
  intros H. unfold rd.
  destruct (nth_error l i) eqn:E.
  - f_equal. symmetry. now apply nth_error_nth.
  - apply nth_error_None in E. lia.
Qed.

Lemma wr_ok l i v : (i < length l)%nat -> wr l i v = Ok (upd l i v).
Proof.
  intros H. unfold wr. destruct (Nat.ltb_spec i (length l)); [reflexivity | lia].
Qed.

Lemma upd_length l i v : length (upd l i v) = length l.
Proof.
  revert i; induction l as [|x l IH]; intros [|i]; simpl; auto.
Qed.

Lemma nth_upd_same l i v : (i < length l)%nat -> nth i (upd l i v) 0 = v.
Proof.
  revert i; induction l as [|x l IH]; intros [|i] H; simpl in *; try lia; auto.
  apply IH; lia.
Qed.

Lemma nth_upd_other l i j v : i <> j -> nth j (upd l i v) 0 = nth j l 0.
Proof.
  revert i j; induction l as [|x l IH]; intros [|i] [|j] H; simpl; auto;
    try congruence.
Qed.

Lemma limbs_ok_upd l i v :
  limbs_ok l -> 0 <= v < Radix -> limbs_ok (upd l i v).
Proof.
  revert i; induction l as [|x l IH]; intros [|i] Hl Hv; simpl; auto;
    apply limbs_ok_cons in Hl as [Hx Hl]; apply limbs_ok_cons; auto.
Qed.

Lemma limbs_val_upd l i v :
  (i < length l)%nat ->
  limbs_val (upd l i v) = limbs_val l + (v - nth i l 0) * Radix ^ Z.of_nat i.
Proof.
  revert i; induction l as [|x l IH]; intros [|i] H; simpl length in *;
    try lia.
  - cbn [upd nth limbs_val]. change (Z.of_nat 0) with 0.
    rewrite Z.pow_0_r. ring.
  - cbn [upd nth limbs_val]. rewrite IH by lia. rewrite Radix_pow_succ. ring.
Qed.

Lemma limbs_ok_nth l i : limbs_ok l -> 0 <= nth i l 0 < Radix.
Proof.
  revert i; induction l as [|x l IH]; intros i H.
  - destruct i; simpl; pose proof Radix_pos; lia.
  - apply limbs_ok_cons in H as [Hx Hl]. destruct i; simpl; auto.
Qed.

Lemma limbs_ok_firstn k l : limbs_ok l -> limbs_ok (firstn k l).
Proof.
  intros H. rewrite <- (firstn_skipn k l) in H.
  now apply limbs_ok_app in H.
Qed.

Lemma limbs_ok_skipn k l : limbs_ok l -> limbs_ok (skipn k l).
Proof.
  intros H. rewrite <- (firstn_skipn k l) in H.
  now apply limbs_ok_app in H.
Qed.

Lemma limbs_val_nonneg l : limbs_ok l -> 0 <= limbs_val l.
Proof. intros H; apply limbs_val_bound in H; lia. Qed.

Lemma limbs_val_split k l :
  (k <= length l)%nat ->
  limbs_val l
  = limbs_val (firstn k l) + Radix ^ Z.of_nat k * limbs_val (skipn k l).
Proof.
  intros H. rewrite <- (firstn_skipn k l) at 1.
  rewrite limbs_val_app, length_firstn. do 3 f_equal. lia.
Qed.

Lemma limbs_val_firstn_mod k l :
  limbs_ok l -> (k <= length l)%nat ->
  limbs_val (firstn k l) = limbs_val l mod Radix ^ Z.of_nat k.
Proof.
  intros Hl Hk. rewrite (limbs_val_split k l Hk).
  pose proof (limbs_val_bound (firstn k l) (limbs_ok_firstn k l Hl)) as Hb.
  rewrite length_firstn in Hb. replace (Nat.min k (length l)) with k in Hb by lia.
  rewrite Z.mul_comm, Z_mod_plus_full. symmetry. apply Z.mod_small. lia.
Qed.

Lemma limbs_val_skipn_div k l :
  limbs_ok l -> (k <= length l)%nat ->
  limbs_val (skipn k l) = limbs_val l / Radix ^ Z.of_nat k.
Proof.
  intros Hl Hk. rewrite (limbs_val_split k l Hk).
  pose proof (limbs_val_bound (firstn k l) (limbs_ok_firstn k l Hl)) as Hb.
  rewrite length_firstn in Hb. replace (Nat.min k (length l)) with k in Hb by lia.
  pose proof (Radix_pow_pos k).
  rewrite Z.mul_comm, Z.div_add by lia.
  rewrite Z.div_small by lia. lia.
Qed.

Lemma limbs_val_cons x l : limbs_val (x :: l) = x + Radix * limbs_val l.
Proof. reflexivity. Qed.

Lemma nth_limb l i :
  limbs_ok l -> nth i l 0 = (limbs_val l / Radix ^ Z.of_nat i) mod Radix.
Proof.
  intros Hl. destruct (Nat.lt_ge_cases i (length l)) as [Hi|Hi].
  - rewrite <- limbs_val_skipn_div by (assumption || lia).
    pose proof (limbs_ok_skipn i l Hl) as Hs.
    destruct (skipn i l) as [|x r] eqn:E.
    + apply (f_equal (@length Z)) in E. rewrite length_skipn in E.
      simpl in E. lia.
    + rewrite <- (firstn_skipn i l) at 1.
      rewrite app_nth2 by (rewrite length_firstn; lia).
      rewrite length_firstn. replace (i - Nat.min i (length l))%nat with 0%nat by lia.
      rewrite E. simpl nth. rewrite limbs_val_cons.
      apply limbs_ok_cons in Hs as [Hx Hr].
      replace (x + Radix * limbs_val r) with (x + limbs_val r * Radix) by ring.
      rewrite Z_mod_plus_full.
      symmetry; apply Z.mod_small; lia.
  - rewrite nth_overflow by lia.
    pose proof (limbs_val_bound l Hl).
    pose proof (Radix_pow_le (length l) i Hi).
    rewrite Z.div_small by lia. reflexivity.
Qed.

(** The scans for the highest nonzero limb. *)

Lemma scan_hi_le l i : (scan_hi l i <= i)%nat.
Proof.
  induction i; simpl; [lia|]. destruct (nth i l 0 =? 0); lia.
Qed.

Lemma scan_hi_zero_above l i j :
  (scan_hi l i <= j < i)%nat -> nth j l 0 = 0.
Proof.
  induction i; simpl; intros H; [lia|].
  destruct (Z.eqb_spec (nth i l 0) 0) as [E|E].
  - destruct (Nat.eq_dec j i); [subst; auto | apply IHi; lia].
  - lia.
Qed.

Lemma scan_hi_nonzero l i k : scan_hi l i = S k -> nth k l 0 <> 0.
Proof.
  induction i; simpl; intros H; [discriminate|].
  destruct (Z.eqb_spec (nth i l 0) 0) as [E|E]; auto.
  injection H as <-. assumption.
Qed.

Lemma limbs_val_all_zero l :
  (forall j, (j < length l)%nat -> nth j l 0 = 0) -> limbs_val l = 0.
Proof.
  induction l as [|x l IH]; intros H; simpl; [reflexivity|].
  rewrite IH.
  - specialize (H 0%nat). simpl in H. rewrite H by lia. lia.
  - intros j Hj. apply (H (S j)). simpl; lia.
Qed.

Lemma limbs_val_zero_all l :
  limbs_ok l -> limbs_val l = 0 -> forall j, nth j l 0 = 0.
Proof.
  intros Hl Hv j. rewrite nth_limb by assumption. rewrite Hv.
  rewrite Z.div_0_l by (pose proof (Radix_pow_pos j); lia).
  apply Z.mod_0_l. pose proof Radix_pos; lia.
Qed.

Lemma eff_le l : (eff l <= length l)%nat.
Proof. apply scan_hi_le. Qed.

Lemma eff_firstn l : limbs_val (firstn (eff l) l) = limbs_val l.
Proof.
  rewrite (limbs_val_split (eff l) l (eff_le l)).
  rewrite (limbs_val_all_zero (skipn (eff l) l)); [lia|].
  intros j Hj. rewrite nth_skipn. rewrite length_skipn in Hj.
  apply (scan_hi_zero_above l (length l)). fold (eff l). lia.
Qed.

Lemma eff_bound l : limbs_ok l -> 0 <= limbs_val l < Radix ^ Z.of_nat (eff l).
Proof.
  intros Hl. rewrite <- eff_firstn.
  pose proof (limbs_val_bound _ (limbs_ok_firstn (eff l) l Hl)) as H.
  rewrite length_firstn in H.
  replace (Nat.min (eff l) (length l)) with (eff l) in H; [assumption|].
  pose proof (eff_le l); lia.
Qed.

Lemma eff_lower l k :
  limbs_ok l -> eff l = S k -> Radix ^ Z.of_nat k <= limbs_val l.
Proof.
  intros Hl E. pose proof (scan_hi_nonzero _ _ _ E) as Hnz.
  pose proof (eff_le l) as Hle. rewrite E in Hle.
  rewrite (limbs_val_split k l) by lia.
  pose proof (limbs_val_nonneg _ (limbs_ok_firstn k l Hl)).
  pose proof (limbs_ok_skipn k l Hl) as Hs.
  destruct (skipn k l) as [|x r] eqn:Es.
  - apply (f_equal (@length Z)) in Es. rewrite length_skipn in Es.
    simpl in Es. lia.
  - assert (x = nth k l 0) as ->.
    { rewrite <- (Nat.add_0_r k) at 1. rewrite <- nth_skipn, Es. reflexivity. }
    apply limbs_ok_cons in Hs as [Hx Hr].
    pose proof (limbs_val_nonneg _ Hr). rewrite limbs_val_cons.
    pose proof (Radix_pow_pos k). pose proof Radix_pos. nia.
Qed.

Lemma eff_le_of_bound l m :
  limbs_ok l -> limbs_val l < Radix ^ Z.of_nat m -> (eff l <= m)%nat.
Proof.
  intros Hl Hb. destruct (eff l) as [|k] eqn:E; [lia|].
  pose proof (eff_lower l k Hl E).
  destruct (Nat.le_gt_cases (S k) m); [assumption|].
  pose proof (Radix_pow_le m k ltac:(lia)). lia.
Qed.

Lemma eff_zero_iff l : limbs_ok l -> (eff l = 0%nat <-> limbs_val l = 0).
Proof.
  intros Hl. split; intros H.
  - pose proof (eff_bound l Hl) as Hb. rewrite H in Hb.
    change (Z.of_nat 0) with 0 in Hb. rewrite Z.pow_0_r in Hb. lia.
  - destruct (eff l) as [|k] eqn:E; [reflexivity|].
    pose proof (eff_lower l k Hl E). pose proof (Radix_pow_pos k). lia.
Qed.

Lemma eff_nth_top l k : eff l = S k -> nth k l 0 <> 0.
Proof. apply scan_hi_nonzero. Qed.

Lemma eff_nth_above l j : (eff l <= j)%nat -> nth j l 0 = 0.
Proof.
  intros H. destruct (Nat.lt_ge_cases j (length l)).
  - apply (scan_hi_zero_above l (length l)). fold (eff l). lia.
  - apply nth_overflow. lia.
Qed.

(** [scan_top] from [n - 1] finds the same limb, but never goes below 0. *)
Lemma scan_top_scan_hi l i :
  S (scan_top l i) = Nat.max 1 (scan_hi l (S i)).
Proof.
  induction i.
  - simpl. destruct (nth 0 l 0 =? 0); reflexivity.
  - cbn [scan_top]. change (scan_hi l (S (S i)))
      with (if nth (S i) l 0 =? 0 then scan_hi l (S i) else S (S i)).
    destruct (nth (S i) l 0 =? 0); [exact IHi | lia].
Qed.

Lemma scan_top_eff l :
  l <> [] -> S (scan_top l (length l - 1)) = Nat.max 1 (eff l).
Proof.
  intros H. destruct l as [|x l]; [contradiction|].
  rewrite scan_top_scan_hi. unfold eff. simpl length.
  replace (S (S (length l) - 1)) with (S (length l)) by lia. reflexivity.
Qed.

Lemma limbs_val_firstn_ge_eff l k :
  (eff l <= k)%nat -> limbs_val (firstn k l) = limbs_val l.
Proof.
  intros H. destruct (Nat.le_gt_cases (length l) k) as [Hk|Hk].
  - rewrite firstn_all2 by lia. reflexivity.
  - rewrite (limbs_val_split k l) by lia.
    rewrite (limbs_val_all_zero (skipn k l)); [lia|].
    intros j Hj. rewrite nth_skipn. apply eff_nth_above. lia.
Qed.

End Limbs.

(** ** mpi_copy, mpi_lset and the comparisons *)

Section Copy_cmp.
Context {cfg : config}.

Lemma wf_limbs X : wf X -> limbs_ok (p X).
Proof. intros H; apply H. Qed.

Lemma wf_sign X : wf X -> s X = 1 \/ s X = -1.
Proof. intros H; apply H. Qed.

Lemma wf_cap X : wf X -> (n X <= POLARSSL_MPI_MAX_LIMBS)%nat.
Proof. intros H; apply H. Qed.

Lemma mag_nonneg X : limbs_ok (p X) -> 0 <= mag X.
Proof. apply limbs_val_nonneg. Qed.

Lemma mag_bound X : limbs_ok (p X) -> 0 <= mag X < Radix ^ Z.of_nat (n X).
Proof. apply limbs_val_bound. Qed.

Lemma wf_set_sign X sg : wf X -> sg = 1 \/ sg = -1 -> wf (set_sign X sg).
Proof. intros (H1 & H2 & H3) Hs. repeat split; assumption. Qed.

Lemma mag_set_sign X sg : mag (set_sign X sg) = mag X.
Proof. reflexivity. Qed.

Lemma mpi_grow_spec X k :
  (k <= POLARSSL_MPI_MAX_LIMBS)%nat ->
  exists X', mpi_grow X k = Ok X'
    /\ s X' = s X /\ mag X' = mag X /\ n X' = Nat.max (n X) k
    /\ (limbs_ok (p X) -> limbs_ok (p X')).
Proof.
  intros Hk. rewrite mpi_grow_ok by assumption.
  eexists; split; [reflexivity|]. unfold mag, n; cbn [s p].
  rewrite limbs_val_app_repeat0, length_app, repeat_length.
  repeat split; try lia.
  intros H. apply limbs_ok_app; split; [assumption | apply limbs_ok_repeat0].
Qed.

Lemma mpi_copy_spec X Y :
  limbs_ok (p Y) -> (n Y <= POLARSSL_MPI_MAX_LIMBS)%nat ->
  exists X', mpi_copy X Y = Ok X'
    /\ mag X' = mag Y
    /\ limbs_ok (p X')
    /\ (p Y <> [] ->
        s X' = s Y /\ n X' = Nat.max (n X) (Nat.max 1 (eff (p Y))))
    /\ (p Y = [] -> X' = mpi_init).
Proof.
  intros HY Hcap. unfold mpi_copy.
  destruct (p Y) as [|y l] eqn:E.
  - eexists; split; [reflexivity|]. unfold mag; rewrite E.
    split; [reflexivity|]. split; [constructor|].
    split; [congruence | reflexivity].
  - rewrite <- E. rewrite <- E in HY.
    assert (Hne : p Y <> []) by congruence.
    cbv zeta. unfold n. rewrite (scan_top_eff (p Y) Hne).
    set (i := Nat.max 1 (eff (p Y))). fold (n Y).
    assert (Hi : (i <= n Y)%nat).
    { pose proof (eff_le (p Y)).
      assert (0 < length (p Y))%nat by (rewrite E; simpl; lia).
      unfold i, n. lia. }
    rewrite mpi_grow_ok by lia. cbn [bind s p n].
    eexists; split; [reflexivity|]. unfold mag, n; cbn [s p].
    rewrite limbs_val_app_repeat0.
    split; [apply limbs_val_firstn_ge_eff; unfold i; lia|].
    split.
    { apply limbs_ok_app; split;
        [now apply limbs_ok_firstn | apply limbs_ok_repeat0]. }
    split; [|congruence].
    intros _. split; [reflexivity|].
    rewrite !length_app, !repeat_length, length_firstn.
    unfold n in Hi. fold i. lia.
Qed.

Lemma mpi_copy_val X Y X' :
  mpi_copy X Y = Ok X' -> limbs_ok (p Y) ->
  (n Y <= POLARSSL_MPI_MAX_LIMBS)%nat ->
  mpi_val X' = mpi_val Y.
Proof.
  intros H HY Hc.
  destruct (mpi_copy_spec X Y HY Hc) as (X2 & E & Hm & _ & Hs & Hn).
  rewrite H in E; injection E as <-.
  unfold mpi_val. rewrite Hm.
  destruct (p Y) as [|y l] eqn:Ep.
  - unfold mag. rewrite Ep. simpl. lia.
  - destruct Hs as [-> _]; [congruence | reflexivity].
Qed.

Lemma mpi_lset_spec X z :
  (1 <= POLARSSL_MPI_MAX_LIMBS)%nat -> - Radix < z < Radix ->
  exists X', mpi_lset X z = Ok X'
    /\ s X' = (if z <? 0 then -1 else 1)
    /\ mag X' = Z.abs z
    /\ n X' = Nat.max (n X) 1
    /\ limbs_ok (p X').
Proof.
  intros Hcap Hz. unfold mpi_lset. rewrite mpi_grow_ok by assumption.
  cbn [bind s p n]. eexists; split; [reflexivity|].
  unfold mag, n; cbn [s p].
  rewrite length_app, repeat_length.
  set (k := (length (p X) + (1 - length (p X)))%nat).
  assert (Hk : (0 < k)%nat) by (unfold k; lia).
  assert (Hv : to_uint (if z <? 0 then - z else z) = Z.abs z).
  { rewrite to_uint_small; destruct (Z.ltb_spec z 0); lia. }
  rewrite Hv. split; [reflexivity|]. split.
  { rewrite limbs_val_upd by (rewrite repeat_length; lia).
    rewrite limbs_val_repeat0, nth_repeat.
    change (Z.of_nat 0) with 0. rewrite Z.pow_0_r. lia. }
  split; [rewrite upd_length, repeat_length; unfold k; lia|].
  apply limbs_ok_upd; [apply limbs_ok_repeat0 | lia].
Qed.

Lemma limbs_val_firstn_S k l :
  (k < length l)%nat ->
  limbs_val (firstn (S k) l)
  = limbs_val (firstn k l) + Radix ^ Z.of_nat k * nth k l 0.
Proof.
  revert l; induction k as [|k IH]; intros [|x l] H; simpl in H; try lia.
  - cbn [firstn limbs_val nth]. change (Z.of_nat 0) with 0.
    rewrite Z.pow_0_r. ring.
  - change (firstn (S (S k)) (x :: l)) with (x :: firstn (S k) l).
    change (firstn (S k) (x :: l)) with (x :: firstn k l).
    cbn [limbs_val nth]. rewrite IH by lia. rewrite Radix_pow_succ. ring.
Qed.

(** Comparison of limbs from the top. *)
Lemma cmp_limbs_spec sx lx ly k :
  limbs_ok lx -> limbs_ok ly ->
  (k <= length lx)%nat -> (k <= length ly)%nat ->
  cmp_limbs sx lx ly k
  = sx * Z.sgn (limbs_val (firstn k lx) - limbs_val (firstn k ly)).
Proof.
  intros Hx Hy. induction k as [|k IH]; intros Hkx Hky.
  - simpl. lia.
  - cbn [cmp_limbs].
    rewrite (limbs_val_firstn_S k lx), (limbs_val_firstn_S k ly) by lia.
    pose proof (limbs_val_bound _ (limbs_ok_firstn k lx Hx)) as Bx.
    pose proof (limbs_val_bound _ (limbs_ok_firstn k ly Hy)) as By.
    rewrite length_firstn in Bx, By.
    replace (Nat.min k (length lx)) with k in Bx by lia.
    replace (Nat.min k (length ly)) with k in By by lia.
    pose proof (Radix_pow_pos k) as HR.
    destruct (Z.ltb_spec (nth k ly 0) (nth k lx 0)) as [H1|H1].
    { rewrite Z.sgn_pos by nia. lia. }
    destruct (Z.ltb_spec (nth k lx 0) (nth k ly 0)) as [H2|H2].
    { rewrite Z.sgn_neg by nia. lia. }
    rewrite IH by lia. replace (nth k lx 0) with (nth k ly 0) by lia.
    f_equal. f_equal. lia.
Qed.

Lemma mpi_cmp_abs_spec X Y :
  limbs_ok (p X) -> limbs_ok (p Y) ->
  mpi_cmp_abs X Y = Z.sgn (mag X - mag Y).
Proof.
  intros HX HY. unfold mpi_cmp_abs, n. fold (eff (p X)) (eff (p Y)).
  pose proof (eff_bound _ HX) as BX. pose proof (eff_bound _ HY) as BY.
  fold (mag X) in BX. fold (mag Y) in BY.
  destruct (Nat.eqb_spec (eff (p X)) 0) as [E1|E1];
    [destruct (Nat.eqb_spec (eff (p Y)) 0) as [E2|E2]|]; cbn [andb].
  - apply eff_zero_iff in E1, E2; try assumption.
    unfold mag. rewrite E1, E2. reflexivity.
  - destruct (Nat.ltb_spec (eff (p Y)) (eff (p X))); [lia|].
    destruct (Nat.ltb_spec (eff (p X)) (eff (p Y))); [|lia].
    apply eff_zero_iff in E1; [|assumption]. unfold mag at 1. rewrite E1.
    destruct (eff (p Y)) as [|k] eqn:E; [lia|].
    pose proof (eff_lower _ _ HY E). pose proof (Radix_pow_pos k).
    fold (mag Y) in *. rewrite Z.sgn_neg by lia. reflexivity.
  - destruct (Nat.ltb_spec (eff (p Y)) (eff (p X))) as [H|H].
    { destruct (eff (p X)) as [|k] eqn:E; [lia|].
      pose proof (eff_lower _ _ HX E). fold (mag X) in *.
      pose proof (Radix_pow_le (eff (p Y)) k ltac:(lia)).
      rewrite Z.sgn_pos by lia. reflexivity. }
    destruct (Nat.ltb_spec (eff (p X)) (eff (p Y))) as [H'|H'].
    { destruct (eff (p Y)) as [|k] eqn:E; [lia|].
      pose proof (eff_lower _ _ HY E). fold (mag Y) in *.
      pose proof (Radix_pow_le (eff (p X)) k ltac:(lia)).
      rewrite Z.sgn_neg by lia. reflexivity. }
    rewrite cmp_limbs_spec; try assumption; try apply eff_le.
    2:{ replace (eff (p X)) with (eff (p Y)) by lia. apply eff_le. }
    rewrite eff_firstn.
    replace (eff (p X)) with (eff (p Y)) by lia. rewrite eff_firstn.
    unfold mag. lia.
Qed.

Lemma mpi_cmp_mpi_spec X Y :
  limbs_ok (p X) -> limbs_ok (p Y) ->
  (s X = 1 \/ s X = -1) -> (s Y = 1 \/ s Y = -1) ->
  mpi_cmp_mpi X Y = Z.sgn (mpi_val X - mpi_val Y).
Proof.
  intros HX HY SX SY. unfold mpi_cmp_mpi, mpi_val, n.
  fold (eff (p X)) (eff (p Y)).
  pose proof (eff_bound _ HX) as BX. pose proof (eff_bound _ HY) as BY.
  fold (mag X) in BX. fold (mag Y) in BY.
  destruct (Nat.eqb_spec (eff (p X)) 0) as [E1|E1];
    [destruct (Nat.eqb_spec (eff (p Y)) 0) as [E2|E2]|]; cbn [andb].
  - apply eff_zero_iff in E1, E2; try assumption.
    unfold mag. rewrite E1, E2. rewrite !Z.mul_0_r. reflexivity.
  - destruct (Nat.ltb_spec (eff (p Y)) (eff (p X))); [lia|].
    destruct (Nat.ltb_spec (eff (p X)) (eff (p Y))); [|lia].
    apply eff_zero_iff in E1; [|assumption]. unfold mag at 1. rewrite E1.
    destruct (eff (p Y)) as [|k] eqn:E; [lia|].
    pose proof (eff_lower _ _ HY E). pose proof (Radix_pow_pos k).
    fold (mag Y) in *.
    destruct SY as [-> | ->]; [rewrite Z.sgn_neg by lia | rewrite Z.sgn_pos by lia];
      reflexivity.
  - destruct (Nat.ltb_spec (eff (p Y)) (eff (p X))) as [H|H].
    { destruct (eff (p X)) as [|k] eqn:E; [lia|].
      pose proof (eff_lower _ _ HX E). fold (mag X) in *.
      pose proof (Radix_pow_le (eff (p Y)) k ltac:(lia)).
      pose proof (Radix_pow_pos k).
      destruct SX as [-> | ->], SY as [-> | ->];
        (rewrite Z.sgn_pos by lia) || (rewrite Z.sgn_neg by lia); reflexivity. }
    destruct (Nat.ltb_spec (eff (p X)) (eff (p Y))) as [H'|H'].
    { destruct (eff (p Y)) as [|k] eqn:E; [lia|].
      pose proof (eff_lower _ _ HY E). fold (mag Y) in *.
      pose proof (Radix_pow_le (eff (p X)) k ltac:(lia)).
      pose proof (Radix_pow_pos k).
      destruct SX as [-> | ->], SY as [-> | ->];
        (rewrite Z.sgn_pos by lia) || (rewrite Z.sgn_neg by lia); reflexivity. }
    assert (Eq : eff (p X) = eff (p Y)) by lia.
    destruct (eff (p X)) as [|k] eqn:E; [lia|].
    pose proof (eff_lower _ _ HX E). symmetry in Eq.
    pose proof (eff_lower _ _ HY Eq). fold (mag X) (mag Y) in *.
    pose proof (Radix_pow_pos k).
    rewrite cmp_limbs_spec; try assumption.
    2:{ rewrite <- E. apply eff_le. }
    2:{ rewrite <- Eq. apply eff_le. }
    rewrite <- E at 1. rewrite <- Eq. rewrite !eff_firstn.
    fold (mag X) (mag Y).
    destruct SX as [-> | ->], SY as [-> | ->]; cbn [Z.ltb Z.compare andb].
    + f_equal; lia.
    + rewrite Z.sgn_pos by lia. reflexivity.
    + rewrite Z.sgn_neg by lia. reflexivity.
    + rewrite <- Z.sgn_opp. f_equal. lia.
Qed.

Lemma mpi_of_sint_spec z :
  - Radix < z < Radix ->
  limbs_ok (p (mpi_of_sint z))
  /\ (s (mpi_of_sint z) = 1 \/ s (mpi_of_sint z) = -1)
  /\ mpi_val (mpi_of_sint z) = z
  /\ n (mpi_of_sint z) = 1%nat.
Proof.
  intros Hz. unfold mpi_of_sint, mpi_val, mag, n; cbn [s p].
  assert (Hv : to_uint (if z <? 0 then - z else z) = Z.abs z).
  { rewrite to_uint_small; destruct (Z.ltb_spec z 0); lia. }
  rewrite Hv. split.
  { repeat constructor; lia. }
  split; [destruct (z <? 0); auto|].
  split; [|reflexivity].
  simpl. destruct (Z.ltb_spec z 0); lia.
Qed.

Lemma mpi_cmp_int_spec X z :
  limbs_ok (p X) -> (s X = 1 \/ s X = -1) -> - Radix < z < Radix ->
  mpi_cmp_int X z = Z.sgn (mpi_val X - z).
Proof.
  intros HX SX Hz. unfold mpi_cmp_int.
  destruct (mpi_of_sint_spec z Hz) as (H1 & H2 & H3 & _).
  rewrite mpi_cmp_mpi_spec by assumption. rewrite H3. reflexivity.
Qed.

Lemma Radix_gt_0_sint : - Radix < 0 < Radix.
Proof. pose proof Radix_pos; lia. Qed.

Lemma Radix_gt_1_sint : - Radix < 1 < Radix.
Proof. pose proof Radix_gt_1; lia. Qed.

End Copy_cmp.

(** ** Addition and subtraction *)

Section AddSub.
Context {cfg : config}.

Lemma mod_add_cases a :
  0 <= a < 2 * Radix -> to_uint a = if a <? Radix then a else a - Radix.
Proof.
  intros H. unfold to_uint. destruct (Z.ltb_spec a Radix).
  - apply Z.mod_small; lia.
  - symmetry. apply (Z.mod_unique a Radix 1); lia.
Qed.

Lemma mod_sub_cases a :
  - Radix <= a < Radix -> to_uint a = if a <? 0 then a + Radix else a.
Proof.
  intros H. unfold to_uint. destruct (Z.ltb_spec a 0).
  - symmetry. apply (Z.mod_unique a Radix (-1)); lia.
  - apply Z.mod_small; lia.
Qed.

Lemma add_ripple_zero k i pl : add_ripple k i pl 0 = Ok pl.
Proof. destruct k; reflexivity. Qed.

Lemma add_ripple_spec pl : forall k i c,
  limbs_ok pl -> (c = 0 \/ c = 1) -> (length pl + 2 <= k)%nat ->
  (limbs_val pl + c < Radix ^ Z.of_nat (length pl)
   \/ (i + length pl < POLARSSL_MPI_MAX_LIMBS)%nat) ->
  exists l', add_ripple k i pl c = Ok l'
    /\ limbs_val l' = limbs_val pl + c
    /\ limbs_ok l'
    /\ (length pl <= length l' <= length pl + 1)%nat
    /\ (limbs_val pl + c < Radix ^ Z.of_nat (length pl) ->
        length l' = length pl).
Proof.
  pose proof Radix_gt_1 as HR.
  induction pl as [|x pl IH]; intros k i c Hl Hc Hk Hcap.
  - destruct Hc as [-> | ->].
    + rewrite add_ripple_zero. exists []. simpl. repeat split; auto; lia.
    + destruct k as [|k]; [simpl in Hk; lia|].
      cbn [add_ripple Z.eqb length] in *.
      change (Z.of_nat 0) with 0 in Hcap. rewrite Z.pow_0_r in Hcap.
      destruct Hcap as [Hcap|Hcap]; [simpl in Hcap; lia|].
      destruct (Nat.ltb_spec POLARSSL_MPI_MAX_LIMBS (S i)); [lia|].
      replace (to_uint (0 + 1)) with 1 by (symmetry; apply to_uint_small; lia).
      change (1 <? 1) with false. cbn [b2z].
      rewrite add_ripple_zero. cbn [bind].
      exists [1]. cbn [limbs_val length].
      split; [reflexivity|]. split; [lia|].
      split; [repeat constructor; lia|]. split; [lia|].
      change (Z.of_nat 0) with 0. rewrite Z.pow_0_r. lia.
  - apply limbs_ok_cons in Hl as [Hx Hl].
    destruct Hc as [-> | ->].
    + rewrite add_ripple_zero. exists (x :: pl).
      split; [reflexivity|]. split; [lia|].
      split; [apply limbs_ok_cons; auto|]. split; [lia | auto].
    + destruct k as [|k]; [simpl in Hk; lia|].
      cbn [add_ripple Z.eqb]. simpl length in *.
      rewrite mod_add_cases by lia.
      rewrite Radix_pow_succ in Hcap.
      pose proof (limbs_val_bound pl Hl) as Hb.
      destruct (Z.ltb_spec (x + 1) Radix) as [Hlt|Hge].
      * destruct (Z.ltb_spec (x + 1) 1); [lia|]. cbn [b2z].
        rewrite add_ripple_zero. cbn [bind].
        exists (x + 1 :: pl). cbn [limbs_val length].
        split; [reflexivity|]. split; [lia|].
        split; [apply limbs_ok_cons; split; [lia | auto]|].
        split; [lia | auto].
      * replace (x + 1 - Radix) with 0 by lia.
        change (0 <? 1) with true. cbn [b2z].
        destruct (IH k (S i) 1 Hl (or_intror eq_refl) ltac:(lia))
          as (l' & E & Hv & Hok & Hlen & Hlen').
        { destruct Hcap as [Hcap|Hcap]; [left | right; lia].
          cbn [limbs_val] in Hcap. nia. }
        rewrite E. cbn [bind]. exists (0 :: l'). cbn [limbs_val length].
        split; [reflexivity|]. split; [rewrite Hv; lia|].
        split; [apply limbs_ok_cons; split; [lia | auto]|].
        split; [lia|]. intros Hs. rewrite Radix_pow_succ in Hs.
        rewrite Hlen'; [reflexivity | nia].
Qed.

Lemma add_loop_spec o : forall pl c i,
  limbs_ok o -> limbs_ok pl -> (c = 0 \/ c = 1) ->
  (length o <= length pl)%nat ->
  (limbs_val pl + limbs_val o + c < Radix ^ Z.of_nat (length pl)
   \/ (i + length pl < POLARSSL_MPI_MAX_LIMBS)%nat) ->
  exists l', add_loop o pl c i = Ok l'
    /\ limbs_val l' = limbs_val pl + limbs_val o + c
    /\ limbs_ok l'
    /\ (length pl <= length l' <= length pl + 1)%nat
    /\ (limbs_val pl + limbs_val o + c < Radix ^ Z.of_nat (length pl) ->
        length l' = length pl).
Proof.
  pose proof Radix_gt_1 as HR.
  induction o as [|b o IH]; intros pl c i Ho Hl Hc Hlen Hcap.
  - cbn [add_loop limbs_val] in *. rewrite Z.add_0_r in *.
    apply add_ripple_spec; auto; lia.
  - destruct pl as [|x pl]; [simpl in Hlen; lia|].
    apply limbs_ok_cons in Ho as [Hb Ho].
    apply limbs_ok_cons in Hl as [Hx Hl].
    simpl length in *. cbn [add_loop limbs_val] in *.
    rewrite Radix_pow_succ in Hcap.
    set (x1 := to_uint (x + c)).
    set (c1 := b2z (x1 <? c)).
    set (x2 := to_uint (x1 + b)).
    set (c2 := c1 + b2z (x2 <? b)).
    assert (Hstep : x2 + Radix * c2 = x + b + c /\ (c2 = 0 \/ c2 = 1)
                    /\ 0 <= x2 < Radix).
    { unfold c2, x2, c1, x1.
      rewrite (mod_add_cases (x + c)) by (destruct Hc; subst; lia).
      destruct (Z.ltb_spec (x + c) Radix).
      - destruct (Z.ltb_spec (x + c) c); [destruct Hc; subst; lia|].
        cbn [b2z]. rewrite mod_add_cases by (destruct Hc; subst; lia).
        destruct (Z.ltb_spec (x + c + b) Radix).
        + destruct (Z.ltb_spec (x + c + b) b); cbn [b2z];
            destruct Hc; subst; lia.
        + destruct (Z.ltb_spec (x + c + b - Radix) b); cbn [b2z];
            destruct Hc; subst; lia.
      - destruct (Z.ltb_spec (x + c - Radix) c); [|destruct Hc; subst; lia].
        cbn [b2z]. rewrite mod_add_cases by (destruct Hc; subst; lia).
        destruct (Z.ltb_spec (x + c - Radix + b) Radix);
          [|destruct Hc; subst; lia].
        destruct (Z.ltb_spec (x + c - Radix + b) b); cbn [b2z];
          destruct Hc; subst; lia. }
    destruct Hstep as (Hs1 & Hs2 & Hs3).
    pose proof (limbs_val_bound pl Hl) as Hbp.
    pose proof (limbs_val_nonneg o Ho) as Hbo.
    destruct (IH pl c2 (S i) Ho Hl Hs2 ltac:(lia)) as
      (l' & E & Hv & Hok & Hlen1 & Hlen2).
    { destruct Hcap as [Hcap|Hcap]; [left | right; lia]. nia. }
    rewrite E. cbn [bind]. exists (x2 :: l'). cbn [limbs_val length].
    split; [reflexivity|]. split; [rewrite Hv; lia|].
    split; [apply limbs_ok_cons; auto|]. split; [lia|].
    intros Hsum. rewrite Radix_pow_succ in Hsum.
    rewrite Hlen2; [reflexivity | nia].
Qed.

Lemma sub_ripple_zero dl : sub_ripple dl 0 = Ok dl.
Proof. destruct dl; reflexivity. Qed.

Lemma sub_ripple_spec dl : forall c,
  limbs_ok dl -> (c = 0 \/ c = 1) -> c <= limbs_val dl ->
  exists l', sub_ripple dl c = Ok l'
    /\ limbs_val l' = limbs_val dl - c
    /\ limbs_ok l'
    /\ length l' = length dl.
Proof.
  pose proof Radix_gt_1 as HR.
  induction dl as [|y dl IH]; intros c Hl Hc Hle.
  - cbn [limbs_val] in Hle. assert (c = 0) as -> by lia.
    exists []. simpl. repeat split; auto.
  - apply limbs_ok_cons in Hl as [Hy Hl]. cbn [limbs_val] in Hle.
    destruct Hc as [-> | ->].
    + rewrite sub_ripple_zero. exists (y :: dl).
      split; [reflexivity|]. split; [lia|].
      split; [apply limbs_ok_cons; auto | reflexivity].
    + cbn [sub_ripple Z.eqb]. rewrite mod_sub_cases by lia.
      pose proof (limbs_val_nonneg dl Hl).
      destruct (Z.ltb_spec y 1) as [Hy0|Hy1]; cbn [b2z].
      * destruct (IH 1 Hl (or_intror eq_refl) ltac:(nia))
          as (l' & E & Hv & Hok & Hlen).
        rewrite E. cbn [bind].
        destruct (Z.ltb_spec (y - 1) 0); [|lia].
        exists (y - 1 + Radix :: l'). cbn [limbs_val length].
        split; [reflexivity|]. split; [rewrite Hv; lia|].
        split; [apply limbs_ok_cons; split; [lia | auto] | lia].
      * rewrite sub_ripple_zero. cbn [bind].
        destruct (Z.ltb_spec (y - 1) 0); [lia|].
        exists (y - 1 :: dl). cbn [limbs_val length].
        split; [reflexivity|]. split; [lia|].
        split; [apply limbs_ok_cons; split; [lia | auto] | lia].
Qed.

Lemma sub_loop_spec sl : forall dl c,
  limbs_ok sl -> limbs_ok dl -> (c = 0 \/ c = 1) ->
  (length sl <= length dl)%nat ->
  limbs_val sl + c <= limbs_val dl ->
  exists l', sub_loop sl dl c = Ok l'
    /\ limbs_val l' = limbs_val dl - limbs_val sl - c
    /\ limbs_ok l'
    /\ length l' = length dl.
Proof.
  pose proof Radix_gt_1 as HR.
  induction sl as [|x sl IH]; intros dl c Hs Hd Hc Hlen Hle.
  - cbn [sub_loop limbs_val] in *. rewrite Z.sub_0_r.
    apply sub_ripple_spec; auto.
  - destruct dl as [|y dl]; [simpl in Hlen; lia|].
    apply limbs_ok_cons in Hs as [Hx Hs].
    apply limbs_ok_cons in Hd as [Hy Hd].
    simpl length in *. cbn [sub_loop limbs_val] in *.
    set (z := b2z (y <? c)).
    set (y1 := to_uint (y - c)).
    set (c' := b2z (y1 <? x) + z).
    set (y2 := to_uint (y1 - x)).
    assert (Hstep : y2 - Radix * c' = y - c - x /\ (c' = 0 \/ c' = 1)
                    /\ 0 <= y2 < Radix).
    { unfold y2, c', y1, z.
      rewrite (mod_sub_cases (y - c)) by (destruct Hc; subst; lia).
      destruct (Z.ltb_spec (y - c) 0).
      - destruct (Z.ltb_spec y c); [|lia]. cbn [b2z].
        rewrite mod_sub_cases by (destruct Hc; subst; lia).
        destruct (Z.ltb_spec (y - c + Radix) x);
          [destruct Hc; subst; lia|].
        destruct (Z.ltb_spec (y - c + Radix - x) 0); cbn [b2z];
          destruct Hc; subst; lia.
      - destruct (Z.ltb_spec y c); [lia|]. cbn [b2z].
        rewrite mod_sub_cases by (destruct Hc; subst; lia).
        destruct (Z.ltb_spec (y - c) x);
          destruct (Z.ltb_spec (y - c - x) 0); cbn [b2z];
          destruct Hc; subst; lia. }
    destruct Hstep as (Hs1 & Hs2 & Hs3).
    pose proof (limbs_val_nonneg sl Hs) as Hbs.
    pose proof (limbs_val_nonneg dl Hd) as Hbd.
    destruct (IH dl c' Hs Hd Hs2 ltac:(lia) ltac:(nia))
      as (l' & E & Hv & Hok & Hl').
    rewrite E. cbn [bind]. exists (y2 :: l'). cbn [limbs_val length].
    split; [reflexivity|]. split; [rewrite Hv; lia|].
    split; [apply limbs_ok_cons; auto | lia].
Qed.

Lemma mpi_sub_hlp_spec sl dl :
  limbs_ok sl -> limbs_ok dl -> limbs_val sl <= limbs_val dl ->
  exists l', mpi_sub_hlp (eff sl) sl dl = Ok l'
    /\ limbs_val l' = limbs_val dl - limbs_val sl
    /\ limbs_ok l'
    /\ length l' = length dl.
Proof.
  intros Hs Hd Hle. unfold mpi_sub_hlp.
  pose proof (eff_le sl).
  destruct (Nat.ltb_spec (length sl) (eff sl)); [lia|].
  pose proof (eff_firstn sl) as Ev.
  destruct (sub_loop_spec (firstn (eff sl) sl) dl 0) as (l' & E & Hv & Hok & Hl);
    try (now apply limbs_ok_firstn); auto; try lia.
  - rewrite length_firstn.
    pose proof (limbs_val_bound dl Hd).
    assert (eff sl <= length dl)%nat by (apply eff_le_of_bound; auto; lia).
    lia.
  - exists l'. rewrite E. repeat split; auto. lia.
Qed.

Lemma mpi_sub_abs_spec K d A B :
  (K <= POLARSSL_MPI_MAX_LIMBS)%nat ->
  wfk K A -> wfk K B -> dst_fits K d ->
  mag B <= mag A ->
  exists X', mpi_sub_abs d A B = Ok X'
    /\ s X' = 1
    /\ mag X' = mag A - mag B
    /\ wfk K X'
    /\ (d = DstA -> n X' = n A)
    /\ (d <> DstA -> p A <> [] -> (n (dst_val d A B) <= n X')%nat).
Proof.
  intros HK (HA & SA & NA) (HB & SB & NB) Hd Hle. unfold mpi_sub_abs.
  rewrite mpi_cmp_abs_spec by assumption.
  destruct (Z.ltb_spec (Z.sgn (mag A - mag B)) 0) as [Hs|_].
  { apply Z.sgn_neg_iff in Hs. lia. }
  assert (HB' : exists B', match d with
                           | DstB => mpi_copy mpi_init B
                           | _ => Ok B
                           end = Ok B'
                           /\ mag B' = mag B /\ limbs_ok (p B')).
  { destruct d; try solve [exists B; auto].
    destruct (mpi_copy_spec mpi_init B HB ltac:(lia)) as (B' & E & Hm & Hok & _).
    exists B'; auto. }
  destruct HB' as (B' & -> & HmB & HokB). cbn [bind].
  assert (HX0 : exists X0, match d with
                           | DstA => Ok A
                           | DstB => mpi_copy B A
                           | Dst X => mpi_copy X A
                           end = Ok X0
                           /\ mag X0 = mag A /\ limbs_ok (p X0)
                           /\ (n X0 <= K)%nat
                           /\ (d = DstA -> n X0 = n A)
                           /\ (d <> DstA -> p A <> [] ->
                               (n (dst_val d A B) <= n X0)%nat)).
  { destruct d as [| |X].
    - exists A. repeat split; auto; try congruence.
    - destruct (mpi_copy_spec B A HA ltac:(lia)) as (X0 & E & Hm & Hok & Hn & He).
      exists X0. repeat split; auto; try congruence.
      + destruct (p A) eqn:EA.
        * rewrite (He eq_refl). unfold n; simpl; lia.
        * destruct Hn as [_ ->]; [congruence|].
          pose proof (eff_le (p A)). rewrite EA in *. unfold n in *.
          rewrite EA in NA. simpl length in *. lia.
      + intros _ Hne. destruct (Hn Hne) as [_ ->]. cbn [dst_val]. lia.
    - destruct (mpi_copy_spec X A HA ltac:(lia)) as (X0 & E & Hm & Hok & Hn & He).
      exists X0. repeat split; auto; try congruence.
      + destruct (p A) eqn:EA.
        * rewrite (He eq_refl). unfold n; simpl; lia.
        * destruct Hn as [_ ->]; [congruence|].
          pose proof (eff_le (p A)). rewrite EA in *. unfold n in *.
          rewrite EA in NA. simpl length in *. cbn [dst_fits] in Hd.
          unfold n in Hd. lia.
      + intros _ Hne. destruct (Hn Hne) as [_ ->]. cbn [dst_val]. lia. }
  destruct HX0 as (X0 & -> & HmX & HokX & HnX & HnA & HnD). cbn [bind].
  unfold n at 1. fold (eff (p B')).
  destruct (mpi_sub_hlp_spec (p B') (p X0) HokB HokX) as (l' & E & Hv & Hok & Hl).
  { fold (mag B') (mag X0). lia. }
  rewrite E. cbn [bind]. eexists; split; [reflexivity|].
  unfold mag, n, wfk; cbn [s p]. fold (mag X0) (mag B') in Hv.
  rewrite Hl. fold (n X0).
  repeat split; auto; try lia.
  - fold (mag A) (mag B). lia.
  - unfold n; cbn [p]. rewrite Hl. fold (n X0). lia.
Qed.

Lemma mpi_add_abs_spec K d A B :
  (K <= POLARSSL_MPI_MAX_LIMBS)%nat ->
  wfk K A -> wfk K B -> dst_fits K d ->
  mag A + mag B < Radix ^ Z.of_nat K ->
  exists X', mpi_add_abs d A B = Ok X'
    /\ s X' = 1
    /\ mag X' = mag A + mag B
    /\ wfk K X'
    /\ (dst_keeps d A -> (n (dst_val d A B) <= n X')%nat).
Proof.
  intros HK (HA & SA & NA) (HB & SB & NB) Hd Hsum. unfold mpi_add_abs.
  assert (H0 : exists X0 B',
             match d with
             | DstA => Ok (A, B)
             | DstB => Ok (B, A)
             | Dst X => X1 <- mpi_copy X A;; Ok (X1, B)
             end = Ok (X0, B')
             /\ mag X0 + mag B' = mag A + mag B
             /\ limbs_ok (p X0) /\ limbs_ok (p B')
             /\ (n X0 <= K)%nat /\ (n B' <= K)%nat
             /\ (dst_keeps d A -> (n (dst_val d A B) <= n X0)%nat)).
  { destruct d as [| |X].
    - exists A, B. repeat split; auto.
    - exists B, A. repeat split; auto. lia.
    - destruct (mpi_copy_spec X A HA ltac:(lia)) as (X0 & E & Hm & Hok & Hn & He).
      exists X0, B. rewrite E. cbn [bind]. repeat split; auto; try lia.
      + destruct (p A) eqn:EA.
        * rewrite (He eq_refl). unfold n; simpl; lia.
        * destruct Hn as [_ ->]; [congruence|].
          pose proof (eff_le (p A)). rewrite EA in *. unfold n in *.
          rewrite EA in NA. simpl length in *. cbn [dst_fits] in Hd.
          unfold n in Hd. lia.
      + cbn [dst_keeps dst_val]. intros Hne.
        destruct (Hn Hne) as [_ ->]. lia. }
  destruct H0 as (X0 & B' & -> & Hm & HokX & HokB & HnX & HnB & Hkeep).
  cbn [bind]. cbv zeta.
  change (scan_hi (p B') (n B')) with (eff (p B')).
  pose proof (eff_le (p B')) as Heff. fold (n B') in Heff.
  rewrite mpi_grow_ok by lia. cbn [bind s p].
  change (n {| s := 1; p := p X0 |}) with (length (p X0)).
  set (pl := p X0 ++ repeat 0 (eff (p B') - length (p X0))).
  assert (Hpl : limbs_ok pl).
  { apply limbs_ok_app; split; [assumption | apply limbs_ok_repeat0]. }
  assert (Hvpl : limbs_val pl = mag X0).
  { unfold pl. apply limbs_val_app_repeat0. }
  assert (Hlpl : length pl = Nat.max (n X0) (eff (p B'))).
  { unfold pl. rewrite length_app, repeat_length. unfold n. lia. }
  destruct (add_loop_spec (firstn (eff (p B')) (p B')) pl 0 0%nat)
    as (l' & E & Hv & Hok & Hl1 & Hl2); auto.
  - now apply limbs_ok_firstn.
  - rewrite length_firstn. lia.
  - rewrite eff_firstn, Hvpl. fold (mag B'). rewrite Z.add_0_r, Hm.
    destruct (Nat.lt_ge_cases (length pl) K) as [Hlt|Hge].
    + right. lia.
    + left. pose proof (Radix_pow_le K (length pl) Hge). lia.
  - rewrite E. cbn [bind]. eexists; split; [reflexivity|].
    rewrite eff_firstn, Hvpl in Hv, Hl2. fold (mag B') in Hv, Hl2.
    rewrite Z.add_0_r in Hv, Hl2. rewrite Hm in Hv, Hl2.
    unfold mag at 1, wfk; cbn [s p].
    change (n {| s := 1; p := l' |}) with (length l').
    split; [reflexivity|]. split; [assumption|].
    split.
    + split; [assumption|]. split; [auto|].
      destruct (Nat.lt_ge_cases (length pl) K) as [Hlt|Hge]; [lia|].
      rewrite Hl2; [lia|].
      pose proof (Radix_pow_le K (length pl) Hge). lia.
    + intros Hk. specialize (Hkeep Hk). lia.
Qed.

End AddSub.

Ltac eval_sign_test :=
  match goal with
  | |- context [?a * ?b <? 0] =>
      let v := eval vm_compute in (a * b <? 0) in
      change (a * b <? 0) with v
  | |- context [0 <? ?a * ?b] =>
      let v := eval vm_compute in (0 <? a * b) in
      change (0 <? a * b) with v
  end.

Section AddSubSigned.
Context {cfg : config}.

Lemma mag_pos_nonempty X : 0 < mag X -> p X <> [].
Proof. unfold mag. intros H E. rewrite E in H. simpl in H. lia. Qed.

Lemma dst_fits_swap K d : dst_fits K d -> dst_fits K (dst_swap d).
Proof. destruct d; auto. Qed.

(** The common part of mpi_add_mpi and mpi_sub_mpi: [diff] says that the
    magnitudes are subtracted. *)
Lemma mpi_addsub_spec K d A B (diff : bool) :
  (K <= POLARSSL_MPI_MAX_LIMBS)%nat ->
  wfk K A -> wfk K B -> dst_fits K d ->
  mag A + mag B < Radix ^ Z.of_nat K ->
  exists X',
    (if diff then
       if 0 <=? mpi_cmp_abs A B
       then X <- mpi_sub_abs d A B ;; Ok (set_sign X (s A))
       else X <- mpi_sub_abs (dst_swap d) B A ;; Ok (set_sign X (- s A))
     else X <- mpi_add_abs d A B ;; Ok (set_sign X (s A))) = Ok X'
    /\ wfk K X'
    /\ s X' = (if diff && (mag A <? mag B) then - s A else s A)
    /\ mag X' = (if diff then Z.abs (mag A - mag B) else mag A + mag B)
    /\ (d = DstA -> (n A <= n X')%nat).
Proof.
  intros HK WA WB Hd Hsum.
  pose proof WA as (HA & SA & NA). pose proof WB as (HB & SB & NB).
  pose proof (mag_nonneg A HA). pose proof (mag_nonneg B HB).
  destruct diff.
  - rewrite mpi_cmp_abs_spec by assumption.
    destruct (Z.leb_spec 0 (Z.sgn (mag A - mag B))) as [Hs|Hs].
    + apply Z.sgn_nonneg in Hs.
      destruct (mpi_sub_abs_spec K d A B HK WA WB Hd ltac:(lia))
        as (X' & E & S' & M' & (Hok & _ & Hn) & HnA & _).
      rewrite E. cbn [bind]. eexists; split; [reflexivity|].
      cbn [andb]. destruct (Z.ltb_spec (mag A) (mag B)); [lia|].
      rewrite mag_set_sign. unfold wfk, set_sign, n; cbn [s p].
      repeat split; auto; try lia.
      intros ->. specialize (HnA eq_refl). unfold n in HnA. lia.
    + apply Z.sgn_neg_iff in Hs.
      destruct (mpi_sub_abs_spec K (dst_swap d) B A HK WB WA
                  (dst_fits_swap K d Hd) ltac:(lia))
        as (X' & E & S' & M' & (Hok & _ & Hn) & _ & HnD).
      rewrite E. cbn [bind]. eexists; split; [reflexivity|].
      cbn [andb]. destruct (Z.ltb_spec (mag A) (mag B)); [|lia].
      rewrite mag_set_sign. unfold wfk, set_sign, n; cbn [s p].
      repeat split; auto; try lia;
        try (destruct SA as [-> | ->]; auto; fail).
      intros ->. cbn [dst_swap dst_val] in HnD.
        specialize (HnD ltac:(discriminate) (mag_pos_nonempty B ltac:(lia))).
        unfold n in HnD. lia.
  - destruct (mpi_add_abs_spec K d A B HK WA WB Hd Hsum)
      as (X' & E & S' & M' & (Hok & _ & Hn) & Hkeep).
    rewrite E. cbn [bind]. eexists; split; [reflexivity|].
    cbn [andb]. rewrite mag_set_sign. unfold wfk, set_sign, n; cbn [s p].
    repeat split; auto.
    intros ->. apply (Hkeep I).
Qed.

Lemma mpi_add_mpi_spec K d A B :
  (K <= POLARSSL_MPI_MAX_LIMBS)%nat ->
  wfk K A -> wfk K B -> dst_fits K d ->
  mag A + mag B < Radix ^ Z.of_nat K ->
  exists X', mpi_add_mpi d A B = Ok X'
    /\ wfk K X'
    /\ mpi_val X' = mpi_val A + mpi_val B
    /\ s X' = (if (s A * s B <? 0) && (mag A <? mag B) then - s A else s A)
    /\ (d = DstA -> (n A <= n X')%nat).
Proof.
  intros HK WA WB Hd Hsum.
  destruct (mpi_addsub_spec K d A B (s A * s B <? 0) HK WA WB Hd Hsum)
    as (X' & E & W' & S' & M' & Hn).
  exists X'. unfold mpi_add_mpi.
  split; [destruct (s A * s B <? 0); exact E|].
  split; [assumption|]. split; [|auto].
  unfold mpi_val. rewrite S', M'.
  pose proof WA as (HA & SA & NA). pose proof WB as (HB & SB & NB).
  pose proof (mag_nonneg A HA). pose proof (mag_nonneg B HB).
  destruct SA as [-> | ->], SB as [-> | ->]; eval_sign_test; cbn [andb];
    destruct (Z.ltb_spec (mag A) (mag B)); lia.
Qed.

Lemma mpi_sub_mpi_spec K d A B :
  (K <= POLARSSL_MPI_MAX_LIMBS)%nat ->
  wfk K A -> wfk K B -> dst_fits K d ->
  mag A + mag B < Radix ^ Z.of_nat K ->
  exists X', mpi_sub_mpi d A B = Ok X'
    /\ wfk K X'
    /\ mpi_val X' = mpi_val A - mpi_val B
    /\ s X' = (if (0 <? s A * s B) && (mag A <? mag B) then - s A else s A)
    /\ (d = DstA -> (n A <= n X')%nat).
Proof.
  intros HK WA WB Hd Hsum.
  destruct (mpi_addsub_spec K d A B (0 <? s A * s B) HK WA WB Hd Hsum)
    as (X' & E & W' & S' & M' & Hn).
  exists X'. unfold mpi_sub_mpi.
  split; [destruct (0 <? s A * s B); exact E|].
  split; [assumption|]. split; [|auto].
  unfold mpi_val. rewrite S', M'.
  pose proof WA as (HA & SA & NA). pose proof WB as (HB & SB & NB).
  pose proof (mag_nonneg A HA). pose proof (mag_nonneg B HB).
  destruct SA as [-> | ->], SB as [-> | ->]; eval_sign_test; cbn [andb];
    destruct (Z.ltb_spec (mag A) (mag B)); lia.
Qed.

(** The value, sign and magnitude of a well-formed MPI. *)
Lemma mpi_val_mag X :
  limbs_ok (p X) -> (s X = 1 \/ s X = -1) -> Z.abs (mpi_val X) = mag X.
Proof.
  intros HX SX. pose proof (mag_nonneg X HX). unfold mpi_val.
  destruct SX as [-> | ->]; lia.
Qed.

Lemma mpi_val_pos_sign X :
  limbs_ok (p X) -> (s X = 1 \/ s X = -1) -> 0 < mpi_val X -> s X = 1.
Proof.
  intros HX SX. pose proof (mag_nonneg X HX). unfold mpi_val.
  destruct SX as [-> | ->]; lia.
Qed.


End AddSubSigned.

(** ** Bits: mpi_msb, mpi_lsb and the shifts *)

Section Bits.
Context {cfg : config}.

Lemma bit_test x j :
  Z.land (Z.shiftr x (Z.of_nat j)) 1 = (x / 2 ^ Z.of_nat j) mod 2.
Proof.
  rewrite Z.shiftr_div_pow2 by lia.
  change 1 with (Z.ones 1) at 1. rewrite Z.land_ones by lia. reflexivity.
Qed.

Lemma pow2_pos k : 0 < 2 ^ Z.of_nat k.
Proof. apply Z.pow_pos_nonneg; lia. Qed.

Lemma pow2_succ k : 2 ^ Z.of_nat (S k) = 2 * 2 ^ Z.of_nat k.
Proof. rewrite Nat2Z.inj_succ, Z.pow_succ_r by lia. reflexivity. Qed.

Lemma pow2_add a b : 2 ^ Z.of_nat (a + b) = 2 ^ Z.of_nat a * 2 ^ Z.of_nat b.
Proof. rewrite Nat2Z.inj_add, Z.pow_add_r by lia. reflexivity. Qed.

Lemma pow2_le a b : (a <= b)%nat -> 2 ^ Z.of_nat a <= 2 ^ Z.of_nat b.
Proof. intros; apply Z.pow_le_mono_r; lia. Qed.

Lemma pow2_lt_inv a b : 2 ^ Z.of_nat a < 2 ^ Z.of_nat b -> (a < b)%nat.
Proof.
  intros H. destruct (Nat.lt_ge_cases a b); [assumption|].
  pose proof (pow2_le b a ltac:(lia)). lia.
Qed.

Lemma Radix_2exp : Radix = 2 ^ Z.of_nat biL.
Proof. reflexivity. Qed.

Lemma Radix_split k :
  (k <= biL)%nat -> Radix = 2 ^ Z.of_nat k * 2 ^ Z.of_nat (biL - k).
Proof.
  intros H. rewrite <- pow2_add. unfold Radix. f_equal. lia.
Qed.

(** Bitwise or of a low part and a multiple of a power of two. *)
Lemma lor_disjoint lo hi k :
  0 <= lo < 2 ^ Z.of_nat k ->
  Z.lor (hi * 2 ^ Z.of_nat k) lo = hi * 2 ^ Z.of_nat k + lo.
Proof.
  intros Hlo. rewrite <- Z.lxor_lor, <- Z.add_nocarry_lxor; try reflexivity.
  - apply Z.bits_inj'. intros i Hi. rewrite Z.land_spec, Z.bits_0.
    destruct (Z.lt_ge_cases i (Z.of_nat k)).
    + rewrite Z.mul_pow2_bits_low by lia. reflexivity.
    + rewrite <- (Z.mod_small lo (2 ^ Z.of_nat k)) by lia.
      rewrite Z.mod_pow2_bits_high by lia. apply andb_false_r.
  - apply Z.bits_inj'. intros i Hi. rewrite Z.land_spec, Z.bits_0.
    destruct (Z.lt_ge_cases i (Z.of_nat k)).
    + rewrite Z.mul_pow2_bits_low by lia. reflexivity.
    + rewrite <- (Z.mod_small lo (2 ^ Z.of_nat k)) by lia.
      rewrite Z.mod_pow2_bits_high by lia. apply andb_false_r.
Qed.

Lemma lor_disjoint' lo hi k :
  0 <= lo < 2 ^ Z.of_nat k ->
  Z.lor lo (hi * 2 ^ Z.of_nat k) = lo + hi * 2 ^ Z.of_nat k.
Proof. intros H. rewrite Z.lor_comm, lor_disjoint by assumption. lia. Qed.

(** *** mpi_msb *)

Lemma msb_bits_spec j : forall x,
  0 <= x < 2 ^ Z.of_nat j ->
  x < 2 ^ Z.of_nat (msb_bits x j)
  /\ ((0 < msb_bits x j)%nat -> 2 ^ Z.of_nat (msb_bits x j - 1) <= x)
  /\ (msb_bits x j <= j)%nat.
Proof.
  induction j as [|j IH]; intros x Hx.
  - simpl. change (Z.of_nat 0) with 0 in *. rewrite Z.pow_0_r in *.
    repeat split; lia.
  - cbn [msb_bits]. rewrite bit_test. rewrite pow2_succ in Hx.
    pose proof (pow2_pos j) as Hp.
    destruct (Z.lt_ge_cases x (2 ^ Z.of_nat j)) as [Hlt|Hge].
    + rewrite Z.div_small by lia. rewrite Z.mod_0_l by lia.
      rewrite Z.eqb_refl. destruct (IH x ltac:(lia)) as (H1 & H2 & H3).
      repeat split; auto.
    + assert (x / 2 ^ Z.of_nat j = 1) as ->.
      { symmetry. apply (Z.div_unique x _ 1 (x - 2 ^ Z.of_nat j)); lia. }
      change (1 mod 2) with 1. change (1 =? 0) with false. cbv iota.
      rewrite pow2_succ. replace (S j - 1)%nat with j by lia.
      repeat split; lia.
Qed.

Lemma mpi_msb_spec X :
  limbs_ok (p X) -> p X <> [] ->
  exists m, mpi_msb X = Ok m
    /\ mag X < 2 ^ Z.of_nat m
    /\ ((0 < m)%nat -> 2 ^ Z.of_nat (m - 1) <= mag X)
    /\ (m <= n X * biL)%nat.
Proof.
  intros HX Hne. unfold mpi_msb.
  destruct (p X) as [|x0 l0] eqn:Ep; [contradiction|]. rewrite <- Ep in *.
  clear x0 l0 Ep.
  pose proof (scan_top_eff (p X) Hne) as Hst. fold (n X) in Hst.
  pose proof (eff_le (p X)) as Hle. fold (n X) in Hle.
  assert (Hn : (0 < n X)%nat).
  { unfold n. destruct (p X); [contradiction | simpl; lia]. }
  set (i := scan_top (p X) (n X - 1)) in *.
  rewrite rd_ok by (unfold n in *; lia). cbn [bind].
  eexists; split; [reflexivity|].
  pose proof (limbs_ok_nth (p X) i HX) as Hx.
  destruct (msb_bits_spec biL (nth i (p X) 0) Hx) as (H1 & H2 & H3).
  set (b := msb_bits (nth i (p X) 0) biL) in *.
  destruct (eff (p X)) as [|k] eqn:E.
  - assert (i = 0%nat) by lia. subst i.
    assert (Hz : mag X = 0) by (apply eff_zero_iff; auto).
    assert (Hx0 : nth 0 (p X) 0 = 0) by (apply limbs_val_zero_all; auto).
    rewrite H. rewrite H in *. rewrite Hx0 in *. rewrite Hz.
    repeat split; try lia; try apply pow2_pos.
  - assert (i = k) by lia. subst i. rewrite H in *. clear H.
    pose proof (eff_nth_top _ _ E) as Hnz.
    assert (Hm : mag X = limbs_val (firstn k (p X))
                         + Radix ^ Z.of_nat k * nth k (p X) 0).
    { unfold mag. rewrite <- (eff_firstn (p X)), E.
      apply limbs_val_firstn_S. unfold n in *. lia. }
    pose proof (limbs_val_bound _ (limbs_ok_firstn k (p X) HX)) as Hb.
    rewrite length_firstn in Hb.
    replace (Nat.min k (length (p X))) with k in Hb by (unfold n in *; lia).
    assert (Hbpos : (0 < b)%nat).
    { destruct b; [|lia]. change (Z.of_nat 0) with 0 in H1.
      rewrite Z.pow_0_r in H1. lia. }
    specialize (H2 Hbpos).
    rewrite Radix_pow_2exp in Hm, Hb.
    replace (k * biL + b)%nat with (biL * k + b)%nat by lia.
    split; [|split].
    + rewrite pow2_add. nia.
    + intros _. replace (biL * k + b - 1)%nat with (biL * k + (b - 1))%nat by lia.
      rewrite pow2_add. pose proof (pow2_pos (biL * k)). nia.
    + nia.
Qed.

(** *** mpi_lsb *)

Lemma lsb_bits_spec k : forall x j,
  0 <= x -> x mod 2 ^ Z.of_nat j = 0 ->
  match lsb_bits x j k with
  | Some j' => (j <= j' < j + k)%nat
               /\ x mod 2 ^ Z.of_nat j' = 0
               /\ (x / 2 ^ Z.of_nat j') mod 2 = 1
  | None => x mod 2 ^ Z.of_nat (j + k) = 0
  end.
Proof.
  induction k as [|k IH]; intros x j Hx Hj; cbn [lsb_bits].
  - rewrite Nat.add_0_r. assumption.
  - rewrite bit_test. pose proof (pow2_pos j) as Hp.
    pose proof (Z.mod_pos_bound (x / 2 ^ Z.of_nat j) 2 ltac:(lia)) as Hb.
    destruct (Z.eqb_spec ((x / 2 ^ Z.of_nat j) mod 2) 0) as [E|E].
    + assert (Hj' : x mod 2 ^ Z.of_nat (S j) = 0).
      { rewrite pow2_succ.
        rewrite (Z.mul_comm 2), Z.rem_mul_r by lia. rewrite Hj, E. lia. }
      specialize (IH x (S j) Hx Hj').
      destruct (lsb_bits x (S j) k).
      * destruct IH as (H1 & H2 & H3). repeat split; auto; lia.
      * replace (j + S k)%nat with (S j + k)%nat by lia. assumption.
    + repeat split; try lia; assumption.
Qed.

Lemma lsb_limbs_spec l : forall count,
  limbs_ok l ->
  (limbs_val l = 0 -> lsb_limbs l count = 0%nat)
  /\ (limbs_val l <> 0 ->
      exists t, lsb_limbs l count = (count + t)%nat
        /\ limbs_val l mod 2 ^ Z.of_nat t = 0
        /\ (limbs_val l / 2 ^ Z.of_nat t) mod 2 = 1).
Proof.
  pose proof Radix_pos as HR.
  induction l as [|x l IH]; intros count Hl.
  - simpl. split; [reflexivity | congruence].
  - apply limbs_ok_cons in Hl as [Hx Hl]. cbn [lsb_limbs limbs_val].
    pose proof (limbs_val_nonneg l Hl) as Hv.
    pose proof (lsb_bits_spec biL x 0 ltac:(lia)) as Hb.
    change (Z.of_nat 0) with 0 in Hb. rewrite Z.pow_0_r in Hb.
    specialize (Hb (Z.mod_1_r x)).
    destruct (lsb_bits x 0 biL) as [j|].
    + destruct Hb as (H1 & H2 & H3). split.
      * intros H0. assert (x = 0) by nia. subst x.
        rewrite Z.div_0_l in H3 by (pose proof (pow2_pos j); lia).
        rewrite Z.mod_0_l in H3 by lia. lia.
      * intros _. exists j. split; [reflexivity|].
        rewrite (Radix_split j) by lia.
        pose proof (pow2_pos j). pose proof (pow2_pos (biL - j)).
        assert (Hx' : x = 2 ^ Z.of_nat j * (x / 2 ^ Z.of_nat j)).
        { pose proof (Z.div_mod x (2 ^ Z.of_nat j) ltac:(lia)). lia. }
        set (q := x / 2 ^ Z.of_nat j) in *.
        replace (x + 2 ^ Z.of_nat j * 2 ^ Z.of_nat (biL - j) * limbs_val l)
          with ((q + 2 ^ Z.of_nat (biL - j) * limbs_val l) * 2 ^ Z.of_nat j)
          by lia.
        rewrite Z.mod_mul, Z.div_mul by lia. split; [reflexivity|].
        replace (biL - j)%nat with (S (biL - j - 1)) by lia.
        rewrite pow2_succ.
        replace (q + 2 * 2 ^ Z.of_nat (biL - j - 1) * limbs_val l)
          with (q + (2 ^ Z.of_nat (biL - j - 1) * limbs_val l) * 2) by lia.
        rewrite Z_mod_plus_full. assumption.
    + simpl in Hb. fold Radix in Hb.
      assert (x = 0) as ->.
      { rewrite Z.mod_small in Hb by lia. assumption. }
      destruct (IH (count + biL)%nat Hl) as [I1 I2]. split.
      * intros H0. apply I1. lia.
      * intros Hnz. destruct I2 as (t & E & H2 & H3); [lia|].
        exists (biL + t)%nat. split; [rewrite E; lia|].
        rewrite pow2_add. fold Radix. rewrite Z.add_0_l.
        pose proof (pow2_pos t).
        rewrite Z.mul_mod_distr_l, H2 by lia.
        rewrite Z.div_mul_cancel_l by lia. split; [lia | assumption].
Qed.

Lemma mpi_lsb_spec X :
  limbs_ok (p X) ->
  (mag X = 0 -> mpi_lsb X = 0%nat)
  /\ (mag X <> 0 ->
      mag X mod 2 ^ Z.of_nat (mpi_lsb X) = 0
      /\ (mag X / 2 ^ Z.of_nat (mpi_lsb X)) mod 2 = 1).
Proof.
  intros HX. destruct (lsb_limbs_spec (p X) 0 HX) as [H1 H2].
  split; [exact H1|]. intros Hnz.
  destruct (H2 Hnz) as (t & E & H3 & H4). unfold mpi_lsb. rewrite E.
  simpl. auto.
Qed.

End Bits.

Section Shifts.
Context {cfg : config}.

Lemma BITS_TO_LIMBS_ge i : (i <= BITS_TO_LIMBS i * biL)%nat.
Proof.
  unfold BITS_TO_LIMBS. pose proof biL_pos.
  pose proof (Nat.div_mod_eq (i + biL - 1) biL).
  pose proof (Nat.mod_upper_bound (i + biL - 1) biL ltac:(lia)). nia.
Qed.

Lemma BITS_TO_LIMBS_le i K : (i <= K * biL)%nat -> (BITS_TO_LIMBS i <= K)%nat.
Proof.
  intros H. unfold BITS_TO_LIMBS. pose proof biL_pos.
  assert ((i + biL - 1) / biL < S K)%nat; [|lia].
  apply Nat.Div0.div_lt_upper_bound. nia.
Qed.

Lemma BITS_TO_LIMBS_mono i j :
  (i <= j)%nat -> (BITS_TO_LIMBS i <= BITS_TO_LIMBS j)%nat.
Proof.
  intros H. apply BITS_TO_LIMBS_le. pose proof (BITS_TO_LIMBS_ge j). lia.
Qed.

Lemma count_split count :
  2 ^ Z.of_nat count
  = Radix ^ Z.of_nat (count / biL) * 2 ^ Z.of_nat (count mod biL).
Proof.
  rewrite Radix_pow_2exp, <- pow2_add. f_equal. f_equal.
  pose proof (Nat.div_mod_eq count biL). lia.
Qed.

(** *** mpi_shift_r *)

Lemma shr_bits_spec v1 l :
  (0 < v1 < biL)%nat -> limbs_ok l ->
  limbs_ok (fst (shr_bits v1 l))
  /\ length (fst (shr_bits v1 l)) = length l
  /\ snd (shr_bits v1 l)
     = (limbs_val l mod 2 ^ Z.of_nat v1) * 2 ^ Z.of_nat (biL - v1)
  /\ limbs_val (fst (shr_bits v1 l)) = limbs_val l / 2 ^ Z.of_nat v1.
Proof.
  intros Hv. pose proof (pow2_pos v1) as Ha.
  pose proof (pow2_pos (biL - v1)) as Hb.
  pose proof (Radix_split v1 ltac:(lia)) as HR.
  set (a := 2 ^ Z.of_nat v1) in *. set (b := 2 ^ Z.of_nat (biL - v1)) in *.
  induction l as [|x t IH]; intros Hl.
  - cbn [shr_bits fst snd limbs_val length].
    rewrite Z.mod_0_l, Z.div_0_l by lia.
    repeat split; auto; constructor.
  - apply limbs_ok_cons in Hl as [Hx Ht].
    destruct (IH Ht) as (I1 & I2 & I3 & I4).
    cbn [shr_bits]. destruct (shr_bits v1 t) as [t' r0].
    cbn [fst snd] in *. cbn [limbs_val length].
    pose proof (limbs_val_nonneg t Ht) as HT.
    set (T := limbs_val t) in *.
    rewrite Z.shiftr_div_pow2, Z.shiftl_mul_pow2 by lia.
    fold a b. rewrite I3.
    assert (Hxa : 0 <= x / a < b).
    { split; [apply Z.div_pos; lia|].
      apply Z.div_lt_upper_bound; lia. }
    pose proof (Z.mod_pos_bound T a ltac:(lia)) as HTa.
    assert (Hlor : Z.lor (x / a) (T mod a * b) = x / a + T mod a * b).
    { unfold b at 1 2. apply lor_disjoint'. fold b. lia. }
    rewrite Hlor.
    split.
    { apply limbs_ok_cons; split; [nia | assumption]. }
    split; [lia|]. split.
    { unfold to_uint. rewrite HR. rewrite Z.mul_mod_distr_r by lia.
      f_equal. replace (x + a * b * T) with (x + (b * T) * a) by ring.
      rewrite Z_mod_plus_full. reflexivity. }
    rewrite I4, HR.
    replace (x + a * b * T) with (x + (b * T) * a) by ring.
    rewrite Z.div_add by lia.
    pose proof (Z.div_mod T a ltac:(lia)). nia.
Qed.

Lemma mpi_shift_r_spec X count :
  limbs_ok (p X) -> (1 <= POLARSSL_MPI_MAX_LIMBS)%nat ->
  exists X', mpi_shift_r X count = Ok X'
    /\ mag X' = mag X / 2 ^ Z.of_nat count
    /\ limbs_ok (p X')
    /\ (s X' = s X \/ (mag X' = 0 /\ s X' = 1))
    /\ (n X <= n X' <= Nat.max (n X) 1)%nat.
Proof.
  intros HX Hcap. unfold mpi_shift_r.
  pose proof biL_pos as HbiL.
  pose proof (Nat.div_mod_eq count biL) as Hdm.
  pose proof (Nat.mod_upper_bound count biL ltac:(lia)) as Hmod.
  set (v0 := (count / biL)%nat) in *. set (v1 := (count mod biL)%nat) in *.
  pose proof (mag_bound X HX) as HB.
  destruct ((n X <? v0)%nat || ((v0 =? n X)%nat && (0 <? v1)%nat)) eqn:Ec.
  - destruct (mpi_lset_spec X 0 Hcap Radix_gt_0_sint)
      as (X' & E & S' & M' & N' & Hok).
    exists X'. rewrite E. split; [reflexivity|].
    assert (Hbig : Radix ^ Z.of_nat (n X) <= 2 ^ Z.of_nat count).
    { rewrite Radix_pow_2exp. apply pow2_le.
      apply orb_true_iff in Ec as [Ec|Ec].
      - apply Nat.ltb_lt in Ec. nia.
      - apply andb_true_iff in Ec as [E1 E2].
        apply Nat.eqb_eq in E1. nia. }
    rewrite M', Z.div_small by lia.
    repeat split; auto; try lia.
  - apply orb_false_iff in Ec as [E1 E2]. apply Nat.ltb_ge in E1.
    set (l1 := if (0 <? v0)%nat then skipn v0 (p X) ++ repeat 0 v0 else p X).
    assert (Hl1 : limbs_ok l1 /\ length l1 = n X
                  /\ limbs_val l1 = mag X / Radix ^ Z.of_nat v0).
    { unfold l1. destruct (Nat.ltb_spec 0 v0).
      - split; [apply limbs_ok_app; split;
                [now apply limbs_ok_skipn | apply limbs_ok_repeat0]|].
        split; [rewrite length_app, length_skipn, repeat_length; unfold n in *; lia|].
        rewrite limbs_val_app_repeat0. apply limbs_val_skipn_div; auto.
      - replace v0 with 0%nat by lia. change (Z.of_nat 0) with 0.
        rewrite Z.pow_0_r, Z.div_1_r. auto. }
    destruct Hl1 as (Hok1 & Hlen1 & Hv1).
    eexists; split; [reflexivity|]. unfold mag at 1, n at 2 3; cbn [s p].
    rewrite (count_split count). fold v0 v1.
    rewrite <- Z.div_div by (try apply Radix_pow_pos; try apply pow2_pos;
                            pose proof (Radix_pow_pos v0); lia).
    rewrite <- Hv1.
    destruct (Nat.ltb_spec 0 v1) as [Hv|Hv].
    + destruct (shr_bits_spec v1 l1 ltac:(lia) Hok1) as (S1 & S2 & _ & S4).
      rewrite S2, Hlen1. repeat split; auto; lia.
    + replace v1 with 0%nat by lia. change (Z.of_nat 0) with 0.
      rewrite Z.pow_0_r, Z.div_1_r, Hlen1. repeat split; auto; lia.
Qed.

(** *** mpi_shift_l *)

Lemma n_mk sg l : n {| s := sg; p := l |} = length l.
Proof. reflexivity. Qed.

Lemma mag_mk sg l : mag {| s := sg; p := l |} = limbs_val l.
Proof. reflexivity. Qed.

Lemma carry_zero a r c v :
  0 <= a -> 0 < r -> 0 <= c -> a + r * c = v -> v < r -> c = 0.
Proof. intros. nia. Qed.

Lemma shift_fit_aux' v v0 t1 k :
  0 <= v -> (v0 <= k)%nat ->
  v * (Radix ^ Z.of_nat v0 * 2 ^ Z.of_nat t1) < Radix ^ Z.of_nat k ->
  v * 2 ^ Z.of_nat t1 < Radix ^ Z.of_nat (k - v0).
Proof.
  intros Hv Hk H. replace k with (v0 + (k - v0))%nat in H at 1 by lia.
  rewrite Radix_pow_add in H. pose proof (Radix_pow_pos v0).
  apply (Z.mul_lt_mono_pos_l (Radix ^ Z.of_nat v0)); [assumption|].
  lia.
Qed.

Lemma shift_fit_aux v v0 t1 k :
  0 <= v -> (v0 <= k)%nat ->
  v * (Radix ^ Z.of_nat v0 * 2 ^ Z.of_nat t1) < Radix ^ Z.of_nat k ->
  v < Radix ^ Z.of_nat (k - v0).
Proof.
  intros Hv Hk H. pose proof (shift_fit_aux' v v0 t1 k Hv Hk H).
  pose proof (pow2_pos t1). nia.
Qed.

Lemma shl_bits_spec t1 l : forall r0,
  (0 < t1 < biL)%nat -> limbs_ok l -> 0 <= r0 < 2 ^ Z.of_nat t1 ->
  exists cout, 0 <= cout < 2 ^ Z.of_nat t1
    /\ limbs_val (shl_bits t1 l r0) + Radix ^ Z.of_nat (length l) * cout
       = limbs_val l * 2 ^ Z.of_nat t1 + r0
    /\ limbs_ok (shl_bits t1 l r0)
    /\ length (shl_bits t1 l r0) = length l.
Proof.
  intros r0 Hv. revert r0. pose proof (pow2_pos t1) as Ha.
  pose proof (pow2_pos (biL - t1)) as Hb.
  pose proof (Radix_split t1 ltac:(lia)) as HR.
  set (a := 2 ^ Z.of_nat t1) in *. set (b := 2 ^ Z.of_nat (biL - t1)) in *.
  induction l as [|x t IH]; intros r0 Hl Hr.
  - exists r0. cbn [shl_bits limbs_val length].
    change (Z.of_nat 0) with 0. rewrite Z.pow_0_r.
    repeat split; try lia. constructor.
  - apply limbs_ok_cons in Hl as [Hx Ht].
    cbn [shl_bits]. rewrite Z.shiftr_div_pow2, Z.shiftl_mul_pow2 by lia.
    fold a b.
    assert (Hxb : 0 <= x / b < a).
    { split; [apply Z.div_pos; lia|].
      apply Z.div_lt_upper_bound; lia. }
    destruct (IH (x / b) Ht Hxb) as (cout & Hc & Hv' & Hok & Hlen).
    exists cout. split; [assumption|].
    assert (Hy : to_uint (x * a) = (x mod b) * a).
    { unfold to_uint. rewrite HR, (Z.mul_comm a b).
      apply Z.mul_mod_distr_r; lia. }
    rewrite Hy.
    assert (Hlor : Z.lor (x mod b * a) r0 = x mod b * a + r0).
    { unfold a at 1 2. apply lor_disjoint. fold a. lia. }
    rewrite Hlor.
    pose proof (Z.mod_pos_bound x b ltac:(lia)) as Hxm.
    pose proof (Z.div_mod x b ltac:(lia)) as Hdm.
    cbn [limbs_val length]. rewrite Radix_pow_succ.
    split; [|split].
    + rewrite HR in *. nia.
    + apply limbs_ok_cons; split; [|assumption]. rewrite HR; nia.
    + rewrite Hlen. reflexivity.
Qed.

Lemma mpi_shift_l_spec K X count :
  limbs_ok (p X) -> p X <> [] ->
  (n X <= K)%nat -> (K <= POLARSSL_MPI_MAX_LIMBS)%nat ->
  mag X * 2 ^ Z.of_nat count < Radix ^ Z.of_nat K ->
  (count <= K * biL)%nat ->
  exists X' m, mpi_shift_l X count = Ok X'
    /\ mpi_msb X = Ok m
    /\ mag X' = mag X * 2 ^ Z.of_nat count
    /\ s X' = s X
    /\ limbs_ok (p X')
    /\ n X' = Nat.max (n X) (BITS_TO_LIMBS (m + count))
    /\ (n X' <= K)%nat.
Proof.
  intros HX Hne HnK HK Hfit Hcnt. unfold mpi_shift_l.
  destruct (mpi_msb_spec X HX Hne) as (m & Em & M1 & M2 & M3).
  rewrite Em. cbn [bind].
  pose proof biL_pos as HbiL.
  pose proof (Nat.div_mod_eq count biL) as Hdm.
  pose proof (Nat.mod_upper_bound count biL ltac:(lia)) as Hmod.
  set (v0 := (count / biL)%nat) in *. set (t1 := (count mod biL)%nat) in *.
  pose proof (mag_bound X HX) as HB.
  pose proof (pow2_pos count) as Hpc.
  assert (Hmc : (m + count <= K * biL)%nat).
  { destruct m as [|m']; [lia|].
    specialize (M2 ltac:(lia)). replace (S m' - 1)%nat with m' in M2 by lia.
    rewrite Radix_pow_2exp in Hfit.
    assert (2 ^ Z.of_nat (m' + count) < 2 ^ Z.of_nat (biL * K)).
    { rewrite pow2_add.
      apply Z.le_lt_trans with (mag X * 2 ^ Z.of_nat count);
        [apply Z.mul_le_mono_nonneg_r; lia | exact Hfit]. }
    apply pow2_lt_inv in H. lia. }
  pose proof (BITS_TO_LIMBS_le _ _ Hmc) as Hbtl.
  pose proof (BITS_TO_LIMBS_ge (m + count)) as Hbtg.
  set (nb := BITS_TO_LIMBS (m + count)) in *.
  assert (HX1 : exists X1,
             (if (n X * biL <? m + count)%nat then mpi_grow X nb else Ok X)
             = Ok X1
             /\ s X1 = s X /\ mag X1 = mag X /\ limbs_ok (p X1)
             /\ n X1 = Nat.max (n X) nb
             /\ (m + count <= n X1 * biL)%nat).
  { destruct (Nat.ltb_spec (n X * biL) (m + count)) as [Hlt|Hge].
    - destruct (mpi_grow_spec X nb ltac:(lia)) as (X1 & E & S1 & M1' & N1 & Hok).
      exists X1. repeat split; auto. rewrite N1.
      apply Nat.le_trans with (nb * biL)%nat; [exact Hbtg|].
      apply Nat.mul_le_mono_r. lia.
    - exists X. repeat split; auto.
      assert (nb <= n X)%nat; [|lia].
      apply BITS_TO_LIMBS_le. lia. }
  destruct HX1 as (X1 & -> & S1 & Mg1 & Hok1 & N1 & Hcap1). cbn [bind].
  exists {| s := s X1;
            p := (if (0 <? t1)%nat
                  then firstn v0
                         (if (0 <? v0)%nat
                          then firstn (n X1) (repeat 0 v0 ++ p X1) else p X1)
                       ++ shl_bits t1
                            (skipn v0
                               (if (0 <? v0)%nat
                                then firstn (n X1) (repeat 0 v0 ++ p X1)
                                else p X1)) 0
                  else (if (0 <? v0)%nat
                        then firstn (n X1) (repeat 0 v0 ++ p X1) else p X1)) |}.
  exists m. split; [reflexivity|]. split; [reflexivity|].
  cbn [s]. rewrite mag_mk.
  assert (Hv0 : (v0 <= n X1)%nat).
  { destruct (Nat.le_gt_cases v0 (n X1)) as [H|H]; [exact H|]. exfalso.
    assert (H2 : (biL * S (n X1) <= biL * v0)%nat)
      by (apply Nat.mul_le_mono_l; lia).
    clear - H2 Hcap1 Hdm HbiL. lia. }
  (* the limbs after the move by whole limbs *)
  set (l1 := if (0 <? v0)%nat
             then firstn (n X1) (repeat 0 v0 ++ p X1) else p X1).
  assert (Hfit1 : mag X * 2 ^ Z.of_nat count < Radix ^ Z.of_nat (n X1)).
  { destruct m as [|m'].
    - change (Z.of_nat 0) with 0 in M1. rewrite Z.pow_0_r in M1.
      assert (mag X = 0) by lia. rewrite H, Z.mul_0_l. apply Radix_pow_pos.
    - rewrite Radix_pow_2exp.
      apply Z.lt_le_trans with (2 ^ Z.of_nat (S m' + count)).
      + rewrite pow2_add. apply Z.mul_lt_mono_pos_r; assumption.
      + apply pow2_le. lia. }
  rewrite (count_split count) in Hfit1. fold v0 t1 in Hfit1.
  pose proof (Radix_pow_pos v0) as HRv. pose proof (pow2_pos t1) as Hpt.
  assert (Hsk : limbs_ok (skipn v0 l1)
                /\ length (skipn v0 l1) = (n X1 - v0)%nat
                /\ limbs_val (skipn v0 l1) = mag X
                /\ firstn v0 l1 = repeat 0 v0).
  { unfold l1. destruct (Nat.ltb_spec 0 v0) as [H0|H0].
    - assert (Hfs : firstn (n X1) (repeat 0 v0 ++ p X1)
                    = repeat 0 v0 ++ firstn (n X1 - v0) (p X1)).
      { rewrite firstn_app, repeat_length.
        rewrite firstn_all2 by (rewrite repeat_length; lia). reflexivity. }
      rewrite Hfs.
      rewrite skipn_app, repeat_length, skipn_all2 by (rewrite repeat_length; lia).
      rewrite Nat.sub_diag. cbn [app skipn].
      rewrite firstn_app. rewrite ?repeat_length.
      rewrite Nat.sub_diag.
      rewrite (firstn_all2 (repeat 0 v0)) by (rewrite repeat_length; lia).
      cbn [firstn]. rewrite app_nil_r.
      split; [now apply limbs_ok_firstn|].
      split; [rewrite length_firstn; unfold n; clear - Hv0; lia|].
      split; [|reflexivity].
      rewrite limbs_val_firstn_mod by (auto; unfold n; clear - Hv0; lia).
      fold (mag X1). rewrite Mg1. apply Z.mod_small.
      split; [lia|].
      apply (shift_fit_aux (mag X) v0 t1 (n X1)); auto.
      apply mag_nonneg; assumption.
    - replace v0 with 0%nat in * by lia. cbn [skipn firstn repeat].
      rewrite Nat.sub_0_r. repeat split; auto. }
  destruct Hsk as (Hsk1 & Hsk2 & Hsk3 & Hsk4).
  assert (Hl1 : limbs_ok l1 /\ length l1 = n X1
                /\ limbs_val l1 = mag X * Radix ^ Z.of_nat v0).
  { rewrite <- (firstn_skipn v0 l1). rewrite Hsk4.
    split; [apply limbs_ok_app; split; [apply limbs_ok_repeat0 | assumption]|].
    split; [rewrite length_app, repeat_length, Hsk2; clear - Hv0; lia|].
    rewrite limbs_val_app, limbs_val_repeat0, repeat_length, Hsk3. ring. }
  destruct Hl1 as (Hl1a & Hl1b & Hl1c).
  destruct (Nat.ltb_spec 0 t1) as [Ht|Ht].
  - destruct (shl_bits_spec t1 (skipn v0 l1) 0 ltac:(lia) Hsk1 ltac:(lia))
      as (cout & Hc & Hv & Hok & Hlen).
    rewrite Hsk4. rewrite Hsk2, Hsk3, Z.add_0_r in Hv.
    assert (cout = 0).
    { assert (Hm0 : 0 <= mag X) by (apply mag_nonneg; assumption).
      apply (carry_zero _ _ _ _ (limbs_val_nonneg _ Hok)
               (Radix_pow_pos (n X1 - v0)) (proj1 Hc) Hv).
      exact (shift_fit_aux' (mag X) v0 t1 (n X1) Hm0 Hv0 Hfit1). }
    subst cout. rewrite Z.mul_0_r, Z.add_0_r in Hv.
    rewrite limbs_val_app, limbs_val_repeat0, repeat_length, Hv.
    rewrite !n_mk, length_app, repeat_length, Hlen, Hsk2.
    rewrite (count_split count). fold v0 t1.
    split; [ring|]. split; [assumption|].
    split; [apply limbs_ok_app; split; [apply limbs_ok_repeat0 | assumption]|].
    clear - Hv0 N1 HnK Hbtl. split; lia.
  - rewrite !n_mk, Hl1c, Hl1b. rewrite (count_split count). fold v0 t1.
    replace t1 with 0%nat by lia. change (Z.of_nat 0) with 0.
    rewrite Z.pow_0_r. split; [ring|]. split; [assumption|].
    split; [assumption|]. clear - Hv0 N1 HnK Hbtl. split; lia.
Qed.

End Shifts.

(** ** Multiplication *)

Section Mul.
Context {cfg : config}.

Lemma MULADDC_CORE_spec x y b c :
  0 <= x < Radix -> 0 <= y < Radix -> 0 <= b < Radix -> 0 <= c < Radix ->
  fst (MULADDC_CORE x y b c) + Radix * snd (MULADDC_CORE x y b c)
  = x * b + c + y
  /\ 0 <= fst (MULADDC_CORE x y b c) < Radix
  /\ 0 <= snd (MULADDC_CORE x y b c) < Radix.
Proof.
  intros Hx Hy Hb Hc. unfold MULADDC_CORE. cbn [fst snd].
  pose proof Radix_gt_1 as HR.
  assert (Hr : 0 <= x * b <= (Radix - 1) * (Radix - 1)).
  { split; [apply Z.mul_nonneg_nonneg; lia|].
    apply Z.mul_le_mono_nonneg; lia. }
  set (r0 := to_uint (x * b)). set (r1 := x * b / Radix).
  assert (Hm : 0 <= r0 < Radix) by apply to_uint_range.
  assert (Hdm : x * b = Radix * r1 + r0).
  { unfold r0, r1, to_uint. apply Z.div_mod. lia. }
  assert (Hq : 0 <= r1 <= Radix - 2).
  { split; [apply Z.div_pos; lia|].
    assert (r1 < Radix - 1); [|lia].
    apply Z.div_lt_upper_bound; nia. }
  rewrite (to_uint_small r1) by lia.
  rewrite (mod_add_cases (r0 + c)) by lia.
  destruct (Z.ltb_spec (r0 + c) Radix).
  - destruct (Z.ltb_spec (r0 + c) c); [lia|]. cbn [b2z].
    rewrite (to_uint_small (r1 + 0)) by lia.
    rewrite (mod_add_cases (r0 + c + y)) by lia.
    destruct (Z.ltb_spec (r0 + c + y) Radix).
    + destruct (Z.ltb_spec (r0 + c + y) y); [lia|]. cbn [b2z].
      rewrite (to_uint_small (r1 + 0 + 0)) by lia. lia.
    + destruct (Z.ltb_spec (r0 + c + y - Radix) y); [|lia]. cbn [b2z].
      rewrite (to_uint_small (r1 + 0 + 1)) by lia. lia.
  - destruct (Z.ltb_spec (r0 + c - Radix) c); [|lia]. cbn [b2z].
    rewrite (to_uint_small (r1 + 1)) by lia.
    rewrite (mod_add_cases (r0 + c - Radix + y)) by lia.
    destruct (Z.ltb_spec (r0 + c - Radix + y) Radix).
    + destruct (Z.ltb_spec (r0 + c - Radix + y) y); [lia|]. cbn [b2z].
      rewrite (to_uint_small (r1 + 1 + 0)) by lia. lia.
    + destruct (Z.ltb_spec (r0 + c - Radix + y - Radix) y); [|lia].
      cbn [b2z].
      assert (r1 + 2 < Radix) by nia.
      rewrite (to_uint_small (r1 + 1 + 1)) by lia. lia.
Qed.

Lemma mul_ripple_spec dl : forall c,
  limbs_ok dl -> 0 <= c < Radix -> (0 < length dl)%nat ->
  limbs_val dl + c < Radix ^ Z.of_nat (length dl) ->
  exists l', mul_ripple dl c = Ok l'
    /\ limbs_val l' = limbs_val dl + c
    /\ limbs_ok l'
    /\ length l' = length dl.
Proof.
  pose proof Radix_gt_1 as HR.
  induction dl as [|y dl IH]; intros c Hl Hc Hne Hfit.
  - simpl in Hne. lia.
  - apply limbs_ok_cons in Hl as [Hy Hl]. cbn [mul_ripple].
    cbn [limbs_val length] in Hfit. rewrite Radix_pow_succ in Hfit.
    pose proof (limbs_val_nonneg dl Hl) as Hv.
    rewrite mod_add_cases by lia.
    destruct (Z.ltb_spec (y + c) Radix).
    + destruct (Z.ltb_spec (y + c) c); [lia|]. cbn [b2z Z.eqb].
      exists (y + c :: dl). cbn [limbs_val length].
      split; [reflexivity|]. split; [lia|].
      split; [apply limbs_ok_cons; split; [lia | auto] | reflexivity].
    + destruct (Z.ltb_spec (y + c - Radix) c); [|lia]. cbn [b2z Z.eqb].
      assert (Hfit' : limbs_val dl + 1 < Radix ^ Z.of_nat (length dl)) by nia.
      assert (Hne' : (0 < length dl)%nat).
      { destruct dl; [|simpl; lia]. simpl in Hfit'. lia. }
      destruct (IH 1 Hl ltac:(lia) Hne' Hfit') as (l' & E & Hv' & Hok & Hlen).
      rewrite E. cbn [bind]. exists (y + c - Radix :: l').
      cbn [limbs_val length].
      split; [reflexivity|]. split; [rewrite Hv'; lia|].
      split; [apply limbs_ok_cons; split; [lia | auto] | lia].
Qed.

Lemma muladdc_spec sl : forall dl b c,
  limbs_ok sl -> limbs_ok dl -> 0 <= b < Radix -> 0 <= c < Radix ->
  (length sl < length dl)%nat ->
  limbs_val dl + limbs_val sl * b + c < Radix ^ Z.of_nat (length dl) ->
  exists l', muladdc sl dl b c = Ok l'
    /\ limbs_val l' = limbs_val dl + limbs_val sl * b + c
    /\ limbs_ok l'
    /\ length l' = length dl.
Proof.
  pose proof Radix_gt_1 as HR.
  induction sl as [|x sl IH]; intros dl b c Hs Hd Hb Hc Hlen Hfit.
  - cbn [muladdc limbs_val] in *. rewrite Z.mul_0_l, Z.add_0_r in *.
    apply mul_ripple_spec; auto.
  - destruct dl as [|y dl]; [simpl in Hlen; lia|].
    apply limbs_ok_cons in Hs as [Hx Hs].
    apply limbs_ok_cons in Hd as [Hy Hd].
    cbn [muladdc]. cbn [limbs_val length] in *.
    rewrite Radix_pow_succ in Hfit.
    destruct (MULADDC_CORE_spec x y b c Hx Hy Hb Hc) as (H1 & H2 & H3).
    destruct (MULADDC_CORE x y b c) as [r0 c']. cbn [fst snd] in *.
    pose proof (limbs_val_nonneg sl Hs) as Hvs.
    pose proof (limbs_val_nonneg dl Hd) as Hvd.
    destruct (IH dl b c' Hs Hd Hb H3 ltac:(lia)) as (l' & E & Hv & Hok & Hl).
    { assert (Radix * (limbs_val dl + limbs_val sl * b + c')
              < Radix * Radix ^ Z.of_nat (length dl)) by nia.
      nia. }
    rewrite E. cbn [bind]. exists (r0 :: l'). cbn [limbs_val length].
    split; [reflexivity|]. split; [rewrite Hv; nia|].
    split; [apply limbs_ok_cons; auto | lia].
Qed.

Lemma mpi_mul_hlp_spec i sl dl b :
  limbs_ok sl -> limbs_ok dl -> 0 <= b < Radix ->
  (i <= length sl)%nat -> (i < length dl)%nat ->
  limbs_val dl + limbs_val (firstn i sl) * b < Radix ^ Z.of_nat (length dl) ->
  exists l', mpi_mul_hlp i sl dl b = Ok l'
    /\ limbs_val l' = limbs_val dl + limbs_val (firstn i sl) * b
    /\ limbs_ok l'
    /\ length l' = length dl.
Proof.
  intros Hs Hd Hb Hi Hid Hfit. unfold mpi_mul_hlp.
  destruct (Nat.ltb_spec (length sl) i); [lia|].
  pose proof Radix_pos.
  destruct (muladdc_spec (firstn i sl) dl b 0) as (l' & E & Hv & Hok & Hl);
    auto; try lia.
  - now apply limbs_ok_firstn.
  - rewrite length_firstn. lia.
  - exists l'. rewrite E. repeat split; auto. lia.
Qed.

Lemma mul_loop_spec Ap i Bp Xlen T : forall j Xp,
  limbs_ok Ap -> limbs_ok Bp -> limbs_ok Xp ->
  (i <= length Ap)%nat -> (j <= length Bp)%nat ->
  length Xp = Xlen -> (i + j <= Xlen)%nat -> (1 <= Xlen)%nat ->
  limbs_val Xp + limbs_val (firstn i Ap) * limbs_val (firstn j Bp) = T ->
  T < Radix ^ Z.of_nat Xlen ->
  exists l', mul_loop Ap i Bp j Xp = Ok l'
    /\ limbs_val l' = T
    /\ limbs_ok l'
    /\ length l' = Xlen.
Proof.
  induction j as [|j IH]; intros Xp HA HB HX Hi Hj Hlen Hij H1 HT Hfit.
  - cbn [mul_loop firstn limbs_val] in *. exists Xp.
    repeat split; auto. lia.
  - cbn [mul_loop]. rewrite rd_ok by lia. cbn [bind].
    pose proof (limbs_ok_nth Bp j HB) as Hb.
    rewrite (limbs_val_firstn_S j Bp) in HT by lia.
    pose proof (limbs_val_nonneg _ (limbs_ok_firstn i Ap HA)) as HvA.
    pose proof (limbs_val_nonneg _ (limbs_ok_firstn j Bp HB)) as HvB.
    pose proof (limbs_val_split j Xp ltac:(lia)) as Hsp.
    pose proof (limbs_val_nonneg _ (limbs_ok_firstn j Xp HX)) as HvX1.
    pose proof (limbs_val_nonneg _ (limbs_ok_skipn j Xp HX)) as HvX2.
    pose proof (Radix_pow_pos j) as HRj.
    set (VA := limbs_val (firstn i Ap)) in *.
    set (b := nth j Bp 0) in *.
    destruct (mpi_mul_hlp_spec i Ap (skipn j Xp) b) as (dl & E & Hv & Hok & Hl);
      auto; try (rewrite length_skipn; lia); try (now apply limbs_ok_skipn).
    { fold VA. rewrite length_skipn.
      replace Xlen with (j + (Xlen - j))%nat in Hfit by lia.
      rewrite Radix_pow_add in Hfit. rewrite Hlen.
      apply (Z.mul_lt_mono_pos_l (Radix ^ Z.of_nat j)); [assumption|].
      nia. }
    rewrite E. cbn [bind]. fold VA in Hv.
    apply IH; auto; try lia.
    + apply limbs_ok_app; split; [now apply limbs_ok_firstn | assumption].
    + rewrite length_app, length_firstn, Hl, length_skipn. lia.
    + rewrite limbs_val_app, length_firstn, Hv.
      replace (Nat.min j (length Xp)) with j by lia. fold VA. lia.
Qed.


End Mul.

(** ** Single bits: mpi_get_bit and mpi_set_bit *)

Section Single_bits.
Context {cfg : config}.

Lemma land1_testbit x j :
  Z.land (Z.shiftr x (Z.of_nat j)) 1 = b2z (Z.testbit x (Z.of_nat j)).
Proof.
  change 1 with (Z.ones 1) at 1. rewrite Z.land_ones by lia.
  change (2 ^ 1) with 2. rewrite <- Z.bit0_mod.
  rewrite Z.shiftr_spec by lia. rewrite Z.add_0_l.
  destruct (Z.testbit x (Z.of_nat j)); reflexivity.
Qed.

Lemma testbit_limb l i j :
  limbs_ok l -> (j < biL)%nat ->
  Z.testbit (nth i l 0) (Z.of_nat j)
  = Z.testbit (limbs_val l) (Z.of_nat (i * biL + j)).
Proof.
  intros Hl Hj. rewrite (nth_limb l i Hl).
  rewrite Radix_pow_2exp. unfold Radix.
  rewrite Z.mod_pow2_bits_low by lia.
  rewrite Z.div_pow2_bits by lia. f_equal. lia.
Qed.

Lemma testbit_limbs_val l q :
  limbs_ok l ->
  Z.testbit (limbs_val l) (Z.of_nat q)
  = Z.testbit (nth (q / biL) l 0) (Z.of_nat (q mod biL)).
Proof.
  intros Hl. pose proof biL_pos as Hb.
  rewrite (testbit_limb l (q / biL) (q mod biL) Hl)
    by (apply Nat.mod_upper_bound; lia).
  f_equal. f_equal. pose proof (Nat.div_mod_eq q biL). lia.
Qed.

Lemma testbit_above x k j :
  0 <= x < 2 ^ Z.of_nat k -> (k <= j)%nat -> Z.testbit x (Z.of_nat j) = false.
Proof.
  intros Hx Hj. rewrite <- (Z.mod_small x (2 ^ Z.of_nat k)) by lia.
  apply Z.mod_pow2_bits_high. lia.
Qed.

Lemma to_uint_testbit x j :
  Z.testbit (to_uint x) (Z.of_nat j)
  = (j <? biL)%nat && Z.testbit x (Z.of_nat j).
Proof.
  unfold to_uint, Radix.
  destruct (Nat.ltb_spec j biL) as [H|H].
  - rewrite Z.mod_pow2_bits_low by lia. reflexivity.
  - rewrite Z.mod_pow2_bits_high by lia. reflexivity.
Qed.

Lemma bits_range x :
  0 <= x -> (forall j, (biL <= j)%nat -> Z.testbit x (Z.of_nat j) = false) ->
  0 <= x < Radix.
Proof.
  intros Hx Hb. split; [assumption|].
  assert (E : x = x mod Radix).
  { apply Z.bits_inj'. intros i Hi.
    rewrite <- (Z2Nat.id i Hi).
    fold (to_uint x). rewrite to_uint_testbit.
    destruct (Nat.ltb_spec (Z.to_nat i) biL) as [H|H]; [reflexivity|].
    rewrite Hb by assumption. reflexivity. }
  rewrite E. apply Z.mod_pos_bound. apply Radix_pos.
Qed.

(** The limb with bit [idx] replaced by [val]. *)
Lemma set_bit_limb x idx val :
  0 <= x < Radix -> (idx < biL)%nat -> val = 0 \/ val = 1 ->
  let x2 := Z.lor (Z.land x (to_uint (Z.lnot (to_uint
                                  (Z.shiftl 1 (Z.of_nat idx))))))
                  (to_uint (Z.shiftl val (Z.of_nat idx))) in
  0 <= x2 < Radix
  /\ forall j, Z.testbit x2 (Z.of_nat j)
               = if (j =? idx)%nat then val =? 1
                 else Z.testbit x (Z.of_nat j).
Proof.
  intros Hx Hidx Hval x2.
  assert (Hbits : forall j, Z.testbit x2 (Z.of_nat j)
                            = if (j =? idx)%nat then val =? 1
                              else Z.testbit x (Z.of_nat j)).
  { intros j. unfold x2.
    rewrite Z.lor_spec, Z.land_spec, !to_uint_testbit.
    rewrite Z.lnot_spec by lia. rewrite to_uint_testbit.
    rewrite !Z.shiftl_spec by lia.
    destruct (Nat.eqb_spec j idx) as [->|Hne].
    - rewrite Z.sub_diag.
      replace (idx <? biL)%nat with true by (symmetry; apply Nat.ltb_lt; lia).
      cbn [andb]. change (Z.testbit 1 0) with true. cbn [negb].
      rewrite andb_false_r. cbn [orb].
      destruct Hval as [-> | ->]; reflexivity.
    - destruct (Nat.ltb_spec j biL) as [Hj|Hj]; cbn [andb].
      + assert (Hb1 : forall v, v = 0 \/ v = 1 ->
                  Z.testbit v (Z.of_nat j - Z.of_nat idx) = false).
        { intros v Hv.
          destruct (Z.lt_ge_cases (Z.of_nat j - Z.of_nat idx) 0).
          - apply Z.testbit_neg_r; assumption.
          - destruct Hv as [-> | ->]; [apply Z.bits_0|].
            replace (Z.of_nat j - Z.of_nat idx) with (Z.of_nat (j - idx))
              by lia.
            apply (testbit_above 1 1 (j - idx)%nat); [|lia].
            change (2 ^ Z.of_nat 1) with 2. lia. }
        rewrite (Hb1 1) by auto. rewrite (Hb1 val Hval).
        cbn [negb]. rewrite andb_true_r, orb_false_r. reflexivity.
      + rewrite andb_false_r. cbn [orb]. symmetry.
        apply (testbit_above x biL j); [exact Hx | exact Hj]. }
  split; [|exact Hbits].
  apply bits_range.
  - unfold x2. apply Z.lor_nonneg. split.
    + apply Z.land_nonneg. left. lia.
    + apply to_uint_range.
  - intros j Hj. rewrite Hbits.
    destruct (Nat.eqb_spec j idx); [lia|].
    apply (testbit_above x biL j); [exact Hx | exact Hj].
Qed.

Lemma mpi_get_bit_spec X pos :
  limbs_ok (p X) ->
  mpi_get_bit X pos = Ok (b2z (Z.testbit (mag X) (Z.of_nat pos))).
Proof.
  intros HX. unfold mpi_get_bit. pose proof biL_pos as Hb.
  destruct (Nat.leb_spec (n X * biL) pos) as [H|H].
  - rewrite (testbit_above (mag X) (biL * n X) pos); [reflexivity| |lia].
    rewrite <- Radix_pow_2exp. apply mag_bound. exact HX.
  - assert (Hoff : (pos / biL < n X)%nat).
    { apply Nat.Div0.div_lt_upper_bound. lia. }
    rewrite rd_ok by exact Hoff. cbn [bind].
    rewrite land1_testbit. unfold mag.
    rewrite (testbit_limbs_val (p X) pos HX). reflexivity.
Qed.

Lemma pos_split (q pos : nat) :
  (0 < biL)%nat ->
  (q = pos <-> (q / biL = pos / biL /\ q mod biL = pos mod biL))%nat.
Proof.
  intros Hb. split; [intros ->; auto|]. intros [H1 H2].
  rewrite (Nat.div_mod_eq q biL), (Nat.div_mod_eq pos biL), H1, H2.
  reflexivity.
Qed.

Lemma mpi_set_bit_spec X pos val :
  limbs_ok (p X) -> val = 0 \/ val = 1 ->
  (pos / biL + 1 <= POLARSSL_MPI_MAX_LIMBS)%nat ->
  exists X', mpi_set_bit X pos val = Ok X'
    /\ s X' = s X
    /\ limbs_ok (p X')
    /\ (n X <= n X')%nat
    /\ forall q, Z.testbit (mag X') (Z.of_nat q)
                 = if (q =? pos)%nat then val =? 1
                   else Z.testbit (mag X) (Z.of_nat q).
Proof.
  intros HX Hval Hcap. unfold mpi_set_bit. pose proof biL_pos as Hb.
  assert (G1 : negb (val =? 0) && negb (val =? 1) = false)
    by (destruct Hval as [-> | ->]; reflexivity).
  rewrite G1.
  destruct ((n X * biL <=? pos)%nat && (val =? 0)) eqn:G2.
  - apply andb_true_iff in G2 as [G2 G3].
    apply Nat.leb_le in G2. apply Z.eqb_eq in G3. subst val.
    exists X. repeat split; auto.
    intros q. destruct (Nat.eqb_spec q pos) as [->|]; [|reflexivity].
    apply (testbit_above (mag X) (biL * n X) pos); [|lia].
    rewrite <- Radix_pow_2exp. apply mag_bound. exact HX.
  - assert (HX1 : exists X1,
               (if (n X * biL <=? pos)%nat then mpi_grow X (pos / biL + 1)
                else Ok X) = Ok X1
               /\ s X1 = s X /\ mag X1 = mag X /\ limbs_ok (p X1)
               /\ (n X <= n X1)%nat /\ (pos / biL < n X1)%nat).
    { destruct (Nat.leb_spec (n X * biL) pos) as [H|H].
      - destruct (mpi_grow_spec X (pos / biL + 1) Hcap)
          as (X1 & E & S1 & M1 & N1 & L1).
        exists X1. repeat split; auto; lia.
      - exists X. repeat split; auto.
        apply Nat.Div0.div_lt_upper_bound. lia. }
    destruct HX1 as (X1 & -> & S1 & M1 & L1 & N1 & Hoff). cbn [bind].
    rewrite rd_ok by exact Hoff. cbn [bind].
    unfold wr. replace (pos / biL <? length (p X1))%nat with true
      by (symmetry; apply Nat.ltb_lt; exact Hoff).
    cbn [bind].
    destruct (set_bit_limb (nth (pos / biL) (p X1) 0) (pos mod biL) val
                (limbs_ok_nth _ _ L1)
                (Nat.mod_upper_bound pos biL ltac:(lia)) Hval) as [Hr Hbits].
    eexists; split; [reflexivity|]. cbn [s p]. rewrite n_mk, upd_length.
    split; [exact S1|].
    split; [apply limbs_ok_upd; assumption|].
    split; [exact N1|].
    intros q. rewrite mag_mk. rewrite <- M1. unfold mag.
    rewrite (testbit_limbs_val _ q (limbs_ok_upd _ (pos / biL) _ L1 Hr)).
    rewrite (testbit_limbs_val _ q L1).
    destruct (Nat.eq_dec (q / biL) (pos / biL)) as [E|E].
    + rewrite E, nth_upd_same by exact Hoff. rewrite Hbits.
      destruct (Nat.eqb_spec (q mod biL) (pos mod biL)) as [E2|E2].
      * replace (q =? pos)%nat with true; [reflexivity|].
        symmetry. apply Nat.eqb_eq. apply pos_split; auto.
      * replace (q =? pos)%nat with false; [reflexivity|].
        symmetry. apply Nat.eqb_neq. intros ->. congruence.
    + rewrite nth_upd_other by congruence.
      replace (q =? pos)%nat with false; [reflexivity|].
      symmetry. apply Nat.eqb_neq. intros ->. congruence.
Qed.

End Single_bits.

(** ** mpi_mod_int *)

Section Mod_int.
Context {cfg : config}.

Lemma Radix_halves : Radix = 2 ^ Z.of_nat biH * 2 ^ Z.of_nat biH.
Proof.
  rewrite <- pow2_add. unfold Radix. f_equal. unfold biL, biH. lia.
Qed.

(** One half-limb step: [((y << biH) | h) mod b] for a half limb [h]. *)
Lemma mod_half_step b y h :
  2 <= b <= 2 ^ Z.of_nat biH -> 0 <= y < b -> 0 <= h < 2 ^ Z.of_nat biH ->
  let y1 := Z.lor (to_uint (Z.shiftl y (Z.of_nat biH))) h in
  to_uint (y1 - to_uint (y1 / b * b)) = (y * 2 ^ Z.of_nat biH + h) mod b.
Proof.
  intros Hb Hy Hh y1.
  pose proof Radix_halves as HR. pose proof (pow2_pos biH) as Hp.
  assert (HyH : 0 <= y * 2 ^ Z.of_nat biH
                /\ y * 2 ^ Z.of_nat biH + 2 ^ Z.of_nat biH <= Radix).
  { rewrite HR. split; [apply Z.mul_nonneg_nonneg; lia|].
    replace (y * 2 ^ Z.of_nat biH + 2 ^ Z.of_nat biH)
      with ((y + 1) * 2 ^ Z.of_nat biH) by ring.
    apply Z.mul_le_mono_nonneg_r; lia. }
  assert (E1 : y1 = y * 2 ^ Z.of_nat biH + h).
  { unfold y1. rewrite Z.shiftl_mul_pow2 by lia.
    rewrite to_uint_small by lia. apply lor_disjoint. exact Hh. }
  assert (Hy1 : 0 <= y1 < Radix) by lia.
  rewrite <- E1.
  pose proof (Z.div_mod y1 b ltac:(lia)) as Hdm.
  pose proof (Z.mod_pos_bound y1 b ltac:(lia)) as Hmb.
  assert (Hq0 : 0 <= y1 / b * b)
    by (apply Z.mul_nonneg_nonneg; [apply Z.div_pos|]; lia).
  assert (Hq : 0 <= y1 / b * b <= y1) by lia.
  rewrite (to_uint_small (y1 / b * b)) by lia.
  replace (y1 - y1 / b * b) with (y1 mod b) by lia.
  apply to_uint_small. lia.
Qed.

Lemma mod_int_step_spec b x y :
  2 <= b <= 2 ^ Z.of_nat biH -> 0 <= y < b -> 0 <= x < Radix ->
  mod_int_step b x y = (y * Radix + x) mod b.
Proof.
  intros Hb Hy Hx. unfold mod_int_step.
  pose proof Radix_halves as HR. pose proof (pow2_pos biH) as Hp.
  set (H := 2 ^ Z.of_nat biH) in *.
  assert (Hxh : Z.shiftr x (Z.of_nat biH) = x / H)
    by (apply Z.shiftr_div_pow2; lia).
  assert (Hxh' : 0 <= x / H < H).
  { split; [apply Z.div_pos; lia|]. apply Z.div_lt_upper_bound; lia. }
  assert (Hxl : to_uint (Z.shiftl x (Z.of_nat biH)) = (x mod H) * H).
  { rewrite Z.shiftl_mul_pow2 by lia. fold H. unfold to_uint. rewrite HR.
    rewrite Z.mul_mod_distr_r by lia. reflexivity. }
  pose proof (Z.mod_pos_bound x H Hp) as Hxm.
  assert (Hxl2 : Z.shiftr ((x mod H) * H) (Z.of_nat biH) = x mod H).
  { rewrite Z.shiftr_div_pow2 by lia. fold H. apply Z.div_mul. lia. }
  cbv zeta. rewrite Hxl, Hxl2, Hxh.
  rewrite (mod_half_step b y (x / H) Hb Hy Hxh').
  fold H.
  pose proof (Z.mod_pos_bound (y * H + x / H) b ltac:(lia)) as Hm1.
  rewrite (mod_half_step b ((y * H + x / H) mod b) (x mod H) Hb Hm1 Hxm).
  fold H.
  rewrite Z.add_mod, Z.mul_mod, Z.mod_mod by lia.
  rewrite <- Z.mul_mod, <- Z.add_mod by lia.
  f_equal. rewrite HR.
  pose proof (Z.div_mod x H ltac:(lia)). nia.
Qed.

Lemma mod_int_loop_spec b l :
  2 <= b <= 2 ^ Z.of_nat biH -> limbs_ok l ->
  mod_int_loop b l = limbs_val l mod b.
Proof.
  intros Hb. induction l as [|x l IH]; intros Hl.
  - simpl. rewrite Z.mod_0_l by lia. reflexivity.
  - apply limbs_ok_cons in Hl as [Hx Hl].
    cbn [mod_int_loop limbs_val]. rewrite IH by assumption.
    rewrite mod_int_step_spec; auto.
    + rewrite Z.add_mod, Z.mul_mod, Z.mod_mod by lia.
      rewrite <- Z.mul_mod, <- Z.add_mod by lia.
      f_equal. ring.
    + apply Z.mod_pos_bound. lia.
Qed.

Lemma cmp_int_0_sgn X :
  limbs_ok (p X) -> (s X = 1 \/ s X = -1) ->
  mpi_cmp_int X 0 = Z.sgn (mpi_val X).
Proof.
  intros HX SX. rewrite mpi_cmp_int_spec by (auto; apply Radix_gt_0_sint).
  f_equal. lia.
Qed.


End Mod_int.

(** ** mpi_montg_init *)

Section Montg_init.
Context {cfg : config}.

Lemma biL_ge_32 : (32 <= biL)%nat.
Proof. unfold biL, ciL. destruct width; lia. Qed.

Lemma to_uint_divide a : (Radix | to_uint a - a).
Proof.
  unfold to_uint. exists (- (a / Radix)).
  pose proof (Z.div_mod a Radix) as H. pose proof Radix_pos. lia.
Qed.

Lemma pow2_divide_Radix k : (k <= biL)%nat -> (2 ^ Z.of_nat k | Radix).
Proof.
  intros H. exists (2 ^ Z.of_nat (biL - k)).
  rewrite Z.mul_comm. apply Radix_split. exact H.
Qed.

Lemma to_uint_divide_pow2 k a :
  (k <= biL)%nat -> (2 ^ Z.of_nat k | to_uint a - a).
Proof.
  intros H. eapply Z.divide_trans; [apply pow2_divide_Radix; exact H|].
  apply to_uint_divide.
Qed.

(** One Newton step doubles the number of correct low bits of the
    inverse. *)
Lemma montg_step m0 x k :
  (2 * k <= biL)%nat ->
  (2 ^ Z.of_nat k | m0 * x - 1) ->
  (2 ^ Z.of_nat (2 * k)
   | m0 * to_uint (x * to_uint (2 - to_uint (m0 * x))) - 1).
Proof.
  intros Hk Hd.
  set (t := to_uint (m0 * x)). set (u := to_uint (2 - t)).
  set (D := 2 ^ Z.of_nat (2 * k)).
  assert (H1 : (D | to_uint (x * u) - x * u))
    by (apply to_uint_divide_pow2; lia).
  assert (H2 : (D | u - (2 - t))) by (apply to_uint_divide_pow2; lia).
  assert (H3 : (D | t - m0 * x)) by (apply to_uint_divide_pow2; lia).
  assert (H4 : (D | (m0 * x - 1) * (m0 * x - 1))).
  { unfold D. replace (2 * k)%nat with (k + k)%nat by lia.
    rewrite pow2_add. destruct Hd as [c Hc]. exists (c * c).
    rewrite Hc. ring. }
  replace (m0 * to_uint (x * u) - 1)
    with (m0 * (to_uint (x * u) - x * u) + m0 * x * (u - (2 - t))
          - m0 * x * (t - m0 * x) - (m0 * x - 1) * (m0 * x - 1)) by ring.
  apply Z.divide_sub_r; [|exact H4].
  apply Z.divide_sub_r; [|apply Z.divide_mul_r; exact H3].
  apply Z.divide_add_r; apply Z.divide_mul_r; assumption.
Qed.

Lemma land4_mod8 y : Z.land y 4 = Z.land (y mod 8) 4.
Proof.
  apply Z.bits_inj'. intros i Hi. rewrite !Z.land_spec.
  change 4 with (2 ^ 2). rewrite Z.pow2_bits_eqb by lia.
  destruct (Z.eqb_spec 2 i) as [<-|]; [|rewrite !andb_false_r; reflexivity].
  change 8 with (2 ^ 3). rewrite Z.mod_pow2_bits_low by lia. reflexivity.
Qed.

(** The start value is an inverse of [m0] modulo 16. *)
Lemma montg_start m0 :
  0 <= m0 < Radix -> m0 mod 2 = 1 ->
  (2 ^ Z.of_nat 4
   | m0 * to_uint (m0 + to_uint (Z.shiftl (Z.land (to_uint (m0 + 2)) 4) 1))
     - 1).
Proof.
  intros Hm Hodd. pose proof Radix_ge_256 as HR.
  pose proof biL_ge_32 as Hb8.
  set (c := to_uint (Z.shiftl (Z.land (to_uint (m0 + 2)) 4) 1)).
  assert (H8 : to_uint (m0 + 2) mod 8 = (m0 + 2) mod 8).
  { unfold to_uint. apply Z.mod_mod_divide.
    change 8 with (2 ^ Z.of_nat 3). apply pow2_divide_Radix. lia. }
  assert (Hx : (2 ^ Z.of_nat 4 | to_uint (m0 + c) - (m0 + c)))
    by (apply to_uint_divide_pow2; lia).
  assert (Hc : (2 ^ Z.of_nat 4 | m0 * (m0 + c) - 1)).
  { change (2 ^ Z.of_nat 4) with 16.
    assert (Ec : c = Z.shiftl (Z.land ((m0 + 2) mod 8) 4) 1).
    { unfold c. rewrite land4_mod8, H8.
      apply to_uint_small.
      pose proof (Z.mod_pos_bound (m0 + 2) 8 ltac:(lia)) as Hv.
      assert (Hcases : (m0 + 2) mod 8 = 0 \/ (m0 + 2) mod 8 = 1
                       \/ (m0 + 2) mod 8 = 2 \/ (m0 + 2) mod 8 = 3
                       \/ (m0 + 2) mod 8 = 4 \/ (m0 + 2) mod 8 = 5
                       \/ (m0 + 2) mod 8 = 6 \/ (m0 + 2) mod 8 = 7) by lia.
      destruct Hcases as [E|[E|[E|[E|[E|[E|[E|E]]]]]]]; rewrite E;
        cbn; lia. }
    pose proof (Z.div_mod m0 16 ltac:(lia)) as Hq.
    pose proof (Z.mod_pos_bound m0 16 ltac:(lia)) as Hr.
    remember (m0 / 16) as q eqn:Eq. remember (m0 mod 16) as r eqn:Er.
    clear Eq Er.
    assert (Hcases : r = 1 \/ r = 3 \/ r = 5 \/ r = 7 \/ r = 9 \/ r = 11
                     \/ r = 13 \/ r = 15)
      by (clear - Hodd Hq Hr; Z.to_euclidean_division_equations; lia).
    destruct Hcases as [E|[E|[E|[E|[E|[E|[E|E]]]]]]]; rewrite E in Hq;
      match type of Hq with
      | m0 = 16 * q + ?rv =>
          let v := eval cbv in ((rv + 2) mod 8) in
          assert (Ev : (m0 + 2) mod 8 = v)
            by (clear - Hq; Z.to_euclidean_division_equations; lia);
          rewrite Ev in Ec; cbn in Ec; rewrite Ec, Hq;
          let cc := eval cbv in (Z.shiftl (Z.land v 4) 1) in
          let k := eval cbv in ((rv * (rv + cc) - 1) / 16) in
          exists (q * (16 * q + 2 * rv + cc) + k); ring
      end. }
  replace (m0 * to_uint (m0 + c) - 1)
    with (m0 * (to_uint (m0 + c) - (m0 + c)) + (m0 * (m0 + c) - 1)) by ring.
  apply Z.divide_add_r; [apply Z.divide_mul_r|]; assumption.
Qed.

End Montg_init.

(** The loop runs three times for 32-bit limbs and four times for 64-bit
    limbs, from 4 correct bits to a whole limb. *)
Lemma montg_loop_correct {cfg : config} m0 x :
  (2 ^ Z.of_nat 4 | m0 * x - 1) ->
  (Radix | m0 * montg_loop biL biL m0 x - 1).
Proof.
  intros H.
  set (step := fun x => to_uint (x * to_uint (2 - to_uint (m0 * x)))).
  assert (Hw : biL = 32%nat \/ biL = 64%nat)
    by (unfold biL, ciL; destruct width; auto).
  rewrite Radix_2exp.
  pose proof (montg_step m0 x 4) as H1.
  pose proof (montg_step m0 (step x) 8) as H2.
  pose proof (montg_step m0 (step (step x)) 16) as H3.
  pose proof (montg_step m0 (step (step (step x))) 32) as H4.
  destruct Hw as [E|E]; rewrite E in *.
  - change (montg_loop 32 32 m0 x) with (step (step (step x))).
    apply H3; [lia|]. apply H2; [lia|]. apply H1; [lia|]. exact H.
  - change (montg_loop 64 64 m0 x) with (step (step (step (step x)))).
    apply H4; [lia|]. apply H3; [lia|]. apply H2; [lia|].
    apply H1; [lia|]. exact H.
Qed.

Lemma mpi_montg_init_spec {cfg : config} N :
  limbs_ok (p N) -> mag N mod 2 = 1 ->
  exists mm, mpi_montg_init N = Ok mm
    /\ 0 <= mm < Radix
    /\ (Radix | mag N * mm + 1).
Proof.
  intros HN Hodd. unfold mpi_montg_init.
  destruct (p N) as [|m0 l] eqn:Ep.
  { unfold mag in Hodd. rewrite Ep in Hodd. cbn in Hodd. discriminate. }
  apply limbs_ok_cons in HN as [Hm0 Hl].
  cbn [rd nth_error bind].
  assert (Hm : (Radix | mag N - m0)).
  { unfold mag. rewrite Ep. cbn [limbs_val]. exists (limbs_val l). ring. }
  assert (Hodd0 : m0 mod 2 = 1).
  { rewrite <- Hodd. unfold mag. rewrite Ep. cbn [limbs_val].
    rewrite Radix_2exp. pose proof biL_pos.
    replace (Z.of_nat biL) with (Z.succ (Z.of_nat (biL - 1))) by lia.
    rewrite Z.pow_succ_r by lia.
    replace (m0 + 2 * 2 ^ Z.of_nat (biL - 1) * limbs_val l)
      with (m0 + (2 ^ Z.of_nat (biL - 1) * limbs_val l) * 2) by ring.
    symmetry. apply Z.mod_add. lia. }
  pose proof (montg_loop_correct m0 _ (montg_start m0 Hm0 Hodd0)) as Hx.
  set (x := montg_loop biL biL m0 _) in *.
  eexists; split; [reflexivity|]. split; [apply to_uint_range|].
  set (mm := to_uint (to_uint (Z.lnot x) + 1)).
  assert (H1 : (Radix | mm - (to_uint (Z.lnot x) + 1)))
    by apply to_uint_divide.
  assert (H2 : (Radix | to_uint (Z.lnot x) - Z.lnot x))
    by apply to_uint_divide.
  replace (mag N * mm + 1)
    with ((mag N - m0) * mm + m0 * (mm - (to_uint (Z.lnot x) + 1))
          + m0 * (to_uint (Z.lnot x) - Z.lnot x) - (m0 * x - 1))
    by (unfold Z.lnot, Z.pred; ring).
  apply Z.divide_sub_r; [|exact Hx].
  apply Z.divide_add_r; [apply Z.divide_add_r|].
  - apply Z.divide_mul_l. exact Hm.
  - apply Z.divide_mul_r. exact H1.
  - apply Z.divide_mul_r. exact H2.
Qed.

(** ** Loops with a bound *)

Section Runs.

Lemma runs_to_ret {A} (a : A) : runs_to (fun _ => Ok a) a.
Proof. exists 0%nat. reflexivity. Qed.

Lemma runs_to_const {A} (r : res A) (a : A) :
  r = Ok a -> runs_to (fun _ => r) a.
Proof. intros ->. apply runs_to_ret. Qed.


Lemma runs_to_ext {A} (f g : nat -> res A) a :
  (forall fuel, f fuel = g fuel) -> runs_to g a -> runs_to f a.
Proof.
  intros E [f0 H]. exists f0. intros fuel Hf. rewrite E. auto.
Qed.

Lemma runs_to_inj {A} (f : nat -> res A) a b :
  runs_to f a -> runs_to f b -> a = b.
Proof.
  intros [f1 H1] [f2 H2].
  specialize (H1 (Nat.max f1 f2) ltac:(lia)).
  specialize (H2 (Nat.max f1 f2) ltac:(lia)). congruence.
Qed.

(** A [while] loop whose body may itself depend on the bound: an invariant
    and a measure that decreases give the final state. *)
Lemma while_runs {St} (Inv : St -> Prop) (measure : St -> nat)
  (cond : St -> bool) (body : nat -> St -> res St) :
  (forall st, Inv st -> cond st = true ->
     exists st', runs_to (fun fuel => body fuel st) st'
       /\ Inv st' /\ (measure st' < measure st)%nat) ->
  forall st, Inv st ->
  exists st' f0,
    (forall k F, (f0 <= k)%nat -> (f0 <= F)%nat ->
       while k cond (body F) st = Ok st')
    /\ Inv st' /\ cond st' = false.
Proof.
  intros Hbody st. remember (measure st) as m eqn:Em.
  revert st Em. induction m as [m IH] using lt_wf_ind. intros st Em Hinv.
  destruct (cond st) eqn:Ec.
  - destruct (Hbody st Hinv Ec) as (st1 & [f1 H1] & Hinv1 & Hm).
    destruct (IH (measure st1) ltac:(lia) st1 eq_refl Hinv1)
      as (st' & f2 & H2 & Hinv' & Hc').
    exists st', (S (Nat.max f1 f2)). split; [|auto].
    intros k F Hk HF. destruct k as [|k]; [lia|].
    cbn [while]. rewrite Ec, H1 by lia. cbn [bind]. apply H2; lia.
  - exists st, 1%nat. split; [|auto].
    intros k F Hk HF. destruct k as [|k]; [lia|].
    cbn [while]. rewrite Ec. reflexivity.
Qed.

Lemma while_runs_to {St} (Inv : St -> Prop) (measure : St -> nat)
  (cond : St -> bool) (body : nat -> St -> res St) :
  (forall st, Inv st -> cond st = true ->
     exists st', runs_to (fun fuel => body fuel st) st'
       /\ Inv st' /\ (measure st' < measure st)%nat) ->
  forall st, Inv st ->
  exists st',
    runs_to (fun fuel => while fuel cond (body fuel) st) st'
    /\ Inv st' /\ cond st' = false.
Proof.
  intros Hbody st Hinv.
  destruct (while_runs Inv measure cond body Hbody st Hinv)
    as (st' & f0 & H & Hinv' & Hc).
  exists st'. split; [|auto]. exists f0. intros fuel Hf. apply H; lia.
Qed.


End Runs.

(** ** Division: the quotient digit *)

Section DivDigit.
Context {cfg : config}.












End DivDigit.

(** ** Division: one quotient digit *)


Section DivStep.
Context {cfg : config}.






End DivStep.

Section DivRefine.
Context {cfg : config}.





End DivRefine.

Section DivStep.
Context {cfg : config}.







End DivStep.

Section DivLoop.
Context {cfg : config}.




End DivLoop.

Section DivFirst.
Context {cfg : config}.


Lemma sgn_nonneg_lt a b : (0 <=? Z.sgn (a - b)) = false -> a < b.
Proof.
  intros H. apply Z.leb_gt in H.
  destruct (Z.lt_ge_cases a b) as [H1|H1]; [assumption|].
  assert (0 <= Z.sgn (a - b)) by (apply Z.sgn_nonneg; lia). lia.
Qed.



End DivFirst.

Section DivNorm.
Context {cfg : config}.

Lemma biH_le : (biH <= biL - 2)%nat.
Proof. unfold biL, biH, ciL. destruct width; lia. Qed.






End DivNorm.

Section DivMain.
Context {cfg : config}.






Lemma Radix_pow_exact_div a j :
  a * 2 ^ Z.of_nat (biL * j) / 2 ^ Z.of_nat (biL * j) = a.
Proof. apply Z.div_mul. pose proof (pow2_pos (biL * j)). lia. Qed.


End DivMain.

Section DivResult.
Context {cfg : config}.



End DivResult.

Section ModMpi.
Context {cfg : config}.





End ModMpi.

Section BinaryIO.
Context {cfg : config}.

(** *** Byte buffers *)

Lemma byte_val_range b : 0 <= byte_val b < 256.
Proof.
  unfold byte_val. pose proof (Byte.to_N_bounded b) as H.
  clear - H. lia.
Qed.

Lemma byte_val_to_uint8 z : byte_val (to_uint8 z) = z mod 256.
Proof.
  unfold to_uint8, byte_val.
  pose proof (Z.mod_pos_bound z 256 ltac:(lia)) as Hz.
  destruct (Byte.of_N (Z.to_N (z mod 256))) as [b|] eqn:E.
  - apply Byte.to_of_N in E. rewrite E. rewrite Z2N.id; [reflexivity | lia].
  - apply Byte.of_N_None_iff in E. exfalso. clear - E Hz. lia.
Qed.

Lemma bytes_val_snoc a b : bytes_val (a ++ [b]) = bytes_val a * 256 + byte_val b.
Proof. unfold bytes_val. rewrite fold_left_app. reflexivity. Qed.

Lemma bytes_val_nonneg a : 0 <= bytes_val a.
Proof.
  induction a as [|b a IH] using rev_ind; [unfold bytes_val; simpl; lia|].
  rewrite bytes_val_snoc. pose proof (byte_val_range b). lia.
Qed.

Lemma bytes_val_app a b :
  bytes_val (a ++ b) = bytes_val a * 256 ^ Z.of_nat (length b) + bytes_val b.
Proof.
  induction b as [|x b IH] using rev_ind.
  - rewrite app_nil_r. unfold bytes_val at 3. simpl. lia.
  - rewrite app_assoc, !bytes_val_snoc, IH, length_app. cbn [length].
    replace (Z.of_nat (length b + 1)) with (Z.succ (Z.of_nat (length b))) by lia.
    rewrite Z.pow_succ_r by lia. ring.
Qed.

Lemma bytes_val_rev_cons b bs :
  bytes_val (rev (b :: bs)) = byte_val b + 256 * bytes_val (rev bs).
Proof. cbn [rev]. rewrite bytes_val_snoc. ring. Qed.

Lemma bytes_val_zeros k : bytes_val (repeat x00 k) = 0.
Proof.
  induction k as [|k IH]; [reflexivity|].
  cbn [repeat]. change (x00 :: repeat x00 k) with ([x00] ++ repeat x00 k).
  rewrite bytes_val_app, IH. reflexivity.
Qed.

Lemma bytes_val_bound a : bytes_val a < 256 ^ Z.of_nat (length a).
Proof.
  induction a as [|b a IH] using rev_ind; [unfold bytes_val; simpl; lia|].
  rewrite bytes_val_snoc, length_app. cbn [length].
  replace (Z.of_nat (length a + 1)) with (Z.succ (Z.of_nat (length a))) by lia.
  rewrite Z.pow_succ_r by lia. pose proof (byte_val_range b). lia.
Qed.

Lemma bytes_val_skip_zero buf :
  bytes_val (skipn (skip_zero_bytes buf) buf) = bytes_val buf.
Proof.
  induction buf as [|b buf IH]; [reflexivity|].
  cbn [skip_zero_bytes]. destruct (Z.eqb_spec (byte_val b) 0) as [E|E].
  - cbn [skipn]. rewrite IH.
    change (b :: buf) with ([b] ++ buf). rewrite bytes_val_app.
    unfold bytes_val at 2. cbn [fold_left]. rewrite E. reflexivity.
  - reflexivity.
Qed.

Lemma skip_zero_bytes_le buf : (skip_zero_bytes buf <= length buf)%nat.
Proof.
  induction buf as [|b buf IH]; [apply Nat.le_refl|].
  cbn [skip_zero_bytes length]. destruct (byte_val b =? 0); lia.
Qed.

Lemma skip_zero_bytes_zeros k l :
  (k <= skip_zero_bytes (repeat x00 k ++ l))%nat.
Proof.
  induction k as [|k IH]; [apply Nat.le_0_l|].
  cbn [repeat app skip_zero_bytes].
  change (byte_val x00 =? 0) with true. cbv iota. lia.
Qed.

(** *** Powers of 256 *)

Lemma pow256_2exp k : 256 ^ Z.of_nat k = 2 ^ Z.of_nat (8 * k).
Proof.
  change 256 with (2 ^ 8). rewrite <- Z.pow_mul_r by lia.
  f_equal. lia.
Qed.

Lemma pow256_pos k : 0 < 256 ^ Z.of_nat k.
Proof. apply Z.pow_pos_nonneg; lia. Qed.

Lemma pow256_succ k : 256 ^ Z.of_nat (S k) = 256 * 256 ^ Z.of_nat k.
Proof. rewrite Nat2Z.inj_succ, Z.pow_succ_r by lia. reflexivity. Qed.

Lemma biL_ciL : biL = (ciL * 8)%nat.
Proof. reflexivity. Qed.

(** Byte [j] lies in limb [j / ciL] at bit [(j mod ciL) * 8]. *)
Lemma pow256_split j :
  256 ^ Z.of_nat j
  = Radix ^ Z.of_nat (j / ciL) * 2 ^ Z.of_nat ((j mod ciL) * 8).
Proof.
  rewrite pow256_2exp, Radix_pow_2exp, <- pow2_add. f_equal. f_equal.
  pose proof (Nat.div_mod_eq j ciL) as H. rewrite biL_ciL.
  clear - H. nia.
Qed.

Lemma byte_shift_fits r :
  (r < ciL)%nat -> 256 * 2 ^ Z.of_nat (r * 8) <= Radix.
Proof.
  intros Hr. rewrite Radix_2exp. change 256 with (2 ^ Z.of_nat 8).
  rewrite <- pow2_add. apply pow2_le. rewrite biL_ciL. clear - Hr. lia.
Qed.

Lemma CHARS_TO_LIMBS_ge i : (i <= ciL * CHARS_TO_LIMBS i)%nat.
Proof.
  unfold CHARS_TO_LIMBS. pose proof ciL_pos as Hc.
  pose proof (Nat.div_mod_eq (i + ciL - 1) ciL) as H.
  pose proof (Nat.mod_upper_bound (i + ciL - 1) ciL ltac:(lia)) as H1.
  remember ((i + ciL - 1) / ciL)%nat as q. remember ((i + ciL - 1) mod ciL)%nat as r.
  clear - Hc H H1. nia.
Qed.

Lemma CHARS_TO_LIMBS_le i K : (i <= ciL * K)%nat -> (CHARS_TO_LIMBS i <= K)%nat.
Proof.
  intros H. unfold CHARS_TO_LIMBS. pose proof ciL_pos as Hc.
  apply Nat.lt_succ_r. apply Nat.Div0.div_lt_upper_bound.
  clear - H Hc. nia.
Qed.

Lemma CHARS_TO_LIMBS_mono i j :
  (i <= j)%nat -> (CHARS_TO_LIMBS i <= CHARS_TO_LIMBS j)%nat.
Proof.
  intros H. apply CHARS_TO_LIMBS_le.
  pose proof (CHARS_TO_LIMBS_ge j). lia.
Qed.

(** *** The loop of mpi_read_binary *)

Lemma read_bytes_spec bs : forall j l,
  limbs_ok l -> limbs_val l < 256 ^ Z.of_nat j ->
  (j + length bs <= ciL * length l)%nat ->
  exists l', read_bytes bs j l = Ok l'
    /\ limbs_ok l' /\ length l' = length l
    /\ limbs_val l' = limbs_val l + 256 ^ Z.of_nat j * bytes_val (rev bs).
Proof.
  induction bs as [|b bs IH]; intros j l Hl Hv Hlen.
  - exists l. split; [reflexivity|]. split; [exact Hl|]. split; [reflexivity|].
    cbn [rev]. unfold bytes_val. simpl. lia.
  - cbn [length] in Hlen. cbn [read_bytes].
    pose proof ciL_pos as Hc.
    assert (Hq : (j / ciL < length l)%nat).
    { apply Nat.Div0.div_lt_upper_bound. clear - Hlen. lia. }
    assert (Hr : (j mod ciL < ciL)%nat) by (apply Nat.mod_upper_bound; lia).
    rewrite rd_ok by exact Hq. cbn [bind].
    rewrite wr_ok by exact Hq. cbn [bind].
    set (q := (j / ciL)%nat) in *. set (r := (j mod ciL)%nat) in *.
    set (x := nth q l 0).
    pose proof (byte_val_range b) as Hb.
    pose proof (pow2_pos (r * 8)) as Hp.
    pose proof (byte_shift_fits r Hr) as Hfit.
    pose proof (Radix_pow_pos q) as HRq.
    assert (Hx : 0 <= x < 2 ^ Z.of_nat (r * 8)).
    { pose proof (limbs_ok_nth l q Hl) as Hx0. fold x in Hx0.
      split; [apply Hx0|].
      unfold x. rewrite (nth_limb l q Hl).
      pose proof (limbs_val_nonneg l Hl) as Hv0.
      assert (Hd : limbs_val l / Radix ^ Z.of_nat q < 2 ^ Z.of_nat (r * 8)).
      { apply Z.div_lt_upper_bound; [exact HRq|].
        rewrite (pow256_split j) in Hv. exact Hv. }
      assert (Hd0 : 0 <= limbs_val l / Radix ^ Z.of_nat q)
        by (apply Z.div_pos; [exact Hv0 | exact HRq]).
      pose proof (Z.mod_le _ Radix Hd0 Radix_pos) as Hm.
      clear - Hm Hd. lia. }
    assert (Hsh : to_uint (Z.shiftl (byte_val b) (Z.of_nat (r * 8)))
                  = byte_val b * 2 ^ Z.of_nat (r * 8)).
    { rewrite Z.shiftl_mul_pow2 by lia. apply to_uint_small.
      clear - Hb Hp Hfit. nia. }
    rewrite Hsh, lor_disjoint' by exact Hx.
    set (v := x + byte_val b * 2 ^ Z.of_nat (r * 8)).
    assert (Hvr : 0 <= v < Radix) by (unfold v; clear - Hb Hp Hfit Hx; nia).
    assert (Hval : limbs_val (upd l q v)
                   = limbs_val l + byte_val b * 256 ^ Z.of_nat j).
    { rewrite limbs_val_upd by exact Hq. fold x. unfold v.
      rewrite (pow256_split j). fold q r. ring. }
    pose proof (pow256_pos j) as Hpj.
    destruct (IH (S j) (upd l q v)) as (l' & E & Hok & Hlen' & Hv').
    + apply limbs_ok_upd; assumption.
    + rewrite Hval, pow256_succ. clear - Hv Hb Hpj. nia.
    + rewrite upd_length. clear - Hlen. lia.
    + exists l'. split; [exact E|]. split; [exact Hok|].
      split; [rewrite Hlen'; apply upd_length|].
      rewrite Hv', Hval, pow256_succ, bytes_val_rev_cons. ring.
Qed.

Lemma mpi_read_binary_spec X buf :
  (1 <= POLARSSL_MPI_MAX_LIMBS)%nat ->
  (CHARS_TO_LIMBS (length buf - skip_zero_bytes buf)
   <= POLARSSL_MPI_MAX_LIMBS)%nat ->
  exists X', mpi_read_binary X buf = Ok X'
    /\ s X' = 1 /\ mag X' = bytes_val buf /\ limbs_ok (p X')
    /\ n X' = Nat.max (n X)
                (Nat.max 1 (CHARS_TO_LIMBS (length buf - skip_zero_bytes buf))).
Proof.
  intros Hcap Hk. unfold mpi_read_binary.
  set (k := CHARS_TO_LIMBS (length buf - skip_zero_bytes buf)) in *.
  destruct (mpi_grow_spec X k Hk) as (X1 & E1 & _ & _ & N1 & _).
  rewrite E1. cbn [bind].
  destruct (mpi_lset_spec X1 0 Hcap Radix_gt_0_sint)
    as (X2 & E2 & S2 & M2 & N2 & L2).
  rewrite E2. cbn [bind].
  destruct (read_bytes_spec (rev (skipn (skip_zero_bytes buf) buf)) 0 (p X2))
    as (l & E & Hok & Hlen & Hv).
  - exact L2.
  - fold (mag X2). rewrite M2. simpl. lia.
  - rewrite length_rev, length_skipn. fold (n X2). rewrite N2, N1.
    pose proof (CHARS_TO_LIMBS_ge (length buf - skip_zero_bytes buf)) as H.
    fold k in H. clear - H. nia.
  - rewrite E. cbn [bind]. eexists. split; [reflexivity|].
    cbn [s p]. unfold mag, n. cbn [p].
    split; [rewrite S2; reflexivity|].
    split.
    { rewrite Hv. fold (mag X2). rewrite M2, rev_involutive, bytes_val_skip_zero.
      simpl. destruct (bytes_val buf); reflexivity. }
    split; [exact Hok|].
    rewrite Hlen. fold (n X2). rewrite N2, N1. unfold n. clear. lia.
Qed.

(** *** The loop of mpi_write_binary *)

Ltac pow_side :=
  first [ apply pow2_pos | apply pow256_pos | apply Radix_pow_pos
        | apply Z.neq_sym, Z.lt_neq;
          first [apply pow2_pos | apply pow256_pos | apply Radix_pow_pos]
        | lia ].

Lemma limb_byte l j :
  limbs_ok l -> (j mod ciL < ciL)%nat ->
  Z.shiftr (nth (j / ciL) l 0) (Z.of_nat ((j mod ciL) * 8)) mod 256
  = (limbs_val l / 256 ^ Z.of_nat j) mod 256.
Proof.
  intros Hl Hr. rewrite (nth_limb l _ Hl).
  rewrite (pow256_split j).
  set (q := (j / ciL)%nat). set (r := (j mod ciL)%nat) in *.
  rewrite <- Z.div_div by pow_side.
  set (a := limbs_val l / Radix ^ Z.of_nat q).
  rewrite Z.shiftr_div_pow2 by lia.
  rewrite (Radix_split (r * 8)) by (rewrite biL_ciL; clear - Hr; lia).
  rewrite Z.rem_mul_r by pow_side.
  pose proof (pow2_pos (r * 8)) as Hp.
  rewrite (Z.mul_comm (2 ^ Z.of_nat (r * 8))
             ((a / 2 ^ Z.of_nat (r * 8)) mod 2 ^ Z.of_nat (biL - r * 8))).
  rewrite Z.div_add by lia.
  rewrite (Z.div_small (a mod 2 ^ Z.of_nat (r * 8))) by (apply Z.mod_pos_bound; exact Hp).
  rewrite Z.add_0_l.
  assert (Hd : (8 <= biL - r * 8)%nat) by (rewrite biL_ciL; clear - Hr; lia).
  replace (biL - r * 8)%nat with (8 + (biL - r * 8 - 8))%nat by (clear - Hd; lia).
  rewrite pow2_add. change (2 ^ Z.of_nat 8) with 256.
  rewrite Z.rem_mul_r by pow_side.
  rewrite Z.mul_comm, Z.mod_add by lia.
  apply Z.mod_mod. lia.
Qed.

Lemma firstn_S_segment {A : Type} (c : nat) (L : list A) (x : A) (T : list A) :
  (c <= length L)%nat -> skipn c L = x :: T ->
  firstn (S c) L = firstn c L ++ [x].
Proof.
  revert L. induction c as [|c IH]; intros L Hc Hs.
  - cbn [skipn] in Hs. subst L. reflexivity.
  - destruct L as [|y L]; [discriminate|].
    cbn [skipn] in Hs. cbn [length] in Hc.
    change (firstn (S (S c)) (y :: L)) with (y :: firstn (S c) L).
    rewrite (IH L ltac:(lia) Hs). reflexivity.
Qed.

Lemma firstn_repeat_le {A : Type} (x : A) (k m : nat) :
  (k <= m)%nat -> firstn k (repeat x m) = repeat x k.
Proof.
  revert m. induction k as [|k IH]; intros m H; [reflexivity|].
  destruct m as [|m]; [exfalso; lia|].
  cbn [repeat firstn]. rewrite IH by lia. reflexivity.
Qed.

Lemma write_bytes_spec l : limbs_ok l -> forall cnt i1 j buf,
  (cnt <= i1)%nat -> (i1 <= length buf)%nat ->
  (j + cnt <= ciL * length l)%nat ->
  exists buf', write_bytes l cnt i1 j buf = Ok buf'
    /\ length buf' = length buf
    /\ firstn (i1 - cnt) buf' = firstn (i1 - cnt) buf
    /\ skipn i1 buf' = skipn i1 buf
    /\ bytes_val (firstn cnt (skipn (i1 - cnt) buf'))
       = (limbs_val l / 256 ^ Z.of_nat j) mod 256 ^ Z.of_nat cnt.
Proof.
  intros Hl. induction cnt as [|cnt IH]; intros i1 j buf Hc Hi Hj.
  - exists buf. split; [reflexivity|]. split; [reflexivity|].
    split; [reflexivity|]. split; [reflexivity|].
    cbn [firstn]. change (256 ^ Z.of_nat 0) with 1. rewrite Z.mod_1_r.
    reflexivity.
  - cbn [write_bytes]. pose proof ciL_pos as Hcl.
    assert (Hq : (j / ciL < length l)%nat).
    { apply Nat.Div0.div_lt_upper_bound. clear - Hj. lia. }
    assert (Hr : (j mod ciL < ciL)%nat) by (apply Nat.mod_upper_bound; lia).
    rewrite rd_ok by exact Hq. cbn [bind].
    destruct i1 as [|i]; [exfalso; clear - Hc; lia|].
    assert (Hib : (i < length buf)%nat) by (clear - Hi; lia).
    rewrite (proj2 (Nat.ltb_lt _ _) Hib).
    set (bt := to_uint8 (Z.shiftr (nth (j / ciL) l 0)
                           (Z.of_nat ((j mod ciL) * 8)))).
    set (buf1 := firstn i buf ++ bt :: skipn (S i) buf).
    assert (Hlen1 : length buf1 = length buf).
    { unfold buf1. rewrite length_app, length_firstn. cbn [length].
      rewrite length_skipn. clear - Hib. lia. }
    assert (Hfi : length (firstn i buf) = i)
      by (rewrite length_firstn; clear - Hib; lia).
    destruct (IH i (S j) buf1 ltac:(clear - Hc; lia)
                ltac:(rewrite Hlen1; clear - Hib; lia)
                ltac:(clear - Hj; lia))
      as (buf' & E & Hlen & Hpre & Hpost & Hv).
    exists buf'. split; [exact E|].
    split; [rewrite Hlen; exact Hlen1|].
    assert (Hsk : skipn i buf' = bt :: skipn (S i) buf).
    { rewrite Hpost. unfold buf1.
      rewrite skipn_app, Hfi, Nat.sub_diag.
      rewrite (skipn_all2 (firstn i buf)) by (rewrite Hfi; apply Nat.le_refl).
      reflexivity. }
    replace (S i - S cnt)%nat with (i - cnt)%nat by reflexivity.
    split.
    { rewrite Hpre. unfold buf1. rewrite firstn_app, Hfi.
      replace (i - cnt - i)%nat with 0%nat by (clear; lia).
      cbn [firstn]. rewrite app_nil_r, firstn_firstn.
      f_equal. clear. lia. }
    split.
    { assert (H1 : skipn (S i) buf' = skipn 1 (skipn i buf'))
        by (rewrite skipn_skipn; reflexivity).
      rewrite H1, Hsk. reflexivity. }
    assert (Hseg : firstn (S cnt) (skipn (i - cnt) buf')
                   = firstn cnt (skipn (i - cnt) buf') ++ [bt]).
    { apply firstn_S_segment with (T := skipn (S i) buf).
      - rewrite length_skipn, Hlen, Hlen1. clear - Hib Hc. lia.
      - rewrite skipn_skipn.
        replace (cnt + (i - cnt))%nat with i by (clear - Hc; lia).
        exact Hsk. }
    rewrite Hseg, bytes_val_snoc, Hv.
    unfold bt. rewrite byte_val_to_uint8, (limb_byte l j Hl Hr).
    rewrite (pow256_succ j), (pow256_succ cnt).
    rewrite (Z.mul_comm 256 (256 ^ Z.of_nat j)).
    rewrite <- Z.div_div by pow_side.
    set (a := limbs_val l / 256 ^ Z.of_nat j).
    rewrite (Z.rem_mul_r a 256 (256 ^ Z.of_nat cnt)) by pow_side.
    ring.
Qed.

Lemma mpi_write_binary_spec X buflen :
  limbs_ok (p X) -> p X <> [] ->
  exists sz, mpi_size X = Ok sz
    /\ (sz <= ciL * n X)%nat
    /\ ((buflen < sz)%nat ->
        mpi_write_binary X buflen = Err ERR_MPI_BUFFER_TOO_SMALL)
    /\ ((sz <= buflen)%nat ->
        exists buf, mpi_write_binary X buflen = Ok buf
          /\ length buf = buflen
          /\ bytes_val buf = mag X
          /\ firstn (buflen - sz) buf = repeat x00 (buflen - sz)).
Proof.
  intros HX Hne.
  destruct (mpi_msb_spec X HX Hne) as (m & Em & M1 & _ & M3).
  set (sz := ((m + 7) / 8)%nat).
  assert (Hsz : (m <= 8 * sz /\ 8 * sz <= m + 7)%nat).
  { unfold sz. pose proof (Nat.div_mod_eq (m + 7) 8).
    pose proof (Nat.mod_upper_bound (m + 7) 8). lia. }
  assert (Esz : mpi_size X = Ok sz) by (unfold mpi_size; rewrite Em; reflexivity).
  assert (Hszn : (sz <= ciL * n X)%nat).
  { rewrite biL_ciL in M3. clear - Hsz M3. lia. }
  assert (Hlt : mag X < 256 ^ Z.of_nat sz).
  { rewrite pow256_2exp. pose proof (pow2_le m (8 * sz) ltac:(lia)). lia. }
  exists sz. split; [exact Esz|]. split; [exact Hszn|].
  unfold mpi_write_binary. rewrite Esz. cbn [bind]. split.
  - intros Hb. rewrite (proj2 (Nat.ltb_lt _ _) Hb). reflexivity.
  - intros Hb. rewrite (proj2 (Nat.ltb_ge _ _) Hb).
    destruct (write_bytes_spec (p X) HX sz buflen 0 (repeat x00 buflen) Hb
                ltac:(rewrite repeat_length; apply Nat.le_refl)
                ltac:(exact Hszn))
      as (buf & E & Hlen & Hpre & _ & Hv).
    rewrite repeat_length in Hlen.
    exists buf. split; [exact E|]. split; [exact Hlen|].
    assert (Hz : firstn (buflen - sz) buf = repeat x00 (buflen - sz)).
    { rewrite Hpre. apply firstn_repeat_le. clear. lia. }
    split; [|exact Hz].
    rewrite <- (firstn_skipn (buflen - sz) buf), bytes_val_app, Hz,
      bytes_val_zeros, Z.mul_0_l, Z.add_0_l.
    rewrite <- (firstn_all (skipn (buflen - sz) buf)), length_skipn, Hlen.
    replace (buflen - (buflen - sz))%nat with sz by (clear - Hb; lia).
    rewrite Hv. change (256 ^ Z.of_nat 0) with 1. rewrite Z.div_1_r.
    apply Z.mod_small. split; [apply (mag_nonneg X HX) | exact Hlt].
Qed.

End BinaryIO.

Section Gcd.
Context {cfg : config}.

(** *** Halving and the greatest common divisor *)

Lemma odd_coprime_pow2 g k : Z.odd g = true -> Z.gcd g (2 ^ Z.of_nat k) = 1.
Proof.
  intros Hg. apply Z.coprime_pow_r; [lia|].
  unfold Z.coprime. rewrite Z.gcd_comm.
  apply Z.coprime_prime_l; [exact Z.prime_2|].
  intros [c Hc]. rewrite Hc, Z.odd_mul, andb_comm in Hg. discriminate.
Qed.

Lemma gcd_div_pow2 a b k :
  a mod 2 ^ Z.of_nat k = 0 -> Z.odd (Z.gcd a b) = true ->
  Z.gcd (a / 2 ^ Z.of_nat k) b = Z.gcd a b.
Proof.
  intros Hm Hg. pose proof (pow2_pos k) as Hp.
  assert (Ha : a = 2 ^ Z.of_nat k * (a / 2 ^ Z.of_nat k)).
  { pose proof (Z.div_mod a (2 ^ Z.of_nat k) ltac:(lia)) as H.
    rewrite Hm in H. lia. }
  set (a' := a / 2 ^ Z.of_nat k) in *.
  assert (D1 : (Z.gcd a b | a')).
  { apply Z.gauss with (m := 2 ^ Z.of_nat k).
    - rewrite <- Ha. apply Z.gcd_divide_l.
    - apply odd_coprime_pow2. exact Hg. }
  apply Z.divide_antisym_nonneg; try apply Z.gcd_nonneg.
  - apply Z.gcd_greatest; [|apply Z.gcd_divide_r].
    apply Z.divide_trans with a'; [apply Z.gcd_divide_l|].
    exists (2 ^ Z.of_nat k). rewrite Ha at 1. ring.
  - apply Z.gcd_greatest; [exact D1 | apply Z.gcd_divide_r].
Qed.

Lemma gcd_div_pow2_r a b k :
  b mod 2 ^ Z.of_nat k = 0 -> Z.odd (Z.gcd a b) = true ->
  Z.gcd a (b / 2 ^ Z.of_nat k) = Z.gcd a b.
Proof.
  intros Hm Hg. rewrite Z.gcd_comm, (Z.gcd_comm a b).
  apply gcd_div_pow2; [exact Hm|]. rewrite Z.gcd_comm. exact Hg.
Qed.

Lemma gcd_sub_l a b : Z.gcd (a - b) b = Z.gcd a b.
Proof.
  rewrite (Z.gcd_comm (a - b)), (Z.gcd_comm a).
  replace (a - b) with (a + (-1) * b) by ring.
  apply Z.gcd_add_mult_diag_r.
Qed.

Lemma odd_sub_even a b : a mod 2 = 1 -> b mod 2 = 1 -> (a - b) mod 2 = 0.
Proof.
  intros Ha Hb. rewrite Zminus_mod, Ha, Hb. reflexivity.
Qed.

Lemma gcd_sub_half a b :
  a mod 2 = 1 -> b mod 2 = 1 -> Z.odd (Z.gcd a b) = true ->
  Z.gcd ((a - b) / 2) b = Z.gcd a b.
Proof.
  intros Ha Hb Hg. rewrite <- (gcd_sub_l a b) in Hg |- *.
  change 2 with (2 ^ Z.of_nat 1) at 1.
  apply gcd_div_pow2; [|exact Hg].
  change (2 ^ Z.of_nat 1) with 2. apply odd_sub_even; assumption.
Qed.

Lemma odd_gcd_l a b : a mod 2 = 1 -> Z.odd (Z.gcd a b) = true.
Proof.
  intros Ha. destruct (Z.odd (Z.gcd a b)) eqn:E; [reflexivity|].
  exfalso. rewrite <- Z.negb_even in E. apply negb_false_iff in E.
  apply Z.even_spec in E. destruct E as [c Hc].
  destruct (Z.gcd_divide_l a b) as [d Hd]. rewrite Hc in Hd.
  assert (H : a mod 2 = 0).
  { rewrite Hd. replace (d * (2 * c)) with ((d * c) * 2) by ring.
    apply Z.mod_mul. lia. }
  rewrite H in Ha. discriminate.
Qed.

Lemma odd_gcd_r a b : b mod 2 = 1 -> Z.odd (Z.gcd a b) = true.
Proof. intros Hb. rewrite Z.gcd_comm. apply odd_gcd_l. exact Hb. Qed.

(** *** States of the loop of mpi_gcd *)

Lemma wfk_set_sign K X : wfk K X -> wfk K (set_sign X 1).
Proof.
  intros (L & _ & N). split; [exact L|]. split; [left; reflexivity | exact N].
Qed.

Lemma shift_r_pos K X count :
  (1 <= K)%nat -> (K <= POLARSSL_MPI_MAX_LIMBS)%nat ->
  wfk K X -> s X = 1 ->
  exists X', mpi_shift_r X count = Ok X'
    /\ wfk K X' /\ s X' = 1
    /\ mag X' = mag X / 2 ^ Z.of_nat count.
Proof.
  intros HK1 HK (L & _ & N) S.
  destruct (mpi_shift_r_spec X count L ltac:(clear - HK1 HK; lia))
    as (X' & E & M & L' & S' & N').
  exists X'. split; [exact E|]. split; [|split; [|exact M]].
  - split; [exact L'|]. split.
    + destruct S' as [S'|[_ S']]; rewrite S'; [rewrite S|]; left; reflexivity.
    + clear - N N' HK1. lia.
  - destruct S' as [S'|[_ S']]; rewrite S'; [exact S | reflexivity].
Qed.

Lemma lsb_odd_part X :
  limbs_ok (p X) -> mag X <> 0 ->
  mag X mod 2 ^ Z.of_nat (mpi_lsb X) = 0
  /\ (mag X / 2 ^ Z.of_nat (mpi_lsb X)) mod 2 = 1
  /\ 0 < mag X / 2 ^ Z.of_nat (mpi_lsb X) <= mag X.
Proof.
  intros L H0. destruct (mpi_lsb_spec X L) as (_ & H). specialize (H H0).
  destruct H as (H1 & H2). split; [exact H1|]. split; [exact H2|].
  pose proof (pow2_pos (mpi_lsb X)) as Hp.
  pose proof (mag_nonneg X L) as Hm.
  pose proof (Z.div_mod (mag X) (2 ^ Z.of_nat (mpi_lsb X)) ltac:(lia)) as Hd.
  rewrite H1 in Hd.
  remember (mag X / 2 ^ Z.of_nat (mpi_lsb X)) as q.
  remember (2 ^ Z.of_nat (mpi_lsb X)) as t.
  clear - Hd Hp Hm H0. nia.
Qed.

Lemma gcd_step K g TA TB :
  (1 <= K)%nat -> (K <= POLARSSL_MPI_MAX_LIMBS)%nat ->
  gcd_inv K g (TA, TB) -> mag TA <> 0 ->
  exists st',
    (TA1 <- mpi_shift_r TA (mpi_lsb TA) ;;
     TB1 <- mpi_shift_r TB (mpi_lsb TB) ;;
     if 0 <=? mpi_cmp_mpi TA1 TB1 then
       TA2 <- mpi_sub_abs DstA TA1 TB1 ;;
       TA3 <- mpi_shift_r TA2 1 ;;
       Ok (TA3, TB1)
     else
       TB2 <- mpi_sub_abs DstA TB1 TA1 ;;
       TB3 <- mpi_shift_r TB2 1 ;;
       Ok (TA1, TB3)) = Ok st'
    /\ gcd_inv K g st'
    /\ mag (fst st') + mag (snd st') < mag TA + mag TB.
Proof.
  intros HK1 HK (WA & WB & SA & SB & HB & Hg & Hodd) HA.
  cbn [fst snd] in *. specialize (Hodd HA).
  pose proof WA as (LA & _ & _). pose proof WB as (LB & _ & _).
  destruct (lsb_odd_part TA LA HA) as (A1 & A2 & A3).
  destruct (lsb_odd_part TB LB ltac:(clear - HB; lia)) as (B1 & B2 & B3).
  destruct (shift_r_pos K TA (mpi_lsb TA) HK1 HK WA SA)
    as (TA1 & EA1 & WA1 & SA1 & MA1).
  destruct (shift_r_pos K TB (mpi_lsb TB) HK1 HK WB SB)
    as (TB1 & EB1 & WB1 & SB1 & MB1).
  rewrite EA1. cbn [bind]. rewrite EB1. cbn [bind].
  rewrite <- MA1 in A2, A3. rewrite <- MB1 in B2, B3.
  assert (Hg1 : Z.gcd (mag TA1) (mag TB1) = g).
  { rewrite MA1, MB1.
    rewrite gcd_div_pow2_r.
    - rewrite gcd_div_pow2; [exact Hg | exact A1 | rewrite Hg; exact Hodd].
    - exact B1.
    - rewrite gcd_div_pow2; [rewrite Hg; exact Hodd | exact A1
                            | rewrite Hg; exact Hodd]. }
  pose proof WA1 as (LA1 & SA1' & _). pose proof WB1 as (LB1 & SB1' & _).
  rewrite (mpi_cmp_mpi_spec TA1 TB1 LA1 LB1 SA1' SB1').
  unfold mpi_val. rewrite SA1, SB1, !Z.mul_1_l.
  destruct (Z.leb_spec 0 (Z.sgn (mag TA1 - mag TB1))) as [Hc|Hc].
  - apply Z.sgn_nonneg in Hc.
    destruct (mpi_sub_abs_spec K DstA TA1 TB1 HK WA1 WB1 I
                ltac:(clear - Hc; lia))
      as (TA2 & E2 & S2 & M2 & W2 & _).
    rewrite E2. cbn [bind].
    destruct (shift_r_pos K TA2 1 HK1 HK W2 S2) as (TA3 & E3 & W3 & S3 & M3).
    rewrite E3. cbn [bind].
    change (2 ^ Z.of_nat 1) with 2 in M3.
    eexists. split; [reflexivity|]. unfold gcd_inv. cbn [fst snd]. split.
    + split; [exact W3|]. split; [exact WB1|]. split; [exact S3|].
      split; [exact SB1|]. split; [apply B3|]. split; [|intros _; exact Hodd].
      rewrite M3, M2, gcd_sub_half; [exact Hg1 | exact A2 | exact B2
                                     | rewrite Hg1; exact Hodd].
    + rewrite M3, M2.
      assert (H : (mag TA1 - mag TB1) / 2 <= mag TA1 - mag TB1)
        by (apply Z.div_le_upper_bound; clear - Hc; lia).
      clear - H A3 B3. lia.
  - assert (Hlt : mag TA1 < mag TB1).
    { destruct (Z.lt_trichotomy (mag TA1 - mag TB1) 0) as [H|[H|H]];
        [clear - H; lia | rewrite H in Hc; discriminate
        | rewrite (Z.sgn_pos _ H) in Hc; discriminate]. }
    destruct (mpi_sub_abs_spec K DstA TB1 TA1 HK WB1 WA1 I
                ltac:(clear - Hlt; lia))
      as (TB2 & E2 & S2 & M2 & W2 & _).
    rewrite E2. cbn [bind].
    destruct (shift_r_pos K TB2 1 HK1 HK W2 S2) as (TB3 & E3 & W3 & S3 & M3).
    rewrite E3. cbn [bind].
    change (2 ^ Z.of_nat 1) with 2 in M3.
    pose proof (odd_sub_even _ _ B2 A2) as Hev.
    pose proof (Z.div_mod (mag TB1 - mag TA1) 2 ltac:(lia)) as Hd.
    rewrite Hev in Hd.
    eexists. split; [reflexivity|]. unfold gcd_inv. cbn [fst snd]. split.
    + split; [exact WA1|]. split; [exact W3|]. split; [exact SA1|].
      split; [exact S3|]. split; [|split; [|intros _; exact Hodd]].
      * rewrite M3, M2. clear - Hd Hlt. lia.
      * rewrite M3, M2, Z.gcd_comm, gcd_sub_half;
          [rewrite Z.gcd_comm; exact Hg1 | exact B2 | exact A2
          | rewrite Z.gcd_comm, Hg1; exact Hodd].
    + rewrite M3, M2. clear - Hd Hlt A3 B3. lia.
Qed.

Lemma gcd_loop K TA TB :
  (1 <= K)%nat -> (K <= POLARSSL_MPI_MAX_LIMBS)%nat ->
  wfk K TA -> wfk K TB -> s TA = 1 -> s TB = 1 -> 0 < mag TB ->
  (mag TA <> 0 -> Z.odd (Z.gcd (mag TA) (mag TB)) = true) ->
  exists TA' TB',
    runs_to (fun fuel =>
      while fuel
        (fun '(TA, _) => negb (mpi_cmp_int TA 0 =? 0))
        (fun '(TA, TB) =>
           TA <- mpi_shift_r TA (mpi_lsb TA) ;;
           TB <- mpi_shift_r TB (mpi_lsb TB) ;;
           if 0 <=? mpi_cmp_mpi TA TB then
             TA <- mpi_sub_abs DstA TA TB ;;
             TA <- mpi_shift_r TA 1 ;;
             Ok (TA, TB)
           else
             TB <- mpi_sub_abs DstA TB TA ;;
             TB <- mpi_shift_r TB 1 ;;
             Ok (TA, TB))
        (TA, TB)) (TA', TB')
    /\ wfk K TB' /\ s TB' = 1
    /\ mag TB' = Z.gcd (mag TA) (mag TB).
Proof.
  intros HK1 HK WA WB SA SB HB Hodd.
  set (g := Z.gcd (mag TA) (mag TB)) in *.
  assert (Hcond : forall st, gcd_inv K g st ->
            negb (mpi_cmp_int (fst st) 0 =? 0) = negb (mag (fst st) =? 0)).
  { intros [Xa Xb] (W & _ & S & _). cbn [fst snd] in *.
    destruct W as (L & S' & _).
    rewrite (cmp_int_0_sgn Xa L S'). unfold mpi_val. rewrite S, Z.mul_1_l.
    destruct (mag Xa); reflexivity. }
  destruct (while_runs_to (gcd_inv K g)
              (fun st => Z.to_nat (mag (fst st) + mag (snd st)))
              (fun '(TA, _) => negb (mpi_cmp_int TA 0 =? 0))
              (fun _ '(TA, TB) =>
                 TA <- mpi_shift_r TA (mpi_lsb TA) ;;
                 TB <- mpi_shift_r TB (mpi_lsb TB) ;;
                 if 0 <=? mpi_cmp_mpi TA TB then
                   TA <- mpi_sub_abs DstA TA TB ;;
                   TA <- mpi_shift_r TA 1 ;;
                   Ok (TA, TB)
                 else
                   TB <- mpi_sub_abs DstA TB TA ;;
                   TB <- mpi_shift_r TB 1 ;;
                   Ok (TA, TB))) with (st := (TA, TB))
    as ([TA' TB'] & Hrun & Hinv & Hc).
  - intros [Xa Xb] Hinv Hc.
    change (negb (mpi_cmp_int (fst (Xa, Xb)) 0 =? 0) = true) in Hc.
    rewrite (Hcond _ Hinv) in Hc. cbn [fst] in Hc.
    apply negb_true_iff, Z.eqb_neq in Hc.
    destruct (gcd_step K g Xa Xb HK1 HK Hinv Hc) as (st' & E & Hinv' & Hm).
    exists st'. split; [apply runs_to_const; exact E|].
    split; [exact Hinv'|].
    destruct Hinv' as (W1 & W2 & _). destruct Hinv as (W3 & W4 & _).
    cbn [fst snd] in *.
    pose proof (mag_nonneg _ (proj1 W1)). pose proof (mag_nonneg _ (proj1 W2)).
    clear - Hm H H0. lia.
  - split; [exact WA|]. split; [exact WB|]. split; [exact SA|].
    split; [exact SB|]. split; [exact HB|]. split; [reflexivity | exact Hodd].
  - exists TA', TB'. split; [exact Hrun|].
    change (negb (mpi_cmp_int (fst (TA', TB')) 0 =? 0) = false) in Hc.
    rewrite (Hcond _ Hinv) in Hc. cbn [fst] in Hc.
    apply negb_false_iff, Z.eqb_eq in Hc.
    destruct Hinv as (_ & W2 & _ & S2 & HB2 & Hg & _). cbn [fst snd] in *.
    split; [exact W2|]. split; [exact S2|].
    rewrite <- Hg, Hc. cbn [Z.gcd]. clear - HB2. lia.
Qed.

End Gcd.

Section MulMpi.
Context {cfg : config}.

(** The private copy of an operand that is also the destination. *)
Lemma mul_operand_copy (alias : bool) A :
  wf A ->
  exists TA, (if alias then mpi_copy mpi_init A else Ok A) = Ok TA
    /\ mag TA = mag A /\ limbs_ok (p TA)
    /\ (s TA = 1 \/ s TA = -1)
    /\ (mag A <> 0 -> s TA = s A)
    /\ eff (p TA) = eff (p A).
Proof.
  intros (L & S & N). destruct alias.
  - destruct (mpi_copy_spec mpi_init A L N) as (TA & E & M & L' & H1 & H2).
    exists TA. split; [exact E|]. split; [exact M|]. split; [exact L'|].
    assert (He : eff (p TA) = eff (p A)).
    { apply Nat.le_antisymm; apply eff_le_of_bound; auto.
      - fold (mag TA). rewrite M. apply eff_bound; auto.
      - fold (mag A). rewrite <- M. apply eff_bound; auto. }
    destruct (p A) as [|a l] eqn:EA.
    + rewrite (H2 eq_refl) in *. split; [left; reflexivity|].
      split; [|exact He]. intros H. exfalso. apply H. unfold mag.
      rewrite EA. reflexivity.
    + destruct (H1 ltac:(discriminate)) as (S1 & _).
      split; [rewrite S1; exact S|]. split; [intros _; exact S1 | exact He].
  - exists A. split; [reflexivity|]. split; [reflexivity|].
    split; [exact L|]. split; [exact S|]. split; reflexivity.
Qed.

Lemma mpi_mul_mpi_unfold d A B :
  mpi_mul_mpi d A B
  = (TA <- (if match d with DstA => true | _ => false end
            then mpi_copy mpi_init A else Ok A) ;;
     TB <- (if match d with DstB => true | _ => false end
            then mpi_copy mpi_init B else Ok B) ;;
     X1 <- mpi_grow (dst_val d A B) (eff (p TA) + eff (p TB)) ;;
     X2 <- mpi_lset X1 0 ;;
     l <- mul_loop (p TA) (eff (p TA)) (p TB) (eff (p TB)) (p X2) ;;
     Ok {| s := s TA * s TB; p := l |}).
Proof. destruct d; reflexivity. Qed.

Lemma mpi_mul_mpi_spec d A B :
  wf A -> wf B -> (1 <= POLARSSL_MPI_MAX_LIMBS)%nat ->
  ((POLARSSL_MPI_MAX_LIMBS < eff (p A) + eff (p B))%nat ->
   mpi_mul_mpi d A B = Err ERR_MPI_MALLOC_FAILED)
  /\ ((eff (p A) + eff (p B) <= POLARSSL_MPI_MAX_LIMBS)%nat ->
      exists X', mpi_mul_mpi d A B = Ok X'
        /\ mag X' = mag A * mag B
        /\ mpi_val X' = mpi_val A * mpi_val B
        /\ (s X' = 1 \/ s X' = -1)
        /\ limbs_ok (p X')
        /\ n X' = Nat.max (n (dst_val d A B))
                    (Nat.max 1 (eff (p A) + eff (p B)))).
Proof.
  intros WA WB Hcap. rewrite mpi_mul_mpi_unfold.
  destruct (mul_operand_copy (match d with DstA => true | _ => false end) A WA)
    as (TA & ETA & MTA & LTA & STA & STA' & HeA).
  destruct (mul_operand_copy (match d with DstB => true | _ => false end) B WB)
    as (TB & ETB & MTB & LTB & STB & STB' & HeB).
  rewrite ETA. cbn [bind]. rewrite ETB. cbn [bind]. rewrite HeA, HeB.
  set (i := eff (p A)). set (j := eff (p B)).
  split.
  - intros H. unfold mpi_grow. rewrite (proj2 (Nat.ltb_lt _ _) H). reflexivity.
  - intros H.
    destruct (mpi_grow_spec (dst_val d A B) (i + j) H)
      as (X1 & E1 & S1 & M1 & N1 & _).
    rewrite E1. cbn [bind].
    destruct (mpi_lset_spec X1 0 Hcap Radix_gt_0_sint)
      as (X2 & E2 & S2 & M2 & N2 & L2).
    rewrite E2. cbn [bind].
    pose proof (eff_bound (p TA) LTA) as BA. fold (mag TA) in BA.
    pose proof (eff_bound (p TB) LTB) as BB. fold (mag TB) in BB.
    rewrite HeA in BA. rewrite HeB in BB. fold i in BA. fold j in BB.
    rewrite MTA in BA. rewrite MTB in BB.
    destruct (mul_loop_spec (p TA) i (p TB) (n X2) (mag A * mag B) j (p X2))
      as (l & E & Hv & Hok & Hl); auto.
    + unfold i. rewrite <- HeA. apply eff_le.
    + unfold j. rewrite <- HeB. apply eff_le.
    + rewrite N2, N1. clear. lia.
    + rewrite N2. clear. lia.
    + fold (mag X2). rewrite M2. unfold i, j. rewrite <- HeA, <- HeB.
      rewrite !eff_firstn. fold (mag TA) (mag TB). rewrite MTA, MTB.
      reflexivity.
    + apply Z.lt_le_trans with (Radix ^ Z.of_nat (i + j)).
      * rewrite Radix_pow_add.
        apply Z.mul_lt_mono_nonneg; [apply BA | apply BA | apply BB | apply BB].
      * apply Radix_pow_le. rewrite N2, N1. clear. lia.
    + rewrite E. cbn [bind]. eexists. split; [reflexivity|].
      rewrite mag_mk, n_mk. cbn [s p].
      split; [exact Hv|]. split; [|split; [|split; [exact Hok|]]].
      * unfold mpi_val. cbn [s]. rewrite mag_mk, Hv.
        destruct (Z.eq_dec (mag A) 0) as [EA|EA];
          [rewrite EA; ring|].
        destruct (Z.eq_dec (mag B) 0) as [EB|EB];
          [rewrite EB; ring|].
        rewrite (STA' EA), (STB' EB). ring.
      * destruct STA as [-> | ->]; destruct STB as [-> | ->];
          [left | right | right | left]; reflexivity.
      * rewrite Hl, N2, N1. clear. lia.
Qed.

End MulMpi.

(** * Properties of the single operations *)

Section Basic_operations.
Context {cfg : config}.

(** mpi_grow refuses a request for more than POLARSSL_MPI_MAX_LIMBS limbs
    with MALLOC_FAILED and no other; a request within the limit succeeds,
    keeps the sign and the limbs of X, appends zero limbs up to the size
    asked for, never makes X smaller, and keeps the value. *)
Theorem mpi_grow_correct (X : mpi_t) (nblimbs : nat) :
  (mpi_grow X nblimbs = Err ERR_MPI_MALLOC_FAILED
   <-> (POLARSSL_MPI_MAX_LIMBS < nblimbs)%nat)
  /\ ((nblimbs <= POLARSSL_MPI_MAX_LIMBS)%nat ->
      exists X', mpi_grow X nblimbs = Ok X'
        /\ s X' = s X
        /\ p X' = p X ++ repeat 0 (nblimbs - n X)
        /\ n X' = Nat.max (n X) nblimbs
        /\ mag X' = mag X).
Proof.
  split.
  - unfold mpi_grow.
    destruct (Nat.ltb_spec POLARSSL_MPI_MAX_LIMBS nblimbs) as [H|H].
    + split; auto.
    + split; [|lia]. destruct (n X <? nblimbs)%nat; discriminate.
  - intros H. destruct (mpi_grow_spec X nblimbs H) as (X' & E & S1 & M1 & N1 & _).
    exists X'. rewrite (mpi_grow_ok X nblimbs H) in E. injection E as <-.
    repeat split; auto. apply mpi_grow_ok; assumption.
Qed.

(** mpi_shrink keeps the sign and the value of X and leaves it with at least
    [nblimbs] limbs and with all its significant limbs, and with no more
    limbs than that (one limb at least is kept). *)
Theorem mpi_shrink_correct (X : mpi_t) (nblimbs : nat) :
  (nblimbs <= POLARSSL_MPI_MAX_LIMBS)%nat ->
  exists X', mpi_shrink X nblimbs = Ok X'
    /\ s X' = s X
    /\ mag X' = mag X
    /\ (nblimbs <= n X')%nat
    /\ (eff (p X) <= n X')%nat
    /\ (n X' <= Nat.max nblimbs (Nat.max 1 (eff (p X))))%nat
    /\ (limbs_ok (p X) -> limbs_ok (p X')).
Proof.
  intros Hk. unfold mpi_shrink.
  pose proof (eff_le (p X)) as He. fold (n X) in He.
  destruct (Nat.leb_spec (n X) nblimbs) as [Hn|Hn].
  - destruct (mpi_grow_spec X nblimbs Hk) as (X' & E & S1 & M1 & N1 & L1).
    exists X'. repeat split; auto; lia.
  - assert (Hne : p X <> []).
    { intros E. unfold n in Hn. rewrite E in Hn. simpl in Hn. lia. }
    cbv zeta. change (n X - 1)%nat with (length (p X) - 1)%nat.
    rewrite !(scan_top_eff (p X) Hne).
    set (i := if (Nat.max 1 (eff (p X)) <? nblimbs)%nat then nblimbs
              else Nat.max 1 (eff (p X))).
    assert (Hi : i = Nat.max nblimbs (Nat.max 1 (eff (p X)))).
    { unfold i. destruct (Nat.ltb_spec (Nat.max 1 (eff (p X))) nblimbs); lia. }
    eexists; split; [reflexivity|].
    unfold mag, n; cbn [s p]. rewrite length_firstn.
    fold (n X).
    split; [reflexivity|].
    split; [apply limbs_val_firstn_ge_eff; lia|].
    repeat split; try lia.
    intros HX. now apply limbs_ok_firstn.
Qed.

(** mpi_copy gives X the value of Y: the sign of Y and its significant limbs
    (one limb at least), followed by zero limbs; X keeps its size when that
    is larger.  A source without limbs frees X. *)
Theorem mpi_copy_correct (X Y : mpi_t) :
  limbs_ok (p Y) -> (n Y <= POLARSSL_MPI_MAX_LIMBS)%nat ->
  exists X', mpi_copy X Y = Ok X'
    /\ mpi_val X' = mpi_val Y
    /\ limbs_ok (p X')
    /\ (p Y <> [] ->
        s X' = s Y /\ n X' = Nat.max (n X) (Nat.max 1 (eff (p Y))))
    /\ (p Y = [] -> X' = mpi_init).
Proof.
  intros HY Hc.
  destruct (mpi_copy_spec X Y HY Hc) as (X' & E & Hm & Hl & Hs & Hn).
  exists X'. split; [exact E|].
  split; [exact (mpi_copy_val X Y X' E HY Hc)|]. auto.
Qed.

(** mpi_lset sets X to the integer z: sign -1 for a negative z, +1
    otherwise, magnitude |z|; X keeps its size, with one limb at least. *)
Theorem mpi_lset_correct (X : mpi_t) (z : Z) :
  (1 <= POLARSSL_MPI_MAX_LIMBS)%nat -> - Radix < z < Radix ->
  exists X', mpi_lset X z = Ok X'
    /\ mpi_val X' = z
    /\ s X' = (if z <? 0 then -1 else 1)
    /\ n X' = Nat.max (n X) 1
    /\ limbs_ok (p X').
Proof.
  intros Hc Hz.
  destruct (mpi_lset_spec X z Hc Hz) as (X' & E & Hs & Hm & Hn & Hl).
  exists X'. repeat split; auto.
  unfold mpi_val. rewrite Hs, Hm. destruct (Z.ltb_spec z 0); lia.
Qed.

(** mpi_cmp_abs compares the magnitudes: it returns 1, 0 or -1 as |X| is
    larger than, equal to or smaller than |Y|, whatever the number of
    leading zero limbs of the two and whatever their signs. *)
Theorem mpi_cmp_abs_correct (X Y : mpi_t) :
  limbs_ok (p X) -> limbs_ok (p Y) ->
  mpi_cmp_abs X Y = Z.sgn (mag X - mag Y).
Proof. apply mpi_cmp_abs_spec. Qed.

(** mpi_cmp_mpi compares the signed values: it returns 1, 0 or -1 as X is
    larger than, equal to or smaller than Y; a zero compares equal to a zero
    of either sign.  mpi_cmp_int compares X in the same way with the integer
    z of one limb. *)
Theorem mpi_cmp_mpi_correct (X Y : mpi_t) (z : Z) :
  limbs_ok (p X) -> (s X = 1 \/ s X = -1) ->
  (limbs_ok (p Y) -> (s Y = 1 \/ s Y = -1) ->
   mpi_cmp_mpi X Y = Z.sgn (mpi_val X - mpi_val Y))
  /\ (- Radix < z < Radix -> mpi_cmp_int X z = Z.sgn (mpi_val X - z)).
Proof.
  intros HX SX. split.
  - intros HY SY. apply mpi_cmp_mpi_spec; assumption.
  - intros Hz. apply mpi_cmp_int_spec; assumption.
Qed.

End Basic_operations.

(** The theorems above at concrete MPIs of a 32-bit platform. *)
Lemma mpi_grow_correct_witness :
  exists X', @mpi_grow cfg32 (mpi_of (-1) [5]) 3 = Ok X'
    /\ s X' = -1
    /\ p X' = [5] ++ repeat 0 (3 - 1)
    /\ n X' = Nat.max 1 3
    /\ @mag cfg32 X' = @mag cfg32 (mpi_of (-1) [5]).
Proof.
  apply (proj2 (@mpi_grow_correct cfg32 (mpi_of (-1) [5]) 3)).
  apply Nat.leb_le. vm_compute. reflexivity.
Defined.

Lemma mpi_shrink_correct_witness :
  exists X', @mpi_shrink cfg32 (mpi_of (-1) [5; 7; 0; 0]) 1 = Ok X'
    /\ s X' = -1
    /\ @mag cfg32 X' = @mag cfg32 (mpi_of (-1) [5; 7; 0; 0])
    /\ (1 <= n X')%nat
    /\ (eff [5; 7; 0; 0]%Z <= n X')%nat
    /\ (n X' <= Nat.max 1 (Nat.max 1 (eff [5; 7; 0; 0]%Z)))%nat
    /\ (@limbs_ok cfg32 [5; 7; 0; 0] -> @limbs_ok cfg32 (p X')).
Proof.
  apply (@mpi_shrink_correct cfg32 (mpi_of (-1) [5; 7; 0; 0]) 1).
  apply Nat.leb_le. vm_compute. reflexivity.
Defined.

Lemma mpi_copy_correct_witness :
  exists X', @mpi_copy cfg32 (mpi_of 1 [1; 2; 3]) (mpi_of (-1) [5; 0]) = Ok X'
    /\ @mpi_val cfg32 X' = @mpi_val cfg32 (mpi_of (-1) [5; 0])
    /\ @limbs_ok cfg32 (p X')
    /\ ([5; 0] <> [] ->
        s X' = -1 /\ n X' = Nat.max 3 (Nat.max 1 (eff [5; 0]%Z)))
    /\ ([5; 0] = [] -> X' = mpi_init).
Proof.
  apply (@mpi_copy_correct cfg32 (mpi_of 1 [1; 2; 3]) (mpi_of (-1) [5; 0])).
  - repeat constructor; vm_compute; congruence.
  - apply Nat.leb_le. vm_compute. reflexivity.
Defined.

Lemma mpi_lset_correct_witness :
  exists X', @mpi_lset cfg32 (mpi_of 1 [1; 2; 3]) (-9) = Ok X'
    /\ @mpi_val cfg32 X' = -9
    /\ s X' = -1
    /\ n X' = Nat.max 3 1
    /\ @limbs_ok cfg32 (p X').
Proof.
  apply (@mpi_lset_correct cfg32 (mpi_of 1 [1; 2; 3]) (-9)).
  - apply Nat.leb_le. vm_compute. reflexivity.
  - vm_compute. split; reflexivity.
Defined.

Lemma mpi_cmp_abs_correct_witness :
  mpi_cmp_abs (mpi_of (-1) [5; 1; 0]) (mpi_of 1 [7; 1])
  = Z.sgn (@mag cfg32 (mpi_of (-1) [5; 1; 0]) - @mag cfg32 (mpi_of 1 [7; 1])).
Proof.
  apply (@mpi_cmp_abs_correct cfg32 (mpi_of (-1) [5; 1; 0]) (mpi_of 1 [7; 1]));
    repeat constructor; vm_compute; congruence.
Defined.

Lemma mpi_cmp_mpi_correct_witness :
  (@limbs_ok cfg32 (p (mpi_of 1 [7; 1])) ->
   (s (mpi_of 1 [7; 1]) = 1 \/ s (mpi_of 1 [7; 1]) = -1) ->
   mpi_cmp_mpi (mpi_of (-1) [5; 1; 0]) (mpi_of 1 [7; 1])
   = Z.sgn (@mpi_val cfg32 (mpi_of (-1) [5; 1; 0])
            - @mpi_val cfg32 (mpi_of 1 [7; 1])))
  /\ (- @Radix cfg32 < -7 < @Radix cfg32 ->
      @mpi_cmp_int cfg32 (mpi_of (-1) [5; 1; 0]) (-7)
      = Z.sgn (@mpi_val cfg32 (mpi_of (-1) [5; 1; 0]) - (-7))).
Proof.
  apply (@mpi_cmp_mpi_correct cfg32 (mpi_of (-1) [5; 1; 0]) (mpi_of 1 [7; 1])
           (-7)).
  - repeat constructor; vm_compute; congruence.
  - right. reflexivity.
Defined.

Section Arithmetic.
Context {cfg : config}.

Lemma wf_wfk X : wf X -> wfk POLARSSL_MPI_MAX_LIMBS X.
Proof. exact (fun H => H). Qed.

Lemma wfk_wf X : wfk POLARSSL_MPI_MAX_LIMBS X -> wf X.
Proof. exact (fun H => H). Qed.

Lemma wf_mpi_of_sint z : (1 <= POLARSSL_MPI_MAX_LIMBS)%nat ->
  - Radix < z < Radix ->
  wf (mpi_of_sint z) /\ mpi_val (mpi_of_sint z) = z
  /\ mag (mpi_of_sint z) = Z.abs z.
Proof.
  intros Hc Hz. destruct (mpi_of_sint_spec z Hz) as (H1 & H2 & H3 & H4).
  split; [|split; [exact H3|]].
  - unfold wf. rewrite H4. auto.
  - rewrite <- (mpi_val_mag _ H1 H2), H3. reflexivity.
Qed.


(** mpi_sub_abs returns NEGATIVE_VALUE when |A| < |B|, and only then;
    otherwise it gives X = |A| - |B| with sign +1, whether X is A, B or a
    third MPI. *)
Theorem mpi_sub_abs_correct (d : dst) (A B : mpi_t) :
  wf A -> wf B -> dst_fits POLARSSL_MPI_MAX_LIMBS d ->
  (mag A < mag B -> mpi_sub_abs d A B = Err ERR_MPI_NEGATIVE_VALUE)
  /\ (mag B <= mag A ->
      exists X', mpi_sub_abs d A B = Ok X'
        /\ s X' = 1
        /\ mag X' = mag A - mag B
        /\ wf X').
Proof.
  intros HA HB Hd. split.
  - intros Hlt. unfold mpi_sub_abs.
    rewrite mpi_cmp_abs_spec by (apply wf_limbs; assumption).
    rewrite Z.sgn_neg by lia. reflexivity.
  - intros Hle.
    destruct (mpi_sub_abs_spec _ d A B (Nat.le_refl _) HA HB Hd Hle)
      as (X' & E & S1 & M1 & W1 & _).
    exists X'. auto.
Qed.


(** mpi_sub_mpi gives X = A - B as signed integers, whether X is A, B or a
    third MPI, when |A| + |B| fits into POLARSSL_MPI_MAX_LIMBS limbs. *)
Theorem mpi_sub_mpi_correct (d : dst) (A B : mpi_t) :
  wf A -> wf B -> dst_fits POLARSSL_MPI_MAX_LIMBS d ->
  mag A + mag B < Radix ^ Z.of_nat POLARSSL_MPI_MAX_LIMBS ->
  exists X', mpi_sub_mpi d A B = Ok X'
    /\ mpi_val X' = mpi_val A - mpi_val B
    /\ wf X'.
Proof.
  intros HA HB Hd Hs.
  destruct (mpi_sub_mpi_spec _ d A B (Nat.le_refl _) HA HB Hd Hs)
    as (X' & E & W1 & V1 & _).
  exists X'. auto.
Qed.

(** mpi_add_int and mpi_sub_int give X = A + b and X = A - b for an integer
    b of one limb, negative or not, whether X is A or another MPI. *)
Theorem mpi_add_sub_int_correct (d : dst) (A : mpi_t) (b : Z) :
  wf A -> dst_fits POLARSSL_MPI_MAX_LIMBS d -> d <> DstB ->
  (1 <= POLARSSL_MPI_MAX_LIMBS)%nat -> - Radix < b < Radix ->
  mag A + Z.abs b < Radix ^ Z.of_nat POLARSSL_MPI_MAX_LIMBS ->
  (exists X', mpi_add_int d A b = Ok X'
     /\ mpi_val X' = mpi_val A + b /\ wf X')
  /\ (exists X', mpi_sub_int d A b = Ok X'
        /\ mpi_val X' = mpi_val A - b /\ wf X').
Proof.
  intros HA Hd _ Hc Hb Hs.
  destruct (wf_mpi_of_sint b Hc Hb) as (WB & VB & MB).
  rewrite <- MB in Hs. split.
  - destruct (mpi_add_mpi_spec _ d A _ (Nat.le_refl _) HA WB Hd Hs)
      as (X' & E & W1 & V1 & _).
    exists X'. rewrite VB in V1. auto.
  - destruct (mpi_sub_mpi_spec _ d A _ (Nat.le_refl _) HA WB Hd Hs)
      as (X' & E & W1 & V1 & _).
    exists X'. rewrite VB in V1. auto.
Qed.


(** mpi_shift_r divides the magnitude of X by 2^count, rounding towards
    zero, and keeps the size of X (an MPI without limbs gets one limb when
    the count is not zero); the sign is kept, or set to +1 together with
    the value 0 when the count exceeds the size of X. *)
Theorem mpi_shift_r_correct (X : mpi_t) (count : nat) :
  limbs_ok (p X) -> (1 <= POLARSSL_MPI_MAX_LIMBS)%nat ->
  exists X', mpi_shift_r X count = Ok X'
    /\ mag X' = mag X / 2 ^ Z.of_nat count
    /\ limbs_ok (p X')
    /\ (s X' = s X \/ (mag X' = 0 /\ s X' = 1))
    /\ (n X <= n X' <= Nat.max (n X) 1)%nat.
Proof. apply mpi_shift_r_spec. Qed.

(** mpi_msb returns the bit length of |X|: the position of its highest set
    bit counted from 1, and 0 for the value 0; X has limbs. *)
Theorem mpi_msb_correct (X : mpi_t) :
  limbs_ok (p X) -> p X <> [] ->
  exists m, mpi_msb X = Ok m
    /\ mag X < 2 ^ Z.of_nat m
    /\ ((0 < m)%nat -> 2 ^ Z.of_nat (m - 1) <= mag X)
    /\ (m <= n X * biL)%nat.
Proof. apply mpi_msb_spec. Qed.

(** mpi_size returns the number of bytes of |X|: the least number of
    base-256 digits that hold it, 0 for the value 0. *)
Theorem mpi_size_correct (X : mpi_t) :
  limbs_ok (p X) -> p X <> [] ->
  exists sz, mpi_size X = Ok sz
    /\ mag X < 256 ^ Z.of_nat sz
    /\ ((0 < sz)%nat -> 256 ^ Z.of_nat (sz - 1) <= mag X).
Proof.
  intros HX Hne.
  destruct (mpi_msb_spec X HX Hne) as (m & E & M1 & M2 & _).
  unfold mpi_size. rewrite E. cbn [bind].
  eexists; split; [reflexivity|].
  set (sz := ((m + 7) / 8)%nat).
  assert (Hsz : (m <= 8 * sz /\ 8 * sz <= m + 7)%nat).
  { unfold sz. pose proof (Nat.div_mod_eq (m + 7) 8).
    pose proof (Nat.mod_upper_bound (m + 7) 8). lia. }
  assert (H256 : forall k, 256 ^ Z.of_nat k = 2 ^ Z.of_nat (8 * k)).
  { intros k. change 256 with (2 ^ 8). rewrite <- Z.pow_mul_r by lia.
    f_equal. lia. }
  rewrite !H256. split.
  - pose proof (pow2_le m (8 * sz) ltac:(lia)). lia.
  - intros Hpos. assert (Hm : (0 < m)%nat) by lia.
    specialize (M2 Hm).
    pose proof (pow2_le (8 * (sz - 1)) (m - 1) ltac:(lia)). lia.
Qed.

(** mpi_lsb returns the number of trailing zero bits of |X|: 2^lsb divides
    |X| and the quotient is odd; it returns 0 for the value 0. *)
Theorem mpi_lsb_correct (X : mpi_t) :
  limbs_ok (p X) ->
  (mag X = 0 -> mpi_lsb X = 0%nat)
  /\ (mag X <> 0 ->
      mag X mod 2 ^ Z.of_nat (mpi_lsb X) = 0
      /\ (mag X / 2 ^ Z.of_nat (mpi_lsb X)) mod 2 = 1).
Proof. apply mpi_lsb_spec. Qed.

End Arithmetic.


Lemma mpi_sub_abs_correct_witness :
  exists X', @mpi_sub_abs cfg32 DstA (mpi_of (-1) [5; 1]) (mpi_of 1 [7])
             = Ok X'
    /\ s X' = 1
    /\ @mag cfg32 X' = @mag cfg32 (mpi_of (-1) [5; 1])
                       - @mag cfg32 (mpi_of 1 [7])
    /\ @wf cfg32 X'.
Proof.
  apply (proj2 (@mpi_sub_abs_correct cfg32 DstA (mpi_of (-1) [5; 1])
                  (mpi_of 1 [7])
                  ltac:(split; [repeat constructor; vm_compute; congruence
                               | split; [right; reflexivity
                                        | apply Nat.leb_le; vm_compute;
                                          reflexivity]])
                  ltac:(split; [repeat constructor; vm_compute; congruence
                               | split; [left; reflexivity
                                        | apply Nat.leb_le; vm_compute;
                                          reflexivity]])
                  I)).
  vm_compute. discriminate.
Defined.


Lemma mpi_sub_mpi_correct_witness :
  exists X', @mpi_sub_mpi cfg32 (Dst (mpi_of 1 [9; 9; 9]))
               (mpi_of (-1) [5; 1]) (mpi_of 1 [7]) = Ok X'
    /\ @mpi_val cfg32 X' = @mpi_val cfg32 (mpi_of (-1) [5; 1])
                           - @mpi_val cfg32 (mpi_of 1 [7])
    /\ @wf cfg32 X'.
Proof.
  apply (@mpi_sub_mpi_correct cfg32 (Dst (mpi_of 1 [9; 9; 9]))
           (mpi_of (-1) [5; 1]) (mpi_of 1 [7])).
  - split; [repeat constructor; vm_compute; congruence
           | split; [right; reflexivity | apply Nat.leb_le; vm_compute; reflexivity]].
  - split; [repeat constructor; vm_compute; congruence
           | split; [left; reflexivity | apply Nat.leb_le; vm_compute; reflexivity]].
  - apply Nat.leb_le. vm_compute. reflexivity.
  - vm_compute. reflexivity.
Defined.

Lemma mpi_add_sub_int_correct_witness :
  (exists X', @mpi_add_int cfg32 DstA (mpi_of 1 [5; 1]) (-7) = Ok X'
     /\ @mpi_val cfg32 X' = @mpi_val cfg32 (mpi_of 1 [5; 1]) + -7
     /\ @wf cfg32 X')
  /\ (exists X', @mpi_sub_int cfg32 DstA (mpi_of 1 [5; 1]) (-7) = Ok X'
        /\ @mpi_val cfg32 X' = @mpi_val cfg32 (mpi_of 1 [5; 1]) - -7
        /\ @wf cfg32 X').
Proof.
  apply (@mpi_add_sub_int_correct cfg32 DstA (mpi_of 1 [5; 1]) (-7)).
  - split; [repeat constructor; vm_compute; congruence
           | split; [left; reflexivity | apply Nat.leb_le; vm_compute; reflexivity]].
  - exact I.
  - discriminate.
  - apply Nat.leb_le. vm_compute. reflexivity.
  - vm_compute. split; reflexivity.
  - vm_compute. reflexivity.
Defined.


Lemma mpi_shift_r_correct_witness :
  exists X', @mpi_shift_r cfg32 (mpi_of (-1) [5; 3]) 33 = Ok X'
    /\ @mag cfg32 X' = @mag cfg32 (mpi_of (-1) [5; 3]) / 2 ^ Z.of_nat 33
    /\ @limbs_ok cfg32 (p X')
    /\ (s X' = -1 \/ (@mag cfg32 X' = 0 /\ s X' = 1))
    /\ (2 <= n X' <= Nat.max 2 1)%nat.
Proof.
  apply (@mpi_shift_r_correct cfg32 (mpi_of (-1) [5; 3]) 33).
  - repeat constructor; vm_compute; congruence.
  - apply Nat.leb_le. vm_compute. reflexivity.
Defined.

Lemma mpi_msb_correct_witness :
  exists m, @mpi_msb cfg32 (mpi_of 1 [5; 3; 0]) = Ok m
    /\ @mag cfg32 (mpi_of 1 [5; 3; 0]) < 2 ^ Z.of_nat m
    /\ ((0 < m)%nat -> 2 ^ Z.of_nat (m - 1) <= @mag cfg32 (mpi_of 1 [5; 3; 0]))
    /\ (m <= 3 * @biL cfg32)%nat.
Proof.
  apply (@mpi_msb_correct cfg32 (mpi_of 1 [5; 3; 0])).
  - repeat constructor; vm_compute; congruence.
  - discriminate.
Defined.

Lemma mpi_size_correct_witness :
  exists sz, @mpi_size cfg32 (mpi_of 1 [5; 3; 0]) = Ok sz
    /\ @mag cfg32 (mpi_of 1 [5; 3; 0]) < 256 ^ Z.of_nat sz
    /\ ((0 < sz)%nat ->
        256 ^ Z.of_nat (sz - 1) <= @mag cfg32 (mpi_of 1 [5; 3; 0])).
Proof.
  apply (@mpi_size_correct cfg32 (mpi_of 1 [5; 3; 0])).
  - repeat constructor; vm_compute; congruence.
  - discriminate.
Defined.

Lemma mpi_lsb_correct_witness :
  @mag cfg32 (mpi_of 1 [0; 24])
    mod 2 ^ Z.of_nat (@mpi_lsb cfg32 (mpi_of 1 [0; 24])) = 0
  /\ (@mag cfg32 (mpi_of 1 [0; 24])
      / 2 ^ Z.of_nat (@mpi_lsb cfg32 (mpi_of 1 [0; 24]))) mod 2 = 1.
Proof.
  apply (proj2 (@mpi_lsb_correct cfg32 (mpi_of 1 [0; 24])
                  ltac:(repeat constructor; vm_compute; congruence))).
  vm_compute. discriminate.
Defined.

Section Bits_and_swap.
Context {cfg : config}.

Lemma cond_swap_limbs_keep xs : forall ys,
  limbs_ok xs -> limbs_ok ys -> length xs = length ys ->
  cond_swap_limbs 0 xs ys = Ok (xs, ys).
Proof.
  induction xs as [|x xs IH]; intros [|y ys] Hx Hy Hl; simpl in Hl;
    try discriminate; [reflexivity|].
  apply limbs_ok_cons in Hx as [Hx Hxs]. apply limbs_ok_cons in Hy as [Hy Hys].
  cbn [cond_swap_limbs]. rewrite IH by (auto; lia). cbn [bind].
  rewrite !Z.mul_0_r, !Z.add_0_r, Z.sub_0_r, !Z.mul_1_r.
  rewrite !to_uint_small by assumption. reflexivity.
Qed.

Lemma cond_swap_limbs_take xs : forall ys,
  limbs_ok xs -> limbs_ok ys -> length xs = length ys ->
  cond_swap_limbs 1 xs ys = Ok (ys, xs).
Proof.
  induction xs as [|x xs IH]; intros [|y ys] Hx Hy Hl; simpl in Hl;
    try discriminate; [reflexivity|].
  apply limbs_ok_cons in Hx as [Hx Hxs]. apply limbs_ok_cons in Hy as [Hy Hys].
  cbn [cond_swap_limbs]. rewrite IH by (auto; lia). cbn [bind].
  rewrite Z.sub_diag, !Z.mul_0_r, !Z.add_0_l, !Z.mul_1_r.
  rewrite !to_uint_small by assumption. reflexivity.
Qed.

(** mpi_get_bit returns the bit of |X| at position pos (bit 0 is the least
    significant one), also beyond the limbs of X, where it is 0. *)
Theorem mpi_get_bit_correct (X : mpi_t) (pos : nat) :
  limbs_ok (p X) ->
  mpi_get_bit X pos = Ok (b2z (Z.testbit (mag X) (Z.of_nat pos))).
Proof. apply mpi_get_bit_spec. Qed.

(** mpi_set_bit rejects a value other than 0 and 1 with BAD_INPUT_DATA.
    For 0 or 1 it succeeds, growing X when the position lies beyond its
    limbs and the bit is 1: afterwards mpi_get_bit returns the value at that
    position and what it returned before at every other position; the sign
    is kept and X is not made smaller. *)
Theorem mpi_set_bit_correct (X : mpi_t) (pos : nat) (val : Z) :
  limbs_ok (p X) ->
  (pos / biL + 1 <= POLARSSL_MPI_MAX_LIMBS)%nat ->
  (val <> 0 -> val <> 1 -> mpi_set_bit X pos val = Err ERR_MPI_BAD_INPUT_DATA)
  /\ (val = 0 \/ val = 1 ->
      exists X', mpi_set_bit X pos val = Ok X'
        /\ s X' = s X
        /\ limbs_ok (p X')
        /\ (n X <= n X')%nat
        /\ mpi_get_bit X' pos = Ok val
        /\ forall q, q <> pos -> mpi_get_bit X' q = mpi_get_bit X q).
Proof.
  intros HX Hcap. split.
  - intros H0 H1. unfold mpi_set_bit.
    destruct (Z.eqb_spec val 0); [contradiction|].
    destruct (Z.eqb_spec val 1); [contradiction|]. reflexivity.
  - intros Hval.
    destruct (mpi_set_bit_spec X pos val HX Hval Hcap)
      as (X' & E & S1 & L1 & N1 & Hbits).
    exists X'. repeat split; auto.
    + rewrite (mpi_get_bit_spec X' pos L1), Hbits, Nat.eqb_refl.
      destruct Hval as [-> | ->]; reflexivity.
    + intros q Hq.
      rewrite (mpi_get_bit_spec X' q L1), (mpi_get_bit_spec X q HX), Hbits.
      destruct (Nat.eqb_spec q pos); [contradiction | reflexivity].
Qed.

(** mpi_safe_cond_swap with flag 0 leaves X and Y as they were, but for the
    zero limbs that bring both to the size of the larger one; with a nonzero
    flag X takes the sign and the limbs of Y and Y those of X, so the two
    values are exchanged. *)
Theorem mpi_safe_cond_swap_correct (X Y : mpi_t) :
  limbs_ok (p X) -> limbs_ok (p Y) ->
  (n X <= POLARSSL_MPI_MAX_LIMBS)%nat ->
  (n Y <= POLARSSL_MPI_MAX_LIMBS)%nat ->
  (exists X0 Y0,
      mpi_safe_cond_swap X Y 0 = Ok (X0, Y0)
      /\ s X0 = s X /\ p X0 = p X ++ repeat 0 (n Y - n X)
      /\ s Y0 = s Y /\ p Y0 = p Y ++ repeat 0 (n X - n Y)
      /\ mpi_val X0 = mpi_val X /\ mpi_val Y0 = mpi_val Y)
  /\ (forall swap, swap <> 0 ->
      exists X1 Y1,
        mpi_safe_cond_swap X Y swap = Ok (X1, Y1)
        /\ s X1 = s Y /\ p X1 = p Y ++ repeat 0 (n X - n Y)
        /\ s Y1 = s X /\ p Y1 = p X ++ repeat 0 (n Y - n X)
        /\ mpi_val X1 = mpi_val Y /\ mpi_val Y1 = mpi_val X).
Proof.
  intros HX HY NX NY.
  assert (HX1 : limbs_ok (p X ++ repeat 0 (n Y - n X)))
    by (apply limbs_ok_app; split; [assumption | apply limbs_ok_repeat0]).
  assert (HY1 : limbs_ok (p Y ++ repeat 0 (n X - n Y)))
    by (apply limbs_ok_app; split; [assumption | apply limbs_ok_repeat0]).
  assert (Hlen : length (p X ++ repeat 0 (n Y - n X))
                 = length (p Y ++ repeat 0 (n X - n Y))).
  { rewrite !length_app, !repeat_length. unfold n. lia. }
  assert (Hn1 : (n {| s := s X; p := p X ++ repeat 0%Z (n Y - n X) |} - n Y
                 = n X - n Y)%nat).
  { rewrite n_mk, length_app, repeat_length. unfold n. lia. }
  assert (Hg2 : (n {| s := s X; p := p X ++ repeat 0%Z (n Y - n X) |}
                 <= POLARSSL_MPI_MAX_LIMBS)%nat).
  { rewrite n_mk, length_app, repeat_length. unfold n in *. lia. }
  split.
  - unfold mpi_safe_cond_swap.
    rewrite (mpi_grow_ok X (n Y) NY). cbn [bind].
    rewrite (mpi_grow_ok Y _ Hg2). cbn [bind s p]. rewrite Hn1.
    rewrite Z.eqb_refl. cbn [negb b2z].
    rewrite cond_swap_limbs_keep by assumption. cbn [bind].
    eexists; eexists; split; [reflexivity|]. cbn [s p].
    unfold mpi_val, mag; cbn [s p]. rewrite !limbs_val_app_repeat0.
    repeat split; try reflexivity; ring.
  - intros swap Hs. unfold mpi_safe_cond_swap.
    rewrite (mpi_grow_ok X (n Y) NY). cbn [bind].
    rewrite (mpi_grow_ok Y _ Hg2). cbn [bind s p]. rewrite Hn1.
    destruct (Z.eqb_spec swap 0) as [|_]; [contradiction|]. cbn [negb b2z].
    rewrite cond_swap_limbs_take by assumption. cbn [bind].
    eexists; eexists; split; [reflexivity|]. cbn [s p].
    unfold mpi_val, mag; cbn [s p]. rewrite !limbs_val_app_repeat0.
    repeat split; try reflexivity; ring.
Qed.

(** mpi_get_digit, for a radix from 2 to 16, accepts exactly the characters
    0-9, A-F and a-f whose value is below the radix and returns that value;
    every other character gives INVALID_CHARACTER. *)
Theorem mpi_get_digit_correct (radix c : Z) :
  2 <= radix <= 16 ->
  (forall d, mpi_get_digit radix c = Ok d <->
             0 <= d < radix
             /\ ((d <= 9 /\ c = 48 + d)
                 \/ (10 <= d /\ (c = 55 + d \/ c = 87 + d))))
  /\ ((forall d, mpi_get_digit radix c <> Ok d) ->
      mpi_get_digit radix c = Err ERR_MPI_INVALID_CHARACTER).
Proof.
  intros Hr. pose proof Radix_ge_256 as HR.
  assert (Hrad : to_uint radix = radix) by (apply to_uint_small; lia).
  unfold mpi_get_digit. rewrite Hrad.
  destruct (Z.leb_spec 48 c), (Z.leb_spec c 57), (Z.leb_spec 65 c),
    (Z.leb_spec c 70), (Z.leb_spec 97 c), (Z.leb_spec c 102);
    cbn [andb]; try lia;
    rewrite ?to_uint_small by lia;
    match goal with
    | |- context [radix <=? ?v] => destruct (Z.leb_spec radix v)
    end;
    (split; [intros d; split; [intros E; try discriminate E;
                                injection E as <-; lia
                              | intros Hd; try (exfalso; lia);
                                f_equal; lia]
            | intros Hn; try reflexivity; exfalso; eapply Hn; reflexivity]).
Qed.

End Bits_and_swap.

(** The theorems above at concrete inputs of a 32-bit platform. *)
Lemma mpi_get_bit_correct_witness :
  @mpi_get_bit cfg32 (mpi_of 1 [0; 4]) 34
  = Ok (b2z (Z.testbit (@mag cfg32 (mpi_of 1 [0; 4])) (Z.of_nat 34))).
Proof.
  apply (@mpi_get_bit_correct cfg32 (mpi_of 1 [0; 4]) 34).
  repeat constructor; vm_compute; congruence.
Defined.

Lemma mpi_set_bit_correct_witness :
  exists X', @mpi_set_bit cfg32 (mpi_of (-1) [5]) 40 1 = Ok X'
    /\ s X' = -1
    /\ @limbs_ok cfg32 (p X')
    /\ (1 <= n X')%nat
    /\ @mpi_get_bit cfg32 X' 40 = Ok 1
    /\ forall q, q <> 40%nat ->
         @mpi_get_bit cfg32 X' q = @mpi_get_bit cfg32 (mpi_of (-1) [5]) q.
Proof.
  apply (proj2 (@mpi_set_bit_correct cfg32 (mpi_of (-1) [5]) 40 1
                  ltac:(repeat constructor; vm_compute; congruence)
                  ltac:(apply Nat.leb_le; vm_compute; reflexivity))).
  right. reflexivity.
Defined.

Lemma mpi_safe_cond_swap_correct_witness :
  (exists X0 Y0,
      @mpi_safe_cond_swap cfg32 (mpi_of (-1) [7; 9]) (mpi_of 1 [5]) 0
      = Ok (X0, Y0)
      /\ s X0 = -1 /\ p X0 = [7; 9] ++ repeat 0 (1 - 2)
      /\ s Y0 = 1 /\ p Y0 = [5] ++ repeat 0 (2 - 1)
      /\ @mpi_val cfg32 X0 = @mpi_val cfg32 (mpi_of (-1) [7; 9])
      /\ @mpi_val cfg32 Y0 = @mpi_val cfg32 (mpi_of 1 [5]))
  /\ (forall swap, swap <> 0 ->
      exists X1 Y1,
        @mpi_safe_cond_swap cfg32 (mpi_of (-1) [7; 9]) (mpi_of 1 [5]) swap
        = Ok (X1, Y1)
        /\ s X1 = 1 /\ p X1 = [5] ++ repeat 0 (2 - 1)
        /\ s Y1 = -1 /\ p Y1 = [7; 9] ++ repeat 0 (1 - 2)
        /\ @mpi_val cfg32 X1 = @mpi_val cfg32 (mpi_of 1 [5])
        /\ @mpi_val cfg32 Y1 = @mpi_val cfg32 (mpi_of (-1) [7; 9])).
Proof.
  apply (@mpi_safe_cond_swap_correct cfg32 (mpi_of (-1) [7; 9]) (mpi_of 1 [5])).
  - repeat constructor; vm_compute; congruence.
  - repeat constructor; vm_compute; congruence.
  - apply Nat.leb_le. vm_compute. reflexivity.
  - apply Nat.leb_le. vm_compute. reflexivity.
Defined.

Lemma mpi_get_digit_correct_witness :
  (forall d, @mpi_get_digit cfg32 16 102 = Ok d <->
             0 <= d < 16
             /\ ((d <= 9 /\ 102 = 48 + d)
                 \/ (10 <= d /\ (102 = 55 + d \/ 102 = 87 + d))))
  /\ ((forall d, @mpi_get_digit cfg32 16 102 <> Ok d) ->
      @mpi_get_digit cfg32 16 102 = Err ERR_MPI_INVALID_CHARACTER).
Proof.
  apply (@mpi_get_digit_correct cfg32 16 102). lia.
Defined.

Section Division_edges.
Context {cfg : config}.



(** mpi_mod_int returns DIVISION_BY_ZERO for b = 0 and NEGATIVE_VALUE for
    b < 0; for a modulus b from 1 to 2^biH (half a limb) it returns A mod b
    in [0, b), also for a negative A.  The fast path for b = 2 reads limb 0,
    so A has limbs there. *)
Theorem mpi_mod_int_correct (A : mpi_t) (b : Z) :
  limbs_ok (p A) -> (s A = 1 \/ s A = -1) ->
  (b = 0 -> mpi_mod_int A b = Err ERR_MPI_DIVISION_BY_ZERO)
  /\ (b < 0 -> mpi_mod_int A b = Err ERR_MPI_NEGATIVE_VALUE)
  /\ (1 <= b <= 2 ^ Z.of_nat biH -> (b = 2 -> p A <> []) ->
      mpi_mod_int A b = Ok (mpi_val A mod b)).
Proof.
  intros HA SA. unfold mpi_mod_int. split; [|split].
  - intros ->. reflexivity.
  - intros Hb. destruct (Z.eqb_spec b 0); [lia|].
    destruct (Z.ltb_spec b 0); [reflexivity | lia].
  - intros Hb Hne.
    destruct (Z.eqb_spec b 0); [lia|].
    destruct (Z.ltb_spec b 0); [lia|].
    destruct (Z.eqb_spec b 1) as [->|Hb1].
    { rewrite Z.mod_1_r. reflexivity. }
    assert (Hopp : forall m, 0 <= m ->
              (if (s A <? 0) && negb (m mod b =? 0)
               then b - m mod b else m mod b) = (s A * m) mod b).
    { intros m Hm. pose proof (Z.mod_pos_bound m b ltac:(lia)) as Hmb.
      destruct SA as [-> | ->]; cbn [Z.ltb Z.compare andb].
      - rewrite Z.mul_1_l. reflexivity.
      - replace (-1 * m) with (- m) by lia.
        destruct (Z.eqb_spec (m mod b) 0) as [E|E]; cbn [negb].
        + rewrite Z.mod_opp_l_z by lia. exact E.
        + rewrite Z.mod_opp_l_nz by lia. reflexivity. }
    destruct (Z.eqb_spec b 2) as [->|Hb2].
    { destruct (p A) as [|x l] eqn:Ep; [exfalso; apply Hne; reflexivity|].
      cbn [rd nth_error bind]. f_equal.
      change 1 with (Z.ones 1). rewrite Z.land_ones by lia.
      change (2 ^ 1) with 2.
      apply limbs_ok_cons in HA as [Hx Hl].
      assert (Hm : mag A mod 2 = x mod 2).
      { unfold mag. rewrite Ep. cbn [limbs_val].
        rewrite Radix_2exp. pose proof biL_pos.
        replace (Z.of_nat biL) with (Z.succ (Z.of_nat (biL - 1))) by lia.
        rewrite Z.pow_succ_r by lia.
        replace (x + 2 * 2 ^ Z.of_nat (biL - 1) * limbs_val l)
          with (x + (2 ^ Z.of_nat (biL - 1) * limbs_val l) * 2) by ring.
        apply Z.mod_add. lia. }
      rewrite <- Hm. unfold mpi_val.
      pose proof (Z.mod_pos_bound (mag A) 2 ltac:(lia)).
      destruct SA as [-> | ->].
      - rewrite Z.mul_1_l. reflexivity.
      - replace (-1 * mag A) with (- mag A) by lia.
        destruct (Z.eq_dec (mag A mod 2) 0) as [E|E].
        + rewrite Z.mod_opp_l_z by lia. exact E.
        + rewrite Z.mod_opp_l_nz by lia. lia. }
    rewrite mod_int_loop_spec by (auto; lia). fold (mag A).
    pose proof (mag_nonneg A HA) as Hm0.
    pose proof (Z.mod_pos_bound (mag A) b ltac:(lia)) as Hmb.
    pose proof Radix_halves as HR. pose proof (pow2_pos biH) as Hp.
    assert (HbR : b < Radix) by nia.
    specialize (Hopp (mag A) Hm0). unfold mpi_val. rewrite <- Hopp.
    destruct ((s A <? 0) && negb (mag A mod b =? 0)).
    + rewrite to_uint_small by lia. reflexivity.
    + reflexivity.
Qed.


End Division_edges.



Lemma mpi_mod_int_correct_witness :
  @mpi_mod_int cfg32 (mpi_of (-1) [7; 3]) 65535
  = Ok (@mpi_val cfg32 (mpi_of (-1) [7; 3]) mod 65535).
Proof.
  apply (proj2 (proj2 (@mpi_mod_int_correct cfg32 (mpi_of (-1) [7; 3]) 65535
                         ltac:(repeat constructor; vm_compute; congruence)
                         ltac:(right; reflexivity)))).
  - vm_compute. split; discriminate.
  - discriminate.
Defined.


Section Montgomery.
Context {cfg : config}.

(** mpi_montg_init, for an odd modulus N, returns the limb mm with
    N * mm = -1 modulo 2^biL, the constant of the Montgomery reduction, for
    32-bit and for 64-bit limbs. *)
Theorem mpi_montg_init_correct (N : mpi_t) :
  limbs_ok (p N) -> mag N mod 2 = 1 ->
  exists mm, mpi_montg_init N = Ok mm
    /\ 0 <= mm < Radix
    /\ (mag N * mm + 1) mod Radix = 0.
Proof.
  intros HN Hodd.
  destruct (mpi_montg_init_spec N HN Hodd) as (mm & E & Hr & Hd).
  exists mm. split; [exact E|]. split; [exact Hr|].
  apply Z.mod_divide; [pose proof Radix_pos; lia | exact Hd].
Qed.

End Montgomery.

Lemma mpi_montg_init_correct_witness :
  exists mm, @mpi_montg_init cfg64 (mpi_of 1 [4294967291; 7]) = Ok mm
    /\ 0 <= mm < @Radix cfg64
    /\ (@mag cfg64 (mpi_of 1 [4294967291; 7]) * mm + 1) mod @Radix cfg64 = 0.
Proof.
  apply (@mpi_montg_init_correct cfg64 (mpi_of 1 [4294967291; 7])).
  - repeat constructor; vm_compute; congruence.
  - vm_compute. reflexivity.
Defined.

Section Division.
Context {cfg : config}.




End Division.



Section BinaryIOCorrect.
Context {cfg : config}.

(** mpi_read_binary skips the leading zero bytes of the buffer; it returns
    MALLOC_FAILED when the remaining bytes need more than
    POLARSSL_MPI_MAX_LIMBS limbs, and otherwise succeeds and sets X to the
    big-endian value of the buffer, with sign +1, whatever X held before; X
    keeps its size when larger and has at least one limb. *)
Theorem mpi_read_binary_correct (X : mpi_t) (buf : list byte) :
  (1 <= POLARSSL_MPI_MAX_LIMBS)%nat ->
  (POLARSSL_MPI_MAX_LIMBS
     < CHARS_TO_LIMBS (length buf - skip_zero_bytes buf) ->
   mpi_read_binary X buf = Err ERR_MPI_MALLOC_FAILED)%nat
  /\ ((CHARS_TO_LIMBS (length buf - skip_zero_bytes buf)
       <= POLARSSL_MPI_MAX_LIMBS)%nat ->
      exists X', mpi_read_binary X buf = Ok X'
        /\ s X' = 1 /\ mpi_val X' = bytes_val buf /\ limbs_ok (p X')
        /\ n X' = Nat.max (n X)
                    (Nat.max 1 (CHARS_TO_LIMBS
                                  (length buf - skip_zero_bytes buf)))).
Proof.
  intros Hcap. split.
  - intros Hk. unfold mpi_read_binary, mpi_grow.
    rewrite (proj2 (Nat.ltb_lt _ _) Hk). reflexivity.
  - intros Hk.
    destruct (mpi_read_binary_spec X buf Hcap Hk) as (X' & E & S & M & L & N).
    exists X'. split; [exact E|]. split; [exact S|].
    split; [unfold mpi_val; rewrite S, M; apply Z.mul_1_l|].
    split; [exact L | exact N].
Qed.

(** mpi_write_binary, for X with limbs, returns BUFFER_TOO_SMALL exactly when
    buflen is below mpi_size(X); otherwise it fills the whole buffer of
    buflen bytes with the big-endian magnitude of X, padded with zero bytes
    in front, and mpi_read_binary of that buffer gives back |X| with sign
    +1. *)
Theorem mpi_write_binary_correct (X : mpi_t) (buflen : nat) :
  wf X -> p X <> [] ->
  exists sz, mpi_size X = Ok sz
    /\ ((buflen < sz)%nat ->
        mpi_write_binary X buflen = Err ERR_MPI_BUFFER_TOO_SMALL)
    /\ ((sz <= buflen)%nat ->
        exists buf, mpi_write_binary X buflen = Ok buf
          /\ length buf = buflen
          /\ bytes_val buf = mag X
          /\ forall X0, exists X',
               mpi_read_binary X0 buf = Ok X'
               /\ s X' = 1 /\ mag X' = mag X /\ limbs_ok (p X')).
Proof.
  intros (HX & _ & NX) Hne.
  destruct (mpi_write_binary_spec X buflen HX Hne)
    as (sz & Esz & Hszn & Herr & Hok).
  exists sz. split; [exact Esz|]. split; [exact Herr|].
  intros Hb. destruct (Hok Hb) as (buf & E & Hlen & Hv & Hz).
  exists buf. split; [exact E|]. split; [exact Hlen|]. split; [exact Hv|].
  intros X0.
  assert (Hcap : (1 <= POLARSSL_MPI_MAX_LIMBS)%nat).
  { unfold n in NX. destruct (p X); [congruence|].
    cbn [length] in NX. clear - NX. lia. }
  assert (Hskip : (buflen - sz <= skip_zero_bytes buf)%nat).
  { rewrite <- (firstn_skipn (buflen - sz) buf), Hz.
    apply skip_zero_bytes_zeros. }
  assert (Hk : (CHARS_TO_LIMBS (length buf - skip_zero_bytes buf)
                <= POLARSSL_MPI_MAX_LIMBS)%nat).
  { apply Nat.le_trans with (n X); [|exact NX].
    apply CHARS_TO_LIMBS_le. rewrite Hlen. clear - Hskip Hszn Hb. lia. }
  destruct (mpi_read_binary_spec X0 buf Hcap Hk) as (X' & E' & S' & M' & L' & _).
  exists X'. split; [exact E'|]. split; [exact S'|].
  split; [rewrite M'; exact Hv | exact L'].
Qed.

End BinaryIOCorrect.

Lemma mpi_read_binary_correct_witness :
  ((@POLARSSL_MPI_MAX_LIMBS cfg32
     < @CHARS_TO_LIMBS cfg32 (length [x00; x01; x02; x03; x04; x05]
                              - @skip_zero_bytes [x00; x01; x02; x03; x04; x05]))%nat ->
   @mpi_read_binary cfg32 (mpi_of (-1) [9]) [x00; x01; x02; x03; x04; x05]
   = Err ERR_MPI_MALLOC_FAILED)
  /\ ((@CHARS_TO_LIMBS cfg32 (length [x00; x01; x02; x03; x04; x05]
                              - @skip_zero_bytes [x00; x01; x02; x03; x04; x05])
       <= @POLARSSL_MPI_MAX_LIMBS cfg32)%nat ->
      exists X', @mpi_read_binary cfg32 (mpi_of (-1) [9])
                   [x00; x01; x02; x03; x04; x05] = Ok X'
        /\ s X' = 1
        /\ @mpi_val cfg32 X' = @bytes_val [x00; x01; x02; x03; x04; x05]
        /\ @limbs_ok cfg32 (p X')
        /\ n X' = Nat.max (n (mpi_of (-1) [9]))
                    (Nat.max 1 (@CHARS_TO_LIMBS cfg32
                       (length [x00; x01; x02; x03; x04; x05]
                        - @skip_zero_bytes [x00; x01; x02; x03; x04; x05])))).
Proof.
  apply (@mpi_read_binary_correct cfg32 (mpi_of (-1) [9])
           [x00; x01; x02; x03; x04; x05]).
  apply Nat.leb_le. vm_compute. reflexivity.
Defined.

Lemma mpi_write_binary_correct_witness :
  exists sz, @mpi_size cfg32 (mpi_of (-1) [84281096; 258; 0]) = Ok sz
    /\ ((7 < sz)%nat ->
        @mpi_write_binary cfg32 (mpi_of (-1) [84281096; 258; 0]) 7
        = Err ERR_MPI_BUFFER_TOO_SMALL)
    /\ ((sz <= 7)%nat ->
        exists buf,
          @mpi_write_binary cfg32 (mpi_of (-1) [84281096; 258; 0]) 7 = Ok buf
          /\ length buf = 7%nat
          /\ @bytes_val buf = @mag cfg32 (mpi_of (-1) [84281096; 258; 0])
          /\ forall X0, exists X',
               @mpi_read_binary cfg32 X0 buf = Ok X'
               /\ s X' = 1
               /\ @mag cfg32 X' = @mag cfg32 (mpi_of (-1) [84281096; 258; 0])
               /\ @limbs_ok cfg32 (p X')).
Proof.
  apply (@mpi_write_binary_correct cfg32 (mpi_of (-1) [84281096; 258; 0]) 7).
  - split; [repeat constructor; vm_compute; congruence
           | split; [right; reflexivity
                    | apply Nat.leb_le; vm_compute; reflexivity]].
  - discriminate.
Defined.

Section GcdCorrect.
Context {cfg : config}.

Lemma bind_Ok {A B : Type} (a : A) (k : A -> res B) : bind (Ok a) k = k a.
Proof. reflexivity. Qed.

Lemma mod_pow2_le x a b :
  (a <= b)%nat -> x mod 2 ^ Z.of_nat b = 0 -> x mod 2 ^ Z.of_nat a = 0.
Proof.
  intros Hab Hx. pose proof (pow2_pos a) as Ha. pose proof (pow2_pos b) as Hb.
  pose proof (Z.div_mod x (2 ^ Z.of_nat b) ltac:(lia)) as Hd.
  rewrite Hx, Z.add_0_r in Hd.
  replace b with (a + (b - a))%nat in Hd by lia.
  rewrite pow2_add in Hd. rewrite Hd.
  rewrite <- Z.mul_assoc, Z.mul_comm. apply Z.mod_mul. lia.
Qed.

Lemma exact_div_pow2 x k :
  x mod 2 ^ Z.of_nat k = 0 -> x = 2 ^ Z.of_nat k * (x / 2 ^ Z.of_nat k).
Proof.
  intros Hx. pose proof (pow2_pos k) as Hp.
  pose proof (Z.div_mod x (2 ^ Z.of_nat k) ltac:(lia)) as Hd.
  rewrite Hx in Hd. lia.
Qed.

Lemma copy_init_wfk K A :
  wf A -> (1 <= K)%nat -> (n A <= K)%nat ->
  exists TA, mpi_copy mpi_init A = Ok TA
    /\ wfk K TA /\ mag TA = mag A.
Proof.
  intros (L & S & N) HK1 HK.
  destruct (mpi_copy_spec mpi_init A L N) as (TA & E & M & L' & H1 & H2).
  exists TA. split; [exact E|]. split; [|exact M].
  destruct (p A) as [|a l] eqn:EA.
  - rewrite (H2 eq_refl). split; [constructor|].
    split; [left; reflexivity|]. cbn. lia.
  - destruct (H1 ltac:(discriminate)) as (S1 & N1).
    split; [exact L'|]. split; [rewrite S1; exact S|].
    rewrite N1. pose proof (eff_le (a :: l)) as He.
    unfold n in HK. rewrite EA in HK.
    change (n mpi_init) with 0%nat. clear - He HK HK1. lia.
Qed.

(** mpi_gcd(G, A, B), for B not zero, returns for every loop bound that is
    large enough and sets G to the greatest common divisor of A and B, with
    sign +1, whatever the signs of A and B; A may be zero. *)
Theorem mpi_gcd_correct (G A B : mpi_t) :
  wf A -> wf B -> mpi_val B <> 0 ->
  exists G' f0,
    (forall fuel, (f0 <= fuel)%nat -> mpi_gcd fuel G A B = Ok G')
    /\ mpi_val G' = Z.gcd (mpi_val A) (mpi_val B)
    /\ s G' = 1 /\ limbs_ok (p G').
Proof.
  intros WA WB HB0.
  pose proof WA as (LA & SA & NA). pose proof WB as (LB & SB & NB).
  assert (HmB : 0 < mag B).
  { pose proof (mag_nonneg B LB) as H. unfold mpi_val in HB0.
    destruct (Z.eq_dec (mag B) 0) as [E|E]; [|clear - H E; lia].
    rewrite E, Z.mul_0_r in HB0. congruence. }
  pose proof (mag_nonneg A LA) as HmA.
  set (K := Nat.max 1 (Nat.max (n A) (n B))).
  assert (HK1 : (1 <= K)%nat) by (unfold K; clear; lia).
  assert (HK : (K <= POLARSSL_MPI_MAX_LIMBS)%nat).
  { pose proof (mag_pos_nonempty B HmB) as Hne. unfold n in *.
    destruct (p B); [congruence|]. cbn [length] in *.
    unfold K. clear - NA NB. lia. }
  destruct (copy_init_wfk K A WA HK1 ltac:(unfold K; clear; lia))
    as (TA0 & ETA & WTA & MTA).
  destruct (copy_init_wfk K B WB HK1 ltac:(unfold K; clear; lia))
    as (TB0 & ETB & WTB & MTB).
  pose proof WTA as (LTA & _ & NTA). pose proof WTB as (LTB & _ & NTB).
  remember (if (mpi_lsb TB0 <? mpi_lsb TA0)%nat then mpi_lsb TB0
            else mpi_lsb TA0) as lz eqn:Elz.
  assert (Hcap1 : (1 <= POLARSSL_MPI_MAX_LIMBS)%nat) by (clear - HK1 HK; lia).
  destruct (mpi_shift_r_spec TA0 lz LTA Hcap1)
    as (TA1 & EA1 & MA1 & LA1 & _ & NA1).
  destruct (mpi_shift_r_spec TB0 lz LTB Hcap1)
    as (TB1 & EB1 & MB1 & LB1 & _ & NB1).
  rewrite MTA in MA1. rewrite MTB in MB1.
  destruct (lsb_odd_part TB0 LTB ltac:(rewrite MTB; clear - HmB; lia))
    as (B1 & B2 & _).
  rewrite MTB in B1, B2.
  (* 2^lz divides both, and one of the quotients is odd *)
  assert (HdB : mag B mod 2 ^ Z.of_nat lz = 0).
  { apply mod_pow2_le with (b := mpi_lsb TB0); [|exact B1].
    rewrite Elz. destruct (Nat.ltb_spec (mpi_lsb TB0) (mpi_lsb TA0)); lia. }
  assert (HdA : mag A mod 2 ^ Z.of_nat lz = 0).
  { destruct (Z.eq_dec (mag A) 0) as [E|E]; [rewrite E; apply Z.mod_0_l;
      apply Z.neq_sym, Z.lt_neq, pow2_pos|].
    destruct (lsb_odd_part TA0 LTA ltac:(rewrite MTA; exact E)) as (A1 & _).
    rewrite MTA in A1.
    apply mod_pow2_le with (b := mpi_lsb TA0); [|exact A1].
    rewrite Elz. destruct (Nat.ltb_spec (mpi_lsb TB0) (mpi_lsb TA0)); lia. }
  assert (Hodd : mag A <> 0 ->
            Z.odd (Z.gcd (mag A / 2 ^ Z.of_nat lz) (mag B / 2 ^ Z.of_nat lz))
            = true).
  { intros E.
    destruct (lsb_odd_part TA0 LTA ltac:(rewrite MTA; exact E)) as (_ & A2 & _).
    rewrite MTA in A2. rewrite Elz.
    destruct (Nat.ltb_spec (mpi_lsb TB0) (mpi_lsb TA0)).
    - apply odd_gcd_r. exact B2.
    - apply odd_gcd_l. exact A2. }
  pose proof (pow2_pos lz) as Hp.
  pose proof (exact_div_pow2 _ _ HdA) as HeA.
  pose proof (exact_div_pow2 _ _ HdB) as HeB.
  assert (HqB : 0 < mag B / 2 ^ Z.of_nat lz).
  { remember (mag B / 2 ^ Z.of_nat lz) as q. clear - HeB HmB Hp. nia. }
  assert (HqA : mag A / 2 ^ Z.of_nat lz <> 0 -> mag A <> 0).
  { intros H E. apply H. rewrite E. apply Z.div_0_l. clear - Hp. lia. }
  assert (Hgcd : Z.gcd (mag A) (mag B)
                 = 2 ^ Z.of_nat lz
                   * Z.gcd (mag A / 2 ^ Z.of_nat lz) (mag B / 2 ^ Z.of_nat lz)).
  { rewrite HeA at 1. rewrite HeB at 1.
    apply Z.gcd_mul_mono_l_nonneg. clear - Hp. lia. }
  (* the loop *)
  assert (WA1 : wfk K (set_sign TA1 1)).
  { split; [exact LA1|]. split; [left; reflexivity|].
    change (n (set_sign TA1 1)) with (n TA1). clear - NA1 NTA HK1. lia. }
  assert (WB1 : wfk K (set_sign TB1 1)).
  { split; [exact LB1|]. split; [left; reflexivity|].
    change (n (set_sign TB1 1)) with (n TB1). clear - NB1 NTB HK1. lia. }
  destruct (gcd_loop K (set_sign TA1 1) (set_sign TB1 1) HK1 HK WA1 WB1
              eq_refl eq_refl)
    as (TA' & TB' & (f0 & Hloop) & WB' & SB' & MB').
  { rewrite mag_set_sign, MB1. exact HqB. }
  { rewrite !mag_set_sign, MA1, MB1. intros H. apply Hodd, HqA, H. }
  rewrite !mag_set_sign, MA1, MB1 in MB'.
  pose proof WB' as (LB' & _ & NB').
  assert (Hle : Z.gcd (mag A) (mag B) <= mag B).
  { apply Z.divide_pos_le; [exact HmB | apply Z.gcd_divide_r]. }
  pose proof (mag_bound B LB) as HbB.
  assert (HRK : Radix ^ Z.of_nat (n B) <= Radix ^ Z.of_nat K)
    by (apply Radix_pow_le; unfold K; clear; lia).
  assert (Hg0 : 0 < mag TB').
  { rewrite MB'.
    pose proof (Z.gcd_nonneg (mag A / 2 ^ Z.of_nat lz)
                  (mag B / 2 ^ Z.of_nat lz)) as H.
    destruct (Z.eq_dec (Z.gcd (mag A / 2 ^ Z.of_nat lz)
                          (mag B / 2 ^ Z.of_nat lz)) 0) as [E|E];
      [|clear - H E; lia].
    apply Z.gcd_eq_0_r in E. exfalso. clear - E HqB. lia. }
  destruct (mpi_shift_l_spec K TB' lz LB' (mag_pos_nonempty TB' Hg0) NB' HK)
    as (TB2 & m & E2 & _ & M2 & S2 & L2 & _ & N2).
  { rewrite MB', Z.mul_comm, <- Hgcd. clear - Hle HbB HRK. lia. }
  { assert (H : 2 ^ Z.of_nat lz < 2 ^ Z.of_nat (biL * K)).
    { rewrite <- Radix_pow_2exp.
      assert (H1 : 2 ^ Z.of_nat lz <= Z.gcd (mag A) (mag B)).
      { rewrite Hgcd, <- MB'. clear - Hp Hg0. nia. }
      clear - H1 Hle HbB HRK. lia. }
    apply pow2_lt_inv in H. clear - H. lia. }
  assert (Hm2 : mag TB2 = Z.gcd (mag A) (mag B)).
  { rewrite M2, MB', Hgcd. ring. }
  destruct (mpi_copy_spec G TB2 L2 ltac:(clear - N2 HK; lia))
    as (G' & EG & MG & LG & HG & _).
  destruct (HG (mag_pos_nonempty TB2 ltac:(rewrite Hm2, Hgcd, <- MB';
                                           clear - Hp Hg0; nia)))
    as (SG & _).
  exists G', f0. split.
  - intros fuel Hf. unfold mpi_gcd.
    rewrite ETA, bind_Ok. cbv beta. rewrite ETB, bind_Ok. cbv beta zeta.
    rewrite <- Elz. rewrite EA1, bind_Ok. cbv beta.
    rewrite EB1, bind_Ok. cbv beta.
    rewrite (Hloop fuel Hf), bind_Ok. cbv beta iota.
    rewrite E2, bind_Ok. exact EG.
  - split; [|split; [rewrite SG, S2; exact SB' | exact LG]].
    unfold mpi_val at 1. rewrite SG, S2, SB', Z.mul_1_l, MG, Hm2.
    rewrite <- (mpi_val_mag A LA SA), <- (mpi_val_mag B LB SB).
    rewrite Z.gcd_abs_l, Z.gcd_abs_r. reflexivity.
Qed.

End GcdCorrect.

Lemma mpi_gcd_correct_witness :
  exists G' f0,
    (forall fuel, (f0 <= fuel)%nat ->
       @mpi_gcd cfg32 fuel mpi_init (mpi_of (-1) [1764; 0]) (mpi_of 1 [868])
       = Ok G')
    /\ @mpi_val cfg32 G'
       = Z.gcd (@mpi_val cfg32 (mpi_of (-1) [1764; 0]))
               (@mpi_val cfg32 (mpi_of 1 [868]))
    /\ s G' = 1 /\ @limbs_ok cfg32 (p G').
Proof.
  apply (@mpi_gcd_correct cfg32 mpi_init (mpi_of (-1) [1764; 0])
           (mpi_of 1 [868])).
  - split; [repeat constructor; vm_compute; congruence
           | split; [right; reflexivity
                    | apply Nat.leb_le; vm_compute; reflexivity]].
  - split; [repeat constructor; vm_compute; congruence
           | split; [left; reflexivity
                    | apply Nat.leb_le; vm_compute; reflexivity]].
  - vm_compute. discriminate.
Defined.

Section MulCorrect.
Context {cfg : config}.

(** mpi_mul_mpi(X, A, B) returns MALLOC_FAILED when the significant limbs of
    A and of B together exceed POLARSSL_MPI_MAX_LIMBS; otherwise it succeeds
    with X = A * B as signed integers, whether X aliases A, B or neither.
    mpi_mul_int(X, A, b) stores the signed b into one unsigned limb: it
    gives X = A * (b mod 2^biL), which is A * b only for b >= 0. *)
Theorem mpi_mul_mpi_correct (d : dst) (A B : mpi_t) (b : Z) :
  wf A -> wf B -> (1 <= POLARSSL_MPI_MAX_LIMBS)%nat ->
  ((POLARSSL_MPI_MAX_LIMBS < eff (p A) + eff (p B))%nat ->
   mpi_mul_mpi d A B = Err ERR_MPI_MALLOC_FAILED)
  /\ ((eff (p A) + eff (p B) <= POLARSSL_MPI_MAX_LIMBS)%nat ->
      exists X', mpi_mul_mpi d A B = Ok X'
        /\ mpi_val X' = mpi_val A * mpi_val B
        /\ (s X' = 1 \/ s X' = -1)
        /\ limbs_ok (p X')
        /\ n X' = Nat.max (n (dst_val d A B))
                    (Nat.max 1 (eff (p A) + eff (p B))))
  /\ (d <> DstB -> (eff (p A) + 1 <= POLARSSL_MPI_MAX_LIMBS)%nat ->
      exists X', mpi_mul_int d A b = Ok X'
        /\ mpi_val X' = mpi_val A * (b mod Radix)
        /\ limbs_ok (p X')).
Proof.
  intros WA WB Hcap.
  destruct (mpi_mul_mpi_spec d A B WA WB Hcap) as (Herr & Hok).
  split; [exact Herr|]. split.
  - intros H. destruct (Hok H) as (X' & E & _ & V & S & L & N).
    exists X'. auto.
  - intros Hd H. unfold mpi_mul_int.
    set (B' := {| s := 1; p := [to_uint b] |}).
    assert (Hb : 0 <= to_uint b < Radix)
      by (apply Z.mod_pos_bound, Radix_pos).
    assert (WB' : wf B').
    { split; [constructor; [exact Hb | constructor]|].
      split; [left; reflexivity | exact Hcap]. }
    destruct (mpi_mul_mpi_spec d A B' WA WB' Hcap) as (_ & Hok').
    destruct Hok' as (X' & E & _ & V & _ & L & _).
    { pose proof (eff_le (p B')) as He.
      change (length (p B')) with 1%nat in He. clear - H He. lia. }
    exists X'. split; [exact E|]. split; [|exact L].
    rewrite V. unfold mpi_val at 2, mag, B'. cbn [s p limbs_val].
    unfold to_uint. ring.
Qed.

End MulCorrect.

Lemma mpi_mul_mpi_correct_witness :
  ((@POLARSSL_MPI_MAX_LIMBS cfg32
    < eff (p (mpi_of (-1) [4294967295; 2; 0]%Z))
      + eff (p (mpi_of (-1) [3; 0]%Z)))%nat ->
   @mpi_mul_mpi cfg32 DstA (mpi_of (-1) [4294967295; 2; 0]%Z)
     (mpi_of (-1) [3; 0]%Z) = Err ERR_MPI_MALLOC_FAILED)
  /\ ((eff (p (mpi_of (-1) [4294967295; 2; 0]%Z))
       + eff (p (mpi_of (-1) [3; 0]%Z)) <= @POLARSSL_MPI_MAX_LIMBS cfg32)%nat ->
      exists X', @mpi_mul_mpi cfg32 DstA (mpi_of (-1) [4294967295; 2; 0]%Z)
                   (mpi_of (-1) [3; 0]%Z) = Ok X'
        /\ @mpi_val cfg32 X'
           = @mpi_val cfg32 (mpi_of (-1) [4294967295; 2; 0]%Z)
             * @mpi_val cfg32 (mpi_of (-1) [3; 0]%Z)
        /\ (s X' = 1 \/ s X' = -1)
        /\ @limbs_ok cfg32 (p X')
        /\ n X' = Nat.max (n (dst_val DstA (mpi_of (-1) [4294967295; 2; 0]%Z)
                                (mpi_of (-1) [3; 0]%Z)))
                    (Nat.max 1 (eff (p (mpi_of (-1) [4294967295; 2; 0]%Z))
                                + eff (p (mpi_of (-1) [3; 0]%Z)))))
  /\ (DstA <> DstB ->
      (eff (p (mpi_of (-1) [4294967295; 2; 0]%Z)) + 1
       <= @POLARSSL_MPI_MAX_LIMBS cfg32)%nat ->
      exists X', @mpi_mul_int cfg32 DstA (mpi_of (-1) [4294967295; 2; 0]%Z) (-1)
                 = Ok X'
        /\ @mpi_val cfg32 X'
           = @mpi_val cfg32 (mpi_of (-1) [4294967295; 2; 0]%Z)
             * ((-1) mod @Radix cfg32)
        /\ @limbs_ok cfg32 (p X')).
Proof.
  apply (@mpi_mul_mpi_correct cfg32 DstA (mpi_of (-1) [4294967295; 2; 0]%Z)
           (mpi_of (-1) [3; 0]%Z) (-1)).
  - split; [repeat constructor; vm_compute; congruence
           | split; [right; reflexivity
                    | apply Nat.leb_le; vm_compute; reflexivity]].
  - split; [repeat constructor; vm_compute; congruence
           | split; [right; reflexivity
                    | apply Nat.leb_le; vm_compute; reflexivity]].
  - apply Nat.leb_le. vm_compute. reflexivity.
Defined.
